(** * Chain filtering of the nvbio BWA-MEM pipeline (filter-chains.cu)

    A shallow embedding of [chain_coverage_kernel], [chain_filter_kernel]
    and the host function [filter_chains], and the properties of the
    chain-filtering stage proved about them.

    Conventions of the embedding.
    - [uint32] and [uint64] values are integers of [Z]; every operation that
      can leave the range is followed by its wrap-around ([wrap32], [wrap64]).
    - Device arrays are lists.  Positions in an array ([i], [j], [n], [begin],
      [end]) are natural numbers: they are bounded by the array sizes, so
      their 32-bit arithmetic never wraps.
    - An access outside an array has no defined behaviour in the source; the
      embedding makes it a fault: the thread, and the launch it belongs
      to, yields [None].
    - A [float] is an IEEE 754 binary32 value of the specification of
      floating-point arithmetic of the standard library ([SpecFloat], at
      precision 24 and maximal exponent 128): conversions and products round
      to nearest, ties to even.
    - An access outside a buffer on the host is a fault as well: the
      function yields [None]. *)

From Stdlib Require Import ZArith QArith Lia SpecFloat.
From stdpp Require Import base tactics option list numbers sorting.

Local Open Scope Z_scope.

(** ** Machine integers *)

Definition wrap32 (z : Z) : Z := z mod 2 ^ 32.
Definition wrap64 (z : Z) : Z := z mod 2 ^ 64.

Definition is_uint32 (z : Z) : Prop := 0 <= z < 2 ^ 32.

(** [uint32(-1)] *)
Definition UINT32_MAX : Z := wrap32 (-1).

Record uint2 : Type := make_uint2 { x : Z; y : Z }.

Global Instance uint2_eq_dec : EqDecision uint2.
Proof. solve_decision. Defined.

Global Instance uint2_inhabited : Inhabited uint2 := populate (make_uint2 0 0).

(** Modelled from the spec: [mem_state::mem_type] is declared in mem-search.h,
    which is not among the sources.  A seed is "an exact-match anchor" with
    "a half-open coordinate span [begin, end) in read-local coordinates";
    [span] is the only member the stage reads. *)
Record mem_type : Type := make_mem { span : uint2 }.

(** ** Array accesses *)

(** [a[i]] read through a [uint32] index held in a variable *)
Definition load {A} (a : list A) (i : Z) : option A := a !! Z.to_nat i.

(** [a[i] = v] *)
Definition store {A} (a : list A) (i : nat) (v : A) : option (list A) :=
  if decide (i < length a)%nat then Some (<[i := v]> a) else None.

(** ** chain_coverage_kernel *)

(** One iteration of the loop over the seeds of a chain, on
    [(range, weight)]. *)
Definition coverage_step (st : uint2 * Z) (sp : uint2) : uint2 * Z :=
  let '(range, weight) := st in
  let weight' :=
    if Z.leb (y range) (x sp) then wrap32 (weight + wrap32 (y sp - x sp))
    else if Z.ltb (y range) (y sp) then wrap32 (weight + wrap32 (y sp - y range))
    else weight in
  (make_uint2 (Z.min (x range) (x sp)) (Z.max (y range) (y sp)), weight').

(** [for (uint32 i = begin; i < end; ++i)] with [count] iterations left *)
Fixpoint coverage_loop (mems : list mem_type) (mems_index : list Z)
    (i : nat) (count : nat) (st : uint2 * Z) : option (uint2 * Z) :=
  match count with
  | O => Some st
  | S count' =>
      k ← mems_index !! i;
      seed ← load mems k;
      coverage_loop mems mems_index (S i) count' (coverage_step st (span seed))
  end.

(** the composite key [uint64(weight) | (uint64(read) << 32)] *)
Definition weight_key (read weight : Z) : Z :=
  Z.lor weight (wrap64 (Z.shiftl read 32)).

(** The thread of chain [chain_id]; the state is the pair of output arrays
    [(chain_ranges, chain_weights)]. *)
Definition chain_coverage_kernel (n_chains : nat)
    (chain_reads chain_offsets chain_lengths : list Z)
    (mems : list mem_type) (mems_index : list Z)
    (out : list uint2 * list Z) (chain_id : nat) : option (list uint2 * list Z) :=
  if decide (n_chains ≤ chain_id)%nat then Some out
  else
    read ← chain_reads !! chain_id;
    begin ← chain_offsets !! chain_id;
    len ← chain_lengths !! chain_id;
    let end_ := wrap32 (len + begin) in
    st ← coverage_loop mems mems_index (Z.to_nat begin)
           (Z.to_nat end_ - Z.to_nat begin)
           (make_uint2 UINT32_MAX 0, 0);
    chain_ranges ← store out.1 chain_id st.1;
    chain_weights ← store out.2 chain_id (weight_key read st.2);
    Some (chain_ranges, chain_weights).

(** A launch runs its threads to completion one after the other; [tids] is
    the order in which they are taken. *)
Fixpoint launch {S T} (thread : S → T → option S) (tids : list T) (s : S)
    : option S :=
  match tids with
  | [] => Some s
  | t :: tids' => s' ← thread s t; launch thread tids' s'
  end.

(** Modelled from the spec: [util::divide_ri] is declared in util.h, which is
    not among the sources; the number of blocks of a launch is the number of
    tasks divided by the block size, rounded up. *)
Definition divide_ri (a b : nat) : nat := ((a + b - 1) / b)%nat.

Definition block_dim : nat := 128.

(** ** Reference notions for the coverage pass *)

(** the seeds of the slice [[begin, begin + len)] of the processing order *)
Definition chain_spans (mems : list mem_type) (mems_index : list Z)
    (begin len : nat) : option (list uint2) :=
  mapM (λ i, k ← mems_index !! i; seed ← load mems k; Some (span seed))
       (seq begin len).

(** coordinate [p] lies in one of the half-open intervals *)
Definition covered (spans : list uint2) (p : Z) : Prop :=
  Exists (λ s, x s <= p < y s) spans.

Global Instance covered_dec spans p : Decision (covered spans p).
Proof. unfold covered. apply _. Defined.

Definition max_end (spans : list uint2) : Z :=
  foldr (λ s m, Z.max (y s) m) 0 spans.

(** the number of coordinates below [bound] that some interval covers *)
Definition covered_below (bound : Z) (spans : list uint2) : Z :=
  Z.of_nat (length (filter (covered spans) (seqZ 0 bound))).

(** the length of the union of the intervals *)
Definition union_length (spans : list uint2) : Z :=
  covered_below (max_end spans) spans.

(** intervals in ascending order of their begin coordinate *)
Definition sorted_by_begin (spans : list uint2) : Prop :=
  Sorted (λ s t, x s <= x t) spans.

(** a seed span is a half-open interval of [uint32] coordinates *)
Definition valid_span (s : uint2) : Prop := 0 <= x s <= y s ∧ y s < 2 ^ 32.

(** ** The chunk of reads and the searches *)

Record read_chunk : Type :=
  make_chunk { read_begin : Z; read_end : Z; mem_begin : Z; mem_end : Z }.

(** Modelled from the spec: [nvbio::lower_bound] and [nvbio::upper_bound] are
    declared in nvbio/basic/algorithms.h, which is not among the sources.
    The sub-range of a read is "located via lower/upper-bound search of the
    read id in the (read-id-sorted) original chain-to-read table":
    [lower_bound v a] is the first position of [a] whose element is not less
    than [v], [upper_bound v a] the first whose element is greater.  The
    vectorised [thrust::lower_bound] of the grouping pass is [lower_bound] at
    each of its values. *)
Fixpoint lower_bound (v : Z) (a : list Z) : nat :=
  match a with
  | [] => O
  | e :: a' => if Z.ltb e v then S (lower_bound v a') else O
  end.

Fixpoint upper_bound (v : Z) (a : list Z) : nat :=
  match a with
  | [] => O
  | e :: a' => if Z.leb e v then S (upper_bound v a') else O
  end.

(** ** Single-precision floating point *)

(** A [float] is an IEEE 754 binary32 value: 24 bits of precision, exponents
    below 128; the operations are those of the specification of the standard
    library, which round to nearest, ties to even. *)
Definition float : Type := spec_float.

(** the mantissa and the exponent of a finite value are in the canonical form
    of the format, as are those of every value that a [float] variable holds *)
Definition is_float (v : float) : Prop := valid_binary 24 128 v = true.

(** the conversion of a [uint32] to [float] *)
Definition float_of_uint32 (n : Z) : float := binary_normalize 24 128 n 0 false.

(** [a * b], [a < b] and [a <= b] on [float] *)
Definition float_mul (a b : float) : float := SFmul 24 128 a b.
Definition float_lt (a b : float) : bool := SFltb a b.
Definition float_le (a b : float) : bool := SFleb a b.

(** ** Reference notions for [float] *)

(** the value of a finite [float] as a multiple of [2 ^ -149], the least
    positive value of the format, and as a rational *)
Definition float_units (v : float) : Z :=
  match v with
  | S754_finite s m e => cond_Zopp s (Zpos m * 2 ^ (e + 149))
  | _ => 0
  end.


Definition float_finite (v : float) : bool :=
  match v with
  | S754_zero _ | S754_finite _ _ _ => true
  | _ => false
  end.

(** [m / 2 ^ n] rounded to the nearest integer, ties to even *)
Definition round_shift (m n : Z) : Z :=
  let q := m / 2 ^ n in
  let r := m mod 2 ^ n in
  let h := 2 ^ (n - 1) in
  if r <? h then q
  else if r =? h then (if Z.even q then q else q + 1)
  else q + 1.

(** the exponent of the last bit of the binary32 values between
    [2 ^ (k - 1)] and [2 ^ k]: [fexp 24 128] *)
Definition float_exp (k : Z) : Z := Z.max (k - 24) (-149).

(** the number of binary digits of a positive integer *)
Definition digits (m : Z) : Z := Z.log2 m + 1.

(** mantissa [m] and exponent [e] are those of a finite binary32 value *)
Definition canonical (m e : Z) : Prop :=
  -149 <= e <= 104 ∧ 0 < m < 2 ^ 24 ∧ (-149 < e → 2 ^ 23 <= m).

(** the binary32 value nearest to [m * 2 ^ e], ties to even, with sign [s],
    for a positive [m] and an exponent [e] that is not above the exponent of
    the last bit of the result; [2 ^ 128] and more is infinite *)
Definition round_float (s : bool) (m e : Z) : float :=
  let e' := float_exp (digits m + e) in
  let m1 := if e' =? e then m else round_shift m (e' - e) in
  if m1 =? 0 then S754_zero s
  else if m1 =? 2 ^ 24 then
    (if e' + 1 <=? 104 then S754_finite s (2 ^ 23)%positive (e' + 1) else S754_infinity s)
  else if e' <=? 104 then S754_finite s (Z.to_pos m1) e' else S754_infinity s.

(** a finite value that is not negative *)
Definition float_nonneg (v : float) : bool :=
  match v with
  | S754_zero _ | S754_finite false _ _ => true
  | _ => false
  end.

(** ** chain_filter_kernel *)

(** [chain_weights[k] & 0xFFFFFFFFu] *)
Definition weight_of_key (key : Z) : Z := Z.land key 0xFFFFFFFF.

(** [min_end > max_begin]: the two spans intersect *)
Definition have_overlap (i_span j_span : uint2) : bool :=
  let max_begin := Z.max (x i_span) (x j_span) in
  let min_end := Z.min (y i_span) (y j_span) in
  Z.ltb max_begin min_end.

(** [min_end - max_begin >= min_l * mask_level]: the two [uint32] operands
    are converted to [float], the product and the comparison are those of
    [float] *)
Definition significant_overlap (i_span j_span : uint2) (mask_level : float) : bool :=
  let max_begin := Z.max (x i_span) (x j_span) in
  let min_end := Z.min (y i_span) (y j_span) in
  let min_l := Z.min (wrap32 (y i_span - x i_span)) (wrap32 (y j_span - x j_span)) in
  float_le (float_mul (float_of_uint32 min_l) mask_level)
           (float_of_uint32 (wrap32 (min_end - max_begin))).

(** [i_w < j_w * chain_drop_ratio && j_w - i_w >= min_seed_len * 2]: the
    first test is on [float], the second on [uint32] *)
Definition dominance_break (i_w j_w : Z) (chain_drop_ratio : float) (min_seed_len : Z)
    : bool :=
  float_lt (float_of_uint32 i_w) (float_mul (float_of_uint32 j_w) chain_drop_ratio)
  && Z.leb (wrap32 (min_seed_len * 2)) (wrap32 (j_w - i_w)).

Section filter_kernel.
Variables (chain_index : list Z) (chain_ranges : list uint2) (chain_weights : list Z).
Variables (mask_level chain_drop_ratio : float) (min_seed_len : Z).

(** [for (j = ...; j < begin + n; ++j)] with [count] iterations left, for
    the chain at rank [i], whose index in the chain tables is [ci]; the
    result is the value of [j] on exit and the flags. *)
Fixpoint inner_scan (ci : nat) (i_span : uint2) (i_w : Z)
    (count : nat) (j : nat) (chain_flags : list Z) : option (nat * list Z) :=
  match count with
  | O => Some (j, chain_flags)
  | S count' =>
      cj ← chain_index !! j;
      j_span ← load chain_ranges cj;
      kj ← chain_weights !! j;
      let j_w := weight_of_key kj in
      if have_overlap i_span j_span then
        if significant_overlap i_span j_span mask_level then
          flags' ← store chain_flags ci 1;
          if dominance_break i_w j_w chain_drop_ratio min_seed_len
          then Some (j, flags')
          else inner_scan ci i_span i_w count' (S j) flags'
        else inner_scan ci i_span i_w count' (S j) chain_flags
      else inner_scan ci i_span i_w count' (S j) chain_flags
  end.

(** the body of the loop over the ranks [i] of a read, on [(n, chain_flags)] *)
Definition filter_step (begin i : nat) (st : nat * list Z) : option (nat * list Z) :=
  let '(n, chain_flags) := st in
  ci ← chain_index !! i;
  i_span ← load chain_ranges ci;
  ki ← chain_weights !! i;
  let i_w := weight_of_key ki in
  r ← inner_scan (Z.to_nat ci) i_span i_w n begin chain_flags;
  let '(j, flags') := r in
  if decide (j = n) then
    flags'' ← store flags' (Z.to_nat ci) 1;
    Some (S n, flags'')
  else Some (n, flags').

(** [for (uint32 i = ...; i < end; ++i)] with [count] iterations left *)
Fixpoint filter_loop (begin : nat) (count : nat) (i : nat) (st : nat * list Z)
    : option (nat * list Z) :=
  match count with
  | O => Some st
  | S count' => st' ← filter_step begin i st; filter_loop begin count' (S i) st'
  end.

(** The thread [tid] ([threadIdx.x + blockIdx.x * blockDim.x]); the state is
    the output array [chain_flags]. *)
Definition chain_filter_kernel (chunk : read_chunk) (n_chains : nat)
    (chain_reads : list Z) (chain_flags : list Z) (tid : nat) : option (list Z) :=
  let read_id := wrap32 (Z.of_nat tid + read_begin chunk) in
  if Z.leb (read_end chunk) read_id then Some chain_flags
  else
    let begin := lower_bound read_id (take n_chains chain_reads) in
    let end_ := upper_bound read_id (take n_chains chain_reads) in
    c ← chain_index !! begin;
    flags ← store chain_flags (Z.to_nat c) 1;
    st ← filter_loop begin (end_ - (begin + 1)) (begin + 1) (1%nat, flags);
    Some st.2.
End filter_kernel.

(** ** filter_chains *)

Record mem_state : Type := make_mem_state {
  mems : list mem_type;
  mems_index : list Z;
  mems_chain : list Z;
  chain_lengths : list Z;
  chain_offsets : list Z;
  chain_reads : list Z;
  n_chains : Z
}.

(** [command_line_options] *)
Record options : Type := make_options {
  mask_level : float;
  chain_drop_ratio : float;
  min_seed_len : Z
}.

(** [stats_n_chains] is [pipeline->stats.n_chains]; the counter is declared in
    pipeline.h, which is not among the sources, and is taken unbounded.
    [stats_chain_time] is [pipeline->stats.chain_time], the [float] that the
    [ScopedTimer<float>] of line 148 is given. *)
Record pipeline_context : Type := make_pipeline {
  chunk : read_chunk;
  mem : mem_state;
  stats_n_chains : Z;
  stats_chain_time : float
}.

(** Modelled from the spec: [cuda::runlength_encode] is declared in
    nvbio/basic/cuda/primitives.h, which is not among the sources.
    "Run-length encoding: collapsing consecutive equal keys in a sorted
    sequence into (key, count) pairs." *)
Fixpoint runlength_encode (keys : list Z) : list (Z * Z) :=
  match keys with
  | [] => []
  | k :: keys' =>
      match runlength_encode keys' with
      | (k', c) :: runs => if decide (k = k') then (k, c + 1) :: runs
                           else (k, 1) :: (k', c) :: runs
      | [] => [(k, 1)]
      end
  end.

(** Modelled from the spec: [nvbio::hi_bits_functor<uint32,uint64>] is declared
    in nvbio/basic/numbers.h, which is not among the sources; it "extracts the
    identifier's high bits", the read id of a 64-bit chain identifier. *)
Definition hi_bits (chain : Z) : Z := wrap32 (Z.shiftr chain 32).

(** [thrust::copy] of [src] to the beginning of the buffer [dst] *)
Definition copy_into {A} (src dst : list A) : list A := src ++ drop (length src) dst.

(** [v.clear(); v.resize( n )] when [n] exceeds [reserved_space]: the elements
    of the new vector are value-initialised *)
Definition reserve (reserved_space n : nat) (v : list Z) : list Z :=
  if decide (reserved_space < n)%nat then replicate n 0 else v.

(** Lines 159-204: the chain tables of the chunk, from the chain identifiers
    of its [n_mems] seeds.  [cuda::runlength_encode] reads [n_mems]
    identifiers of [mems_chain]; the tables are resized together when
    [chain_lengths] is too small for the [n] chains; [thrust::copy],
    [thrust::lower_bound] and [thrust::transform] write [n] entries at the
    beginning of [chain_lengths], [chain_offsets] and [chain_reads].  A read
    or a write past the end of a buffer is a fault. *)
Definition group_chains (n_mems : nat) (m : mem_state) : option (nat * mem_state) :=
  if decide (n_mems ≤ length (mems_chain m))%nat then
    let runs := runlength_encode (take n_mems (mems_chain m)) in
    let unique_chains := runs.*1 in
    let unique_counts := runs.*2 in
    let n := length runs in
    let reserved_space := length (chain_lengths m) in
    let lengths := reserve reserved_space n (chain_lengths m) in
    let offsets := reserve reserved_space n (chain_offsets m) in
    let reads := reserve reserved_space n (chain_reads m) in
    if decide (n ≤ length lengths ∧ n ≤ length offsets ∧ n ≤ length reads)%nat then
      Some (n, make_mem_state (mems m) (mems_index m) (mems_chain m)
                 (copy_into unique_counts lengths)
                 (copy_into
                    ((λ c, Z.of_nat (lower_bound c (take n_mems (mems_chain m))))
                       <$> unique_chains)
                    offsets)
                 (copy_into (hi_bits <$> unique_chains) reads)
                 (n_chains m))
    else None
  else None.

(** Lines 206-231: the launch of [chain_coverage_kernel]. *)
Definition compute_coverage (n : nat) (m : mem_state) : option (list uint2 * list Z) :=
  launch
    (chain_coverage_kernel n (chain_reads m) (chain_offsets m) (chain_lengths m)
       (mems m) (mems_index m))
    (seq 0 (divide_ri n block_dim * block_dim))
    (replicate n (make_uint2 0 0), replicate n 0).

(** [thrust::sort_by_key] puts the keys in ascending order and moves each value
    along with its key.  [sorts_by_key] is that contract; [sort_by_key] is a
    sort that meets it. *)
Definition key_le (p q : Z * Z) : Prop := p.1 <= q.1.

Global Instance key_le_dec p q : Decision (key_le p q).
Proof. unfold key_le. apply _. Defined.

Definition sorts_by_key (keys vals keys' vals' : list Z) : Prop :=
  length keys' = length vals' ∧
  zip keys' vals' ≡ₚ zip keys vals ∧
  Sorted Z.le keys'.

Definition sort_by_key (keys vals : list Z) : list Z * list Z :=
  let sorted := merge_sort key_le (zip keys vals) in
  (sorted.*1, sorted.*2).

(** Lines 233-242: the identity permutation sorted by the composite keys; the
    result is [(chain_weights, chain_index)], the latter in a buffer of
    [reserved_space] elements. *)
Definition rank_chains (n reserved_space : nat) (chain_weights : list Z)
    : list Z * list Z :=
  let chain_index := copy_into (Z.of_nat <$> seq 0 n) (replicate reserved_space 0) in
  let '(keys', index') := sort_by_key (take n chain_weights) (take n chain_index) in
  (copy_into keys' chain_weights, copy_into index' chain_index).

(** Lines 244-266: the launch of [chain_filter_kernel] on cleared flags. *)
Definition flag_chains (opts : options) (c : read_chunk) (n n_reads : nat)
    (m : mem_state) (chain_index : list Z) (chain_ranges : list uint2)
    (chain_weights : list Z) : option (list Z) :=
  launch
    (chain_filter_kernel chain_index chain_ranges chain_weights
       (mask_level opts) (chain_drop_ratio opts) (min_seed_len opts)
       c n (chain_reads m))
    (seq 0 (divide_ri n_reads block_dim * block_dim))
    (replicate n 0).

(** the elements of [input] whose flag is set, in their order *)
Definition select_flagged {A} (input : list A) (flags : list Z) : list A :=
  (filter (λ p, p.2 ≠ 0) (zip input flags)).*1.

(** Modelled from the spec: [cuda::copy_flagged] is declared in
    nvbio/basic/cuda/primitives.h, which is not among the sources.
    "Stream compaction: removing flagged-out elements from an array while
    preserving relative order of the rest"; the kept elements are written to
    the beginning of [out] and their number is returned. *)
Definition copy_flagged {A} (n : nat) (input : list A) (flags : list Z)
    (out : list A) : nat * list A :=
  let kept := select_flagged (take n input) (take n flags) in
  (length kept, copy_into kept out).

(** Lines 268-302: the three tables compacted through the scratch buffer
    [chain_index], each swapped with it in turn, and the counters. *)
Definition compact_chains (n : nat) (chain_flags chain_index : list Z)
    (p : pipeline_context) : pipeline_context :=
  let m := mem p in
  let '(n_filtered_chains, out_reads) :=
    copy_flagged n (chain_reads m) chain_flags chain_index in
  let chain_index1 := chain_reads m in
  let '(_, out_offsets) := copy_flagged n (chain_offsets m) chain_flags chain_index1 in
  let chain_index2 := chain_offsets m in
  let '(_, out_lengths) := copy_flagged n (chain_lengths m) chain_flags chain_index2 in
  make_pipeline (chunk p)
    (make_mem_state (mems m) (mems_index m) (mems_chain m)
       out_lengths out_offsets out_reads (Z.of_nat n_filtered_chains))
    (stats_n_chains p + Z.of_nat n_filtered_chains)
    (stats_chain_time p).

(** the stages that follow the test on [n_mems], in the order of the source;
    the result also carries the flags the filter kernel computed *)
Definition filter_stages (opts : options) (n_reads n_mems : nat)
    (p : pipeline_context) : option (list Z * pipeline_context) :=
  grouped ← group_chains n_mems (mem p);
  let '(n, m) := grouped in
  let reserved_space := Nat.max (length (chain_lengths (mem p))) n in
  cov ← compute_coverage n m;
  let '(chain_ranges, chain_weights0) := cov in
  let '(chain_weights, chain_index) := rank_chains n reserved_space chain_weights0 in
  chain_flags ← flag_chains opts (chunk p) n n_reads m chain_index chain_ranges chain_weights;
  Some (chain_flags,
        compact_chains n chain_flags chain_index
          (make_pipeline (chunk p) m (stats_n_chains p) (stats_chain_time p))).

(** what the [ScopedTimer] of line 148 does when the function returns:
    [scoped_timer] is what its destructor stores in the [float] it was given,
    as a function of what the variable holds; its code is in
    nvbio/basic/timer.h, which is not among the sources *)
Definition stop_timer (scoped_timer : float → float) (p : pipeline_context)
    : pipeline_context :=
  make_pipeline (chunk p) (mem p) (stats_n_chains p)
    (scoped_timer (stats_chain_time p)).

(** Lines 146-303.  After the grouping pass the later stages write at most
    [n] entries into buffers that hold at least [n]: [chain_ranges],
    [chain_weights] and [chain_flags] are created with [n] entries,
    [chain_index] with [reserved_space], and the buffers that are swapped
    into its place are tables that the grouping pass has written. *)
Definition filter_chains (opts : options) (scoped_timer : float → float)
    (pipeline : pipeline_context) : option pipeline_context :=
  let n_reads := wrap32 (read_end (chunk pipeline) - read_begin (chunk pipeline)) in
  let n_mems := wrap32 (mem_end (chunk pipeline) - mem_begin (chunk pipeline)) in
  if decide (n_mems = 0) then Some (stop_timer scoped_timer pipeline)
  else
    r ← filter_stages opts (Z.to_nat n_reads) (Z.to_nat n_mems) pipeline;
    Some (stop_timer scoped_timer r.2).

(** ** Reference notions for the grouping pass *)

(** the seeds of a run: [count] copies of the chain identifier *)
Definition expand_run (r : Z * Z) : list Z := replicate (Z.to_nat r.2) r.1.

(** the offsets of consecutive slices of the given lengths *)
Fixpoint offsets_from (start : Z) (lengths : list Z) : list Z :=
  match lengths with
  | [] => []
  | l :: lengths' => start :: offsets_from (start + l) lengths'
  end.

(** ** The tables the filter kernel reads *)

(** [chain_weights] and [chain_index] are the keys and the permutation that
    the ranking yields for the chain table [chain_reads], whose chains have
    the coverage weights [weights] *)
Definition ranking (chain_reads weights chain_weights chain_index : list Z) : Prop :=
  length weights = length chain_reads ∧
  Sorted Z.le chain_reads ∧
  Forall is_uint32 chain_reads ∧
  Forall is_uint32 weights ∧
  sorts_by_key (zip_with weight_key chain_reads weights)
    (Z.of_nat <$> seq 0 (length chain_reads)) chain_weights chain_index.

(** every flag that is set in [flags] is set in [flags'] *)
Definition flags_kept (flags flags' : list Z) : Prop :=
  length flags' = length flags ∧ ∀ c, flags !! c = Some 1 → flags' !! c = Some 1.

(** ** Example chunks *)

(** the [float] values 0.5, 0.75 and 0.1f, and the timer that adds one
    second *)
Definition one_half : float := S754_finite false 8388608 (-24).
Definition one_second (t : float) : float := SFadd 24 128 t (float_of_uint32 1).

Definition example_options : options := make_options one_half one_half 5.

(** the identifier of chain [number] of read [read]: the read id in the high
    bits, the number of the chain within the read in the low bits *)
Definition chain_identifier (read number : Z) : Z := Z.lor (Z.shiftl read 32) number.

Definition seed (a b : Z) : mem_type := make_mem (make_uint2 a b).

(** Two reads: read 0 has one chain, of one seed [0,10); read 1 has two chains
    that do not intersect, of one seed each, [0,10) and [100,120). *)
Definition two_reads_pipeline : pipeline_context :=
  make_pipeline (make_chunk 0 2 0 3)
    (make_mem_state
       [seed 0 10; seed 0 10; seed 100 120] [0; 1; 2]
       [chain_identifier 0 0; chain_identifier 1 0; chain_identifier 1 1]
       [] [] [] 0)
    0 (S754_zero false).

(** the state of [two_reads_pipeline] after the grouping pass *)
Definition two_reads_grouped : mem_state :=
  make_mem_state
    [seed 0 10; seed 0 10; seed 100 120] [0; 1; 2]
    [chain_identifier 0 0; chain_identifier 1 0; chain_identifier 1 1]
    [1; 1; 1] [0; 1; 2] [0; 1; 1] 0.

(** the tables the filter kernel receives for [two_reads_pipeline] *)
Definition two_reads_index : list Z := [0; 1; 2].
Definition two_reads_ranges : list uint2 :=
  [make_uint2 0 10; make_uint2 0 10; make_uint2 100 120].
Definition two_reads_weights : list Z :=
  [weight_key 0 10; weight_key 1 10; weight_key 1 20].

(** The same three chains, all of read 0. *)
Definition one_read_pipeline : pipeline_context :=
  make_pipeline (make_chunk 0 1 0 3)
    (make_mem_state
       [seed 0 10; seed 0 10; seed 100 120] [0; 1; 2]
       [chain_identifier 0 0; chain_identifier 0 1; chain_identifier 0 2]
       [] [] [] 0)
    0 (S754_zero false).

(** Two reads, of which read 0 has no seed and read 1 one chain of one seed. *)
Definition empty_read_pipeline : pipeline_context :=
  make_pipeline (make_chunk 0 2 0 1)
    (make_mem_state [seed 0 10] [0] [chain_identifier 1 0] [] [] [] 0)
    0 (S754_zero false).

(** the state of [empty_read_pipeline] after the grouping pass *)
Definition empty_read_grouped : mem_state :=
  make_mem_state [seed 0 10] [0] [chain_identifier 1 0] [1] [0] [1] 0.

(** Two reads, of which read 0 has one chain of one seed and read 1 no seed. *)
Definition empty_last_read_pipeline : pipeline_context :=
  make_pipeline (make_chunk 0 2 0 1)
    (make_mem_state [seed 0 10] [0] [chain_identifier 0 0] [] [] [] 0)
    0 (S754_zero false).

(** the state of [empty_last_read_pipeline] after the grouping pass *)
Definition empty_last_read_grouped : mem_state :=
  make_mem_state [seed 0 10] [0] [chain_identifier 0 0] [1] [0] [0] 0.

(** The pipeline after [two_reads_pipeline] has been filtered, entering the
    next chunk, reads [2,4), in which no seed was found. *)
Definition next_chunk_pipeline : pipeline_context :=
  match filter_chains example_options one_second two_reads_pipeline with
  | Some p =>
      make_pipeline (make_chunk 2 4 3 3) (mem p) (stats_n_chains p) (stats_chain_time p)
  | None => two_reads_pipeline
  end.

(** A chain of four seeds: two that overlap, one that touches the second, and
    one apart. *)
Definition four_seeds : list mem_type :=
  [seed 0 10; seed 5 12; seed 12 13; seed 20 25].

(** Three chains, two of read 0 listed with the heavier first, one of read 1,
    and their ranking. *)
Definition ranked_reads : list Z := [0; 0; 1].
Definition ranked_chain_weights : list Z := [20; 10; 5].
Definition ranked_keys : list Z := [weight_key 0 10; weight_key 0 20; weight_key 1 5].
Definition ranked_index : list Z := [1; 0; 2].
Definition ranked_ranges : list uint2 :=
  [make_uint2 0 20; make_uint2 30 40; make_uint2 0 5].

(** ** Reference notions for the launches *)

(** the flags of the chains [ws] set in [flags] *)
Definition set_flags (ws : list nat) (flags : list Z) : list Z :=
  foldr (λ c f, <[c := 1]> f) flags ws.

(** the result of the coverage loop on the spans of a chain: its range and
    its weight *)
Definition chain_coverage (spans : list uint2) : uint2 * Z :=
  fold_left coverage_step spans (make_uint2 UINT32_MAX 0, 0).

(** the chain tables hold [n] chains whose slices of the processing order
    are seeds of the chunk *)
Definition chain_slices_ok (n : nat) (chain_reads chain_offsets chain_lengths : list Z)
    (mems : list mem_type) (mems_index : list Z) : Prop :=
  ∀ c, (c < n)%nat →
    ∃ read begin len spans,
      chain_reads !! c = Some read ∧ chain_offsets !! c = Some begin ∧
      chain_lengths !! c = Some len ∧
      0 <= begin ∧ 0 <= len ∧ begin + len < 2 ^ 32 ∧
      chain_spans mems mems_index (Z.to_nat begin) (Z.to_nat len) = Some spans.

(** chain [c] is ranked between [lo] and [hi] *)
Definition ranked_in (chain_index : list Z) (lo hi : nat) (c : nat) : Prop :=
  ∃ p ci, (lo ≤ p < hi)%nat ∧ chain_index !! p = Some ci ∧ c = Z.to_nat ci.

(** * Properties *)

(** ** Machine integers *)

Lemma wrap32_small z : 0 <= z < 2 ^ 32 → wrap32 z = z.
Proof. intros H. unfold wrap32. by apply Z.mod_small. Qed.

Lemma wrap64_small z : 0 <= z < 2 ^ 64 → wrap64 z = z.
Proof. intros H. unfold wrap64. by apply Z.mod_small. Qed.

Lemma UINT32_MAX_eq : UINT32_MAX = 2 ^ 32 - 1.
Proof. reflexivity. Qed.

Lemma weight_key_add read weight :
  is_uint32 read → is_uint32 weight → weight_key read weight = weight + read * 2 ^ 32.
Proof.
  intros Hr Hw. unfold is_uint32 in *. unfold weight_key.
  rewrite Z.shiftl_mul_pow2 by lia. rewrite wrap64_small by lia.
  assert (Z.land weight (read * 2 ^ 32) = 0) as Hland.
  { apply Z.bits_inj'. intros k Hk. rewrite Z.land_spec, Z.bits_0.
    destruct (Z.lt_ge_cases k 32).
    - rewrite Z.mul_pow2_bits_low by lia. apply andb_false_r.
    - rewrite (Z.bits_above_log2 weight k); [done|lia|].
      destruct (Z.eq_dec weight 0) as [->|]; [simpl; lia|].
      apply Z.log2_lt_pow2; [lia|]. 
      assert (2 ^ 32 <= 2 ^ k) by (apply Z.pow_le_mono_r; lia). lia. }
  rewrite <- Z.lxor_lor by done. symmetry. by apply Z.add_nocarry_lxor.
Qed.

Lemma weight_of_weight_key read weight :
  is_uint32 read → is_uint32 weight → weight_of_key (weight_key read weight) = weight.
Proof.
  intros Hr Hw. rewrite weight_key_add by done. unfold weight_of_key, is_uint32 in *.
  change 0xFFFFFFFF with (Z.ones 32). rewrite Z.land_ones by lia.
  rewrite Z.mod_add by lia. apply Z.mod_small. lia.
Qed.

Lemma hi_bits_weight_key read weight :
  is_uint32 read → is_uint32 weight → hi_bits (weight_key read weight) = read.
Proof.
  intros Hr Hw. rewrite weight_key_add by done. unfold hi_bits, is_uint32 in *.
  rewrite Z.shiftr_div_pow2 by lia. rewrite Z.div_add by lia.
  rewrite Z.div_small by lia. apply wrap32_small. lia.
Qed.

(** ** Coverage: counting covered coordinates *)

Section counting.
Context (P Q : Z → Prop) `{!∀ p, Decision (P p)} `{!∀ p, Decision (Q p)}.

Lemma length_filter_ext (l : list Z) :
  (∀ p, p ∈ l → (P p ↔ Q p)) → length (filter P l) = length (filter Q l).
Proof.
  induction l as [|p l IH]; intros Hext; [done|].
  rewrite !filter_cons.
  assert (P p ↔ Q p) as Hp by (apply Hext; left).
  assert (length (filter P l) = length (filter Q l)) as Hl
    by (apply IH; intros; apply Hext; by right).
  repeat case_decide; simpl; tauto || lia.
Qed.

Lemma length_filter_or (l : list Z) :
  length (filter (λ p, P p ∨ Q p) l)
  = (length (filter P l) + length (filter (λ p, Q p ∧ ¬ P p) l))%nat.
Proof.
  induction l as [|p l IH]; [done|].
  rewrite !filter_cons.
  repeat case_decide; simpl; tauto || lia.
Qed.

Lemma length_filter_none (l : list Z) :
  (∀ p, p ∈ l → ¬ P p) → length (filter P l) = 0%nat.
Proof.
  induction l as [|p l IH]; intros Hno; [done|].
  rewrite filter_cons. case_decide.
  - exfalso. by apply (Hno p); [left|].
  - apply IH. intros; apply Hno; by right.
Qed.

Lemma length_filter_all (l : list Z) :
  (∀ p, p ∈ l → P p) → length (filter P l) = length l.
Proof.
  induction l as [|p l IH]; intros Hall; [done|].
  rewrite filter_cons. case_decide as Hp.
  - simpl. f_equal. apply IH. intros; apply Hall; by right.
  - exfalso. apply Hp, Hall. left.
Qed.
End counting.

Lemma length_filter_interval (lo hi bound : Z) :
  0 <= lo → lo <= hi → hi <= bound →
  Z.of_nat (length (filter (λ p, lo <= p < hi) (seqZ 0 bound))) = hi - lo.
Proof.
  intros H0 H1 H2.
  replace bound with (lo + ((hi - lo) + (bound - hi))) by lia.
  rewrite !seqZ_app by lia. rewrite !filter_app, !length_app.
  rewrite (length_filter_none _ (seqZ 0 lo)).
  2:{ intros p Hp%elem_of_seqZ. lia. }
  rewrite (length_filter_all _ (seqZ (0 + lo) _)).
  2:{ intros p Hp%elem_of_seqZ. lia. }
  rewrite (length_filter_none _ (seqZ (0 + lo + (hi - lo)) _)).
  2:{ intros p Hp%elem_of_seqZ. lia. }
  rewrite length_seqZ. lia.
Qed.

Lemma max_end_cons s spans : max_end (s :: spans) = Z.max (y s) (max_end spans).
Proof. reflexivity. Qed.

Lemma max_end_nonneg spans : 0 <= max_end spans.
Proof. induction spans as [|s l IH]; [done|]. rewrite max_end_cons. lia. Qed.

Lemma max_end_app l1 l2 : max_end (l1 ++ l2) = Z.max (max_end l1) (max_end l2).
Proof.
  induction l1 as [|s l1 IH].
  - pose proof (max_end_nonneg l2). change (max_end l2 = Z.max 0 (max_end l2)). lia.
  - rewrite <- app_comm_cons, !max_end_cons, IH. lia.
Qed.

Lemma covered_lt_max_end spans p : covered spans p → p < max_end spans.
Proof.
  unfold covered. induction 1 as [s l H|s l H IH]; rewrite max_end_cons; lia.
Qed.

Lemma covered_snoc spans s p :
  covered (spans ++ [s]) p ↔ covered spans p ∨ x s <= p < y s.
Proof.
  unfold covered. rewrite Exists_app, Exists_cons, Exists_nil. tauto.
Qed.

Lemma max_end_bound spans : Forall valid_span spans → max_end spans < 2 ^ 32.
Proof.
  induction 1 as [|s l [? ?] ? IH]; [done|]. rewrite max_end_cons. lia.
Qed.

Lemma covered_below_le bound spans : 0 <= bound → covered_below bound spans <= bound.
Proof.
  intros H. unfold covered_below.
  pose proof (length_filter (covered spans) (seqZ 0 bound)) as Hl.
  rewrite length_seqZ in Hl. lia.
Qed.

(** the coordinates a new interval adds to the covered ones, as the loop
    counts them from the right end [max_end done] of what is covered *)
Lemma covered_below_snoc bound done s lo :
  Forall valid_span done → valid_span s →
  max_end done <= bound → y s <= bound →
  lo <= x s →
  (∀ p, lo <= p < max_end done → covered done p) →
  covered_below bound (done ++ [s])
  = covered_below bound done
    + (if Z.leb (max_end done) (x s) then y s - x s
       else if Z.ltb (max_end done) (y s) then y s - max_end done
       else 0).
Proof.
  intros Hd [Hs1 Hs2] Hb1 Hb2 Hlo Hcov. unfold covered_below.
  rewrite (length_filter_ext _ (λ p, covered done p ∨ x s <= p < y s)).
  2:{ intros p _. apply covered_snoc. }
  rewrite length_filter_or, Nat2Z.inj_add. f_equal.
  pose proof (max_end_nonneg done) as Hnn.
  destruct (Z.leb_spec (max_end done) (x s)) as [H1|H1];
    [|destruct (Z.ltb_spec (max_end done) (y s)) as [H2|H2]].
  - rewrite <- (length_filter_interval (x s) (y s) bound) by lia.
    f_equal. apply length_filter_ext. intros p _. split; [tauto|].
    intros Hp. split; [done|]. intros Hc%covered_lt_max_end. lia.
  - rewrite <- (length_filter_interval (max_end done) (y s) bound) by lia.
    f_equal. apply length_filter_ext. intros p _. split.
    + intros [Hp Hn]. split; [|lia].
      destruct (Z.le_gt_cases (max_end done) p); [done|].
      exfalso. apply Hn, Hcov. lia.
    + intros Hp. split; [lia|]. intros Hc%covered_lt_max_end. lia.
  - rewrite length_filter_none; [done|].
    intros p _ [Hp Hn]. apply Hn, Hcov. lia.
Qed.

(** the state of the loop after the seeds [done], continued over [rest] *)
Lemma coverage_fold_rest bound rest : ∀ done rx lo,
  Forall valid_span done → Forall valid_span rest →
  max_end (done ++ rest) <= bound < 2 ^ 32 →
  sorted_by_begin rest → Forall (λ s, lo <= x s) rest →
  (∀ p, lo <= p < max_end done → covered done p) →
  fold_left coverage_step rest
    (make_uint2 rx (max_end done), covered_below bound done)
  = (make_uint2 (fold_left (λ m s, Z.min m (x s)) rest rx) (max_end (done ++ rest)),
     covered_below bound (done ++ rest)).
Proof.
  induction rest as [|s rest IH]; intros done rx lo Hd Hr Hb Hs Hlo Hcov.
  - simpl. by rewrite app_nil_r.
  - apply Forall_cons in Hr as [Hvs Hr]. apply Forall_cons in Hlo as [Hlos Hlo].
    assert (sorted_by_begin rest ∧ Forall (λ t, x s <= x t) rest) as [Hs' Hxs].
    { assert (Transitive (λ s t : uint2, x s <= x t)) by (intros ???; lia).
      apply Sorted_StronglySorted in Hs; [|done].
      apply StronglySorted_inv in Hs as [? ?]. split; [|done].
      by apply StronglySorted_Sorted. }
    rewrite max_end_app, max_end_cons in Hb.
    pose proof (max_end_nonneg done). pose proof (max_end_nonneg rest).
    destruct Hvs as [Hv1 Hv2].
    replace (done ++ s :: rest) with ((done ++ [s]) ++ rest) by by rewrite <- app_assoc.
    assert (max_end (done ++ [s]) = Z.max (max_end done) (y s)) as Hme.
    { rewrite max_end_app, max_end_cons. change (max_end []) with 0. lia. }
    cbn [fold_left].
    rewrite <- (IH (done ++ [s]) (Z.min rx (x s)) (x s)); try done.
    + f_equal. unfold coverage_step. cbn [x y]. rewrite Hme. f_equal.
      rewrite (covered_below_snoc bound done s lo) by (done || lia).
      assert (covered_below bound (done ++ [s]) <= bound) as Hle
        by (apply covered_below_le; lia).
      rewrite (covered_below_snoc bound done s lo) in Hle by (done || lia).
      assert (0 <= covered_below bound done) by (unfold covered_below; lia).
      destruct (Z.leb_spec (max_end done) (x s)) as [Hc1|Hc1];
        [|destruct (Z.ltb_spec (max_end done) (y s)) as [Hc2|Hc2]].
      * rewrite (wrap32_small (y s - x s)) by lia. apply wrap32_small. lia.
      * rewrite (wrap32_small (y s - max_end done)) by lia. apply wrap32_small. lia.
      * lia.
    + apply Forall_app. split; [done|]. by apply Forall_singleton.
    + rewrite max_end_app, Hme. lia.
    + intros p Hp. rewrite Hme in Hp. apply covered_snoc.
      destruct (Z.lt_ge_cases p (y s)); [right; lia|].
      left. apply Hcov. lia.
Qed.

Lemma covered_below_nil bound : covered_below bound [] = 0.
Proof.
  unfold covered_below. rewrite length_filter_none; [done|].
  intros p _ Hc. unfold covered in Hc. by apply Exists_nil in Hc.
Qed.

Lemma fold_min_begin_le spans : ∀ rx,
  fold_left (λ m s, Z.min m (x s)) spans rx <= rx ∧
  Forall (λ s, fold_left (λ m s, Z.min m (x s)) spans rx <= x s) spans.
Proof.
  induction spans as [|s l IH]; intros rx; cbn [fold_left].
  - split; [lia|constructor].
  - destruct (IH (Z.min rx (x s))) as [IH1 IH2]. split; [lia|].
    constructor; [lia|done].
Qed.

Lemma fold_min_begin_attained spans : ∀ rx,
  fold_left (λ m s, Z.min m (x s)) spans rx = rx ∨
  Exists (λ s, fold_left (λ m s, Z.min m (x s)) spans rx = x s) spans.
Proof.
  induction spans as [|s l IH]; intros rx; cbn [fold_left]; [by left|].
  destruct (IH (Z.min rx (x s))) as [IH1|IH1].
  - rewrite IH1. destruct (Z.min_spec rx (x s)) as [[_ ->]|[_ ->]]; [by left|].
    right. by left.
  - right. by right.
Qed.

Lemma max_end_attained spans :
  spans ≠ [] → Forall valid_span spans → Exists (λ s, max_end spans = y s) spans.
Proof.
  induction spans as [|s l IH]; intros Hne Hv; [done|].
  apply Forall_cons in Hv as [[Hs _] Hv]. rewrite max_end_cons.
  destruct l as [|t l].
  - left. change (max_end []) with 0. lia.
  - destruct (Z.max_spec (y s) (max_end (t :: l))) as [[_ ->]|[_ ->]].
    + right. by apply IH.
    + by left.
Qed.

Lemma max_end_upper spans : Forall (λ s, y s <= max_end spans) spans.
Proof.
  induction spans as [|s l IH]; [constructor|].
  rewrite max_end_cons. constructor; [lia|].
  eapply Forall_impl; [exact IH|]. intros t Ht. simpl in Ht. lia.
Qed.

(** the loop of the kernel is a left fold of [coverage_step] over the spans of
    the seeds it fetches *)
Lemma coverage_loop_fold mems mems_index count : ∀ i st,
  coverage_loop mems mems_index i count st
  = spans ← chain_spans mems mems_index i count;
    Some (fold_left coverage_step spans st).
Proof.
  unfold chain_spans.
  induction count as [|count IH]; intros i st; [done|].
  cbn [coverage_loop seq mapM].
  destruct (mems_index !! i) as [k|]; [|done]. cbn [mbind option_bind].
  destruct (load mems k) as [seed|]; [|done]. cbn [mbind option_bind].
  rewrite IH.
  destruct (mapM _ (seq (S i) count)) as [spans|]; done.
Qed.

(** the result of the coverage loop on sorted spans *)
Lemma coverage_fold_sorted spans :
  Forall valid_span spans → sorted_by_begin spans →
  fold_left coverage_step spans (make_uint2 UINT32_MAX 0, 0)
  = (make_uint2 (fold_left (λ m s, Z.min m (x s)) spans UINT32_MAX) (max_end spans),
     union_length spans).
Proof.
  intros Hv Hs.
  pose proof (coverage_fold_rest (max_end spans) spans [] UINT32_MAX 0) as H.
  rewrite covered_below_nil in H. apply H; clear H; try done.
  - simpl. pose proof (max_end_bound spans Hv). lia.
  - eapply Forall_impl; [exact Hv|]. intros s [? ?]. lia.
  - intros p. change (max_end []) with 0. lia.
Qed.

(** C1. For a chain whose seed spans are sorted by ascending begin
    coordinate, the thread of [chain_coverage_kernel] writes a key whose
    weight is the length of the union of the spans (a coordinate covered by
    several spans, or by none, is counted once, or not at all: spans that
    overlap, are nested, or touch at [b_i = a_(i+1)] are all covered), and a
    range that is the union span: its begin is the least begin coordinate and
    its end the greatest end coordinate of the spans. *)
Theorem coverage_weight_is_union_length
    (n_chains : nat) (chain_reads chain_offsets chain_lengths : list Z)
    (mems : list mem_type) (mems_index : list Z)
    (out : list uint2 * list Z) (chain_id : nat)
    (read begin len : Z) (spans : list uint2) :
  (chain_id < n_chains)%nat →
  (chain_id < length out.1)%nat → (chain_id < length out.2)%nat →
  chain_reads !! chain_id = Some read →
  chain_offsets !! chain_id = Some begin →
  chain_lengths !! chain_id = Some len →
  0 <= begin → 0 < len → begin + len < 2 ^ 32 →
  chain_spans mems mems_index (Z.to_nat begin) (Z.to_nat len) = Some spans →
  Forall valid_span spans →
  sorted_by_begin spans →
  ∃ range : uint2,
    chain_coverage_kernel n_chains chain_reads chain_offsets chain_lengths
      mems mems_index out chain_id
    = Some (<[chain_id := range]> out.1,
            <[chain_id := weight_key read (union_length spans)]> out.2)
    ∧ (is_uint32 read →
       weight_of_key (weight_key read (union_length spans)) = union_length spans)
    ∧ Forall (λ s, x range <= x s ∧ y s <= y range) spans
    ∧ Exists (λ s, x range = x s) spans
    ∧ Exists (λ s, y range = y s) spans.
Proof.
  intros Hid Ho1 Ho2 Hr Hb Hl Hb0 Hl0 Hbl Hsp Hv Hs.
  assert (spans ≠ []) as Hne.
  { intros ->. unfold chain_spans in Hsp.
    apply (f_equal (fmap length)) in Hsp. 
    destruct (Z.to_nat len) as [|k] eqn:E; [lia|].
    cbn [seq mapM] in Hsp.
    repeat (match type of Hsp with context [mbind _ ?o] =>
      destruct o; cbn [mbind option_bind mret option_ret fmap option_fmap option_map] in Hsp end; try done). }
  exists (make_uint2 (fold_left (λ m s, Z.min m (x s)) spans UINT32_MAX) (max_end spans)).
  split; [|split; [|split; [|split]]].
  - unfold chain_coverage_kernel. rewrite decide_False by lia.
    rewrite Hr, Hb, Hl. cbn [mbind option_bind].
    rewrite wrap32_small by lia.
    replace (Z.to_nat (len + begin) - Z.to_nat begin)%nat with (Z.to_nat len) by lia.
    rewrite coverage_loop_fold, Hsp. cbn [mbind option_bind].
    rewrite coverage_fold_sorted by done. cbn [fst snd].
    unfold store. rewrite !decide_True by done. done.
  - intros Hread. apply weight_of_weight_key; [done|].
    pose proof (max_end_bound spans Hv). pose proof (max_end_nonneg spans).
    pose proof (covered_below_le (max_end spans) spans).
    unfold is_uint32, union_length, covered_below in *. lia.
  - cbn [x y]. pose proof (fold_min_begin_le spans UINT32_MAX) as [_ H1].
    pose proof (max_end_upper spans) as H2.
    rewrite Forall_forall in H1, H2. apply Forall_forall. intros s Hin. split; auto.
  - cbn [x]. destruct (fold_min_begin_attained spans UINT32_MAX) as [H|H]; [|done].
    rewrite H. destruct spans as [|s l]; [done|]. left.
    apply Forall_cons in Hv as [[? ?] _].
    pose proof (fold_min_begin_le (s :: l) UINT32_MAX) as [_ Hle].
    apply Forall_cons in Hle as [Hle _]. rewrite H in Hle.
    rewrite UINT32_MAX_eq in *. lia.
  - cbn [y]. by apply max_end_attained.
Qed.

(** ** Single-precision arithmetic *)

Lemma iter_pos_nat {A} (f : A → A) (p : positive) (a : A) :
  SpecFloat.iter_pos f p a = Nat.iter (Pos.to_nat p) f a.
Proof.
  revert a. induction p as [p IH|p IH|]; intros a; cbn [SpecFloat.iter_pos].
  - rewrite !IH, Pos2Nat.inj_xI.
    replace (S (2 * Pos.to_nat p)) with (Pos.to_nat p + (Pos.to_nat p + 1))%nat by lia.
    by rewrite !Nat.iter_add.
  - rewrite !IH, Pos2Nat.inj_xO.
    replace (2 * Pos.to_nat p)%nat with (Pos.to_nat p + Pos.to_nat p)%nat by lia.
    by rewrite Nat.iter_add.
  - done.
Qed.

Lemma shr_1_nonneg m r s :
  0 <= m → shr_1 (Build_shr_record m r s) = Build_shr_record (Z.div2 m) (Z.odd m) (r || s).
Proof. intros Hm. destruct m as [|[p|p|]|p]; try done; lia. Qed.

Lemma shr_iter m (k : nat) :
  0 <= m →
  Nat.iter (S k) shr_1 (Build_shr_record m false false)
  = Build_shr_record (m / 2 ^ (Z.of_nat k + 1)) (Z.testbit m (Z.of_nat k))
      (negb (m mod 2 ^ Z.of_nat k =? 0)).
Proof.
  intros Hm. induction k as [|k IH].
  - cbn [Nat.iter]. rewrite shr_1_nonneg by done. cbn [orb Z.of_nat Z.add].
    rewrite Z.div2_div, Z.bit0_odd, Z.pow_0_r, Z.mod_1_r. done.
  - rewrite Nat.iter_succ, IH.
    assert (0 < 2 ^ Z.of_nat k) by (apply Z.pow_pos_nonneg; lia).
    assert (0 < 2 ^ (Z.of_nat k + 1)) by (apply Z.pow_pos_nonneg; lia).
    rewrite shr_1_nonneg by (apply Z.div_pos; lia).
    f_equal.
    + rewrite Z.div2_div, Z.div_div by lia. f_equal.
      replace (Z.of_nat (S k) + 1) with (Z.of_nat k + 1 + 1) by lia.
      rewrite (Z.pow_add_r 2 (Z.of_nat k + 1) 1) by lia. done.
    + rewrite Z.testbit_odd, Z.shiftr_div_pow2 by lia. do 3 f_equal. lia.
    + replace (Z.of_nat (S k)) with (Z.of_nat k + 1) by lia.
      rewrite (Z.pow_add_r 2 (Z.of_nat k) 1), Z.pow_1_r by lia.
      rewrite Z.rem_mul_r by lia.
      rewrite Z.testbit_odd, Z.shiftr_div_pow2 by lia.
      rewrite (Zmod_odd (m / 2 ^ Z.of_nat k)).
      pose proof (Z.mod_pos_bound m (2 ^ Z.of_nat k)) as Hlow.
      set (low := m mod 2 ^ Z.of_nat k) in *.
      set (b := Z.odd (m / 2 ^ Z.of_nat k)).
      destruct b; cbn [orb].
      * symmetry. apply negb_true_iff, Z.eqb_neq. lia.
      * by rewrite Z.mul_0_r, Z.add_0_r.
Qed.

Lemma shr_round m e n :
  0 <= m → 0 < n →
  ∃ mrs, shr (shr_record_of_loc m loc_Exact) e n = (mrs, e + n) ∧
         round_nearest_even (shr_m mrs) (loc_of_shr_record mrs) = round_shift m n.
Proof.
  intros Hm Hn. destruct n as [|p|p]; try lia. cbn [shr shr_record_of_loc].
  eexists. split; [done|]. rewrite iter_pos_nat.
  destruct (Pos2Nat.is_succ p) as [k Hk]. rewrite Hk, shr_iter by done.
  assert (Z.pos p = Z.of_nat k + 1) as -> by lia.
  cbn [shr_m loc_of_shr_record]. unfold round_shift.
  replace (Z.of_nat k + 1 - 1) with (Z.of_nat k) by lia.
  assert (0 < 2 ^ Z.of_nat k) by (apply Z.pow_pos_nonneg; lia).
  rewrite (Z.pow_add_r 2 (Z.of_nat k) 1), Z.pow_1_r by lia.
  rewrite (Z.rem_mul_r m) by lia.
  rewrite Z.testbit_odd, Z.shiftr_div_pow2 by lia.
  rewrite (Zmod_odd (m / 2 ^ Z.of_nat k)).
  pose proof (Z.mod_pos_bound m (2 ^ Z.of_nat k)) as Hlow.
  set (low := m mod 2 ^ Z.of_nat k) in *.
  destruct (Z.odd (m / 2 ^ Z.of_nat k)).
  - destruct (Z.eqb_spec low 0) as [Hl|Hl]; cbn [negb round_nearest_even].
    + rewrite (proj2 (Z.ltb_ge _ _)) by lia. by rewrite (proj2 (Z.eqb_eq _ _)) by lia.
    + rewrite (proj2 (Z.ltb_ge _ _)) by lia. by rewrite (proj2 (Z.eqb_neq _ _)) by lia.
  - rewrite (proj2 (Z.ltb_lt _ _)) by lia.
    by destruct (low =? 0).
Qed.

Lemma digits2_pos_digits (p : positive) : Z.pos (digits2_pos p) = digits (Z.pos p).
Proof.
  unfold digits.
  assert (digits2_pos p = Pos.size p) as ->.
  { induction p as [p IH|p IH|]; cbn; by rewrite ?IH. }
  destruct p; cbn; lia.
Qed.

Lemma digits_bounds m : 0 < m → 2 ^ (digits m - 1) <= m < 2 ^ digits m.
Proof.
  intros Hm. unfold digits. pose proof (Z.log2_spec m Hm).
  by replace (Z.log2 m + 1 - 1) with (Z.log2 m) by lia.
Qed.

Lemma digits_pos m : 0 < m → 0 < digits m.
Proof. intros. unfold digits. pose proof (Z.log2_nonneg m). lia. Qed.

Lemma digits_le m k : 0 < m → m < 2 ^ k → digits m <= k.
Proof.
  intros Hm Hk. unfold digits.
  destruct (Z.le_gt_cases 0 k) as [Hk0|Hk0].
  - apply Z.log2_lt_pow2 in Hk; lia.
  - rewrite Z.pow_neg_r in Hk; lia.
Qed.

Lemma digits_ge m k : 0 <= k → 2 ^ k <= m → k + 1 <= digits m.
Proof.
  intros Hk Hm. unfold digits.
  assert (0 < 2 ^ k) by (apply Z.pow_pos_nonneg; lia).
  apply Z.log2_le_pow2 in Hm; lia.
Qed.

Lemma pow2_le a b : a <= b → 0 <= a → 2 ^ a <= 2 ^ b.
Proof. intros. apply Z.pow_le_mono_r; lia. Qed.

Lemma pow2_pos a : 0 <= a → 0 < 2 ^ a.
Proof. intros. apply Z.pow_pos_nonneg; lia. Qed.

Lemma pow2_split a b : 0 <= a → 0 <= b → 2 ^ (a + b) = 2 ^ a * 2 ^ b.
Proof. intros. by apply Z.pow_add_r. Qed.

Lemma bounded_canonical (m : positive) (e : Z) :
  bounded 24 128 m e = true ↔ canonical (Z.pos m) e.
Proof.
  unfold bounded, canonical_mantissa, fexp, emin, canonical.
  rewrite digits2_pos_digits, andb_true_iff, Z.eqb_eq, Z.leb_le.
  pose proof (digits_bounds (Z.pos m) eq_refl) as Hd.
  pose proof (digits_pos (Z.pos m) eq_refl) as Hd0.
  set (d := digits (Z.pos m)) in *.
  change (3 - 128 - 24) with (-149). change (128 - 24) with 104.
  split.
  - intros [Hc He]. split_and!; try lia.
    + destruct (Z.le_gt_cases d 24) as [Hle|Hgt]; [|lia].
      pose proof (pow2_le d 24 Hle). lia.
    + intros He'. assert (d = 24) as Hd24 by lia. rewrite Hd24 in Hd. change (24 - 1) with 23 in Hd. lia.
  - intros (He & Hm & Hn). split; [|lia].
    pose proof (digits_le (Z.pos m) 24 eq_refl (proj2 Hm)). fold d in H.
    destruct (decide (e = -149)) as [->|Hne]; [lia|].
    pose proof (digits_ge (Z.pos m) 23) as Hge. fold d in Hge. lia.
Qed.

Lemma round_shift_bounds m n :
  0 <= m → 0 < n → m / 2 ^ n <= round_shift m n <= m / 2 ^ n + 1.
Proof. intros Hm Hn. unfold round_shift. repeat case_match; lia. Qed.

Lemma round_shift_upper m n k :
  0 <= m → 0 < n → m <= k * 2 ^ n → round_shift m n <= k.
Proof.
  intros Hm Hn Hk. pose proof (pow2_pos n ltac:(lia)) as Hp.
  pose proof (pow2_pos (n - 1) ltac:(lia)) as Hh.
  pose proof (Z.div_mod m (2 ^ n) ltac:(lia)) as Hdm.
  pose proof (Z.mod_pos_bound m (2 ^ n) Hp) as Hr.
  unfold round_shift.
  destruct (Z.ltb_spec (m mod 2 ^ n) (2 ^ (n - 1))) as [Hlt|Hge].
  - apply Z.div_le_upper_bound; lia.
  - assert (m / 2 ^ n < k) by nia.
    repeat case_match; lia.
Qed.

Lemma round_shift_lower m n k :
  0 <= m → 0 < n → k * 2 ^ n <= m → k <= round_shift m n.
Proof.
  intros Hm Hn Hk. pose proof (pow2_pos n ltac:(lia)) as Hp.
  pose proof (round_shift_bounds m n Hm Hn).
  assert (k <= m / 2 ^ n) by (apply Z.div_le_lower_bound; lia). lia.
Qed.

Lemma binary_round_aux_round (s : bool) (m : positive) (e : Z) :
  e <= float_exp (digits (Z.pos m) + e) →
  binary_round_aux 24 128 s (Z.pos m) e loc_Exact = round_float s (Z.pos m) e.
Proof.
  intros He. unfold binary_round_aux, round_float, shr_fexp.
  change (fexp 24 128) with float_exp. cbn [Zdigits2]. rewrite digits2_pos_digits.
  pose proof (digits_bounds (Z.pos m) eq_refl) as Hd.
  pose proof (digits_pos (Z.pos m) eq_refl) as Hd0.
  set (d := digits (Z.pos m)) in *.
  remember (float_exp (d + e)) as e' eqn:Ee'.
  assert (-149 <= e' ∧ d + e - 24 <= e') as [He1 He2] by (unfold float_exp in Ee'; lia).
  clear Ee'.
  (* the first shift *)
  assert (∃ mrs, shr (shr_record_of_loc (Z.pos m) loc_Exact) e (e' - e) = (mrs, e') ∧
                 round_nearest_even (shr_m mrs) (loc_of_shr_record mrs)
                 = (if e' =? e then Z.pos m else round_shift (Z.pos m) (e' - e)) ∧
                 0 <= round_nearest_even (shr_m mrs) (loc_of_shr_record mrs) <= 2 ^ 24)
    as (mrs & -> & -> & Hm1).
  { destruct (Z.eqb_spec e' e) as [Heq|Hne].
    - subst e'. rewrite Z.sub_diag.
      exists (Build_shr_record (Z.pos m) false false).
      cbn [shr shr_record_of_loc shr_m loc_of_shr_record round_nearest_even].
      split_and!; [done|done|lia|].
      assert (d <= 24) as Hd24 by lia.
      pose proof (pow2_le d 24 Hd24). lia.
    - destruct (shr_round (Z.pos m) e (e' - e)) as (mrs & Hs & Hr); [lia..|].
      exists mrs. replace (e + (e' - e)) with e' in Hs by lia.
      split_and!; [done|done|..]; rewrite Hr.
      + pose proof (round_shift_bounds (Z.pos m) (e' - e)).
        pose proof (Z.div_pos (Z.pos m) (2 ^ (e' - e)) ltac:(lia) (pow2_pos (e' - e) ltac:(lia))).
        lia.
      + apply round_shift_upper; [lia..|].
        rewrite <- pow2_split by lia.
        pose proof (pow2_le d (24 + (e' - e)) ltac:(lia)). lia. }
  set (m1 := if e' =? e then Z.pos m else round_shift (Z.pos m) (e' - e)) in *.
  (* the second shift *)
  destruct (Z.eqb_spec m1 0) as [H0|H0].
  { rewrite H0. cbn [Zdigits2]. unfold shr, float_exp.
    destruct (Z.max (0 + e' - 24) (-149) - e') eqn:E; try lia; by cbn. }
  destruct (Z.eqb_spec m1 (2 ^ 24)) as [H24|H24].
  { rewrite H24. change (Zdigits2 (2 ^ 24)) with 25.
    assert (float_exp (25 + e') - e' = 1) as -> by (unfold float_exp; lia).
    cbn [shr shr_record_of_loc shr_m fst snd SpecFloat.iter_pos].
    change (shr_1 _) with (Build_shr_record (2 ^ 23) false false). cbn [shr_m].
    change (2 ^ 23) with (Z.pos (2 ^ 23)). cbn match. change (128 - 24) with 104. done. }
  assert (0 < m1 < 2 ^ 24) as Hm1' by lia.
  destruct m1 as [|p1|p1] eqn:Em1; try lia.
  cbn [Zdigits2]. rewrite digits2_pos_digits.
  pose proof (digits_le (Z.pos p1) 24 eq_refl (proj2 Hm1')) as Hd1.
  unfold shr.
  destruct (float_exp (digits (Z.pos p1) + e') - e') eqn:E;
    [|unfold float_exp in E; lia|]; by cbn.
Qed.

Lemma round_shift_mono m m' n :
  0 <= m → 0 < n → m <= m' → round_shift m n <= round_shift m' n.
Proof.
  intros Hm Hn Hle. pose proof (pow2_pos n ltac:(lia)) as Hp.
  pose proof (Z.div_le_mono m m' (2 ^ n) Hp Hle) as Hq.
  pose proof (round_shift_bounds m n Hm Hn).
  pose proof (round_shift_bounds m' n ltac:(lia) Hn).
  destruct (decide (m / 2 ^ n = m' / 2 ^ n)) as [Heq|Hne]; [|lia].
  pose proof (Z.div_mod m (2 ^ n) ltac:(lia)).
  pose proof (Z.div_mod m' (2 ^ n) ltac:(lia)).
  assert (m mod 2 ^ n <= m' mod 2 ^ n) by nia.
  unfold round_shift. rewrite Heq. repeat case_match; lia.
Qed.

(** the mantissa and the exponent that [round_float] computes *)
Lemma round_float_cases (s : bool) (m e : Z) :
  0 < m → e <= float_exp (digits m + e) →
  let e' := float_exp (digits m + e) in
  let m1 := if e' =? e then m else round_shift m (e' - e) in
  0 <= m1 <= 2 ^ 24 ∧ (-149 < e' → 2 ^ 23 <= m1) ∧
  ((round_float s m e = S754_infinity s ∧ 2 ^ 277 <= m1 * 2 ^ (e' + 149)) ∨
   (m1 = 0 ∧ round_float s m e = S754_zero s) ∨
   ∃ (p : positive) (k : Z),
     round_float s m e = S754_finite s p k ∧ canonical (Z.pos p) k ∧
     Z.pos p * 2 ^ (k + 149) = m1 * 2 ^ (e' + 149)).
Proof.
  intros Hm He e' m1.
  pose proof (digits_bounds m Hm) as Hd. pose proof (digits_pos m Hm) as Hd0.
  assert (-149 <= e' ∧ digits m + e - 24 <= e') as [He1 He2]
    by (unfold e', float_exp; lia).
  assert (0 <= m1 <= 2 ^ 24) as Hm1.
  { subst m1. destruct (Z.eqb_spec e' e) as [Heq|Hne].
    - pose proof (pow2_le (digits m) 24 ltac:(lia)). lia.
    - pose proof (round_shift_bounds m (e' - e)).
      pose proof (Z.div_pos m (2 ^ (e' - e)) ltac:(lia) (pow2_pos (e' - e) ltac:(lia))).
      split; [lia|]. apply round_shift_upper; [lia..|].
      rewrite <- pow2_split by lia.
      pose proof (pow2_le (digits m) (24 + (e' - e)) ltac:(lia)). lia. }
  assert (-149 < e' → 2 ^ 23 <= m1) as Hnorm.
  { intros Hn. assert (e' = digits m + e - 24) as He' by (unfold e', float_exp in *; lia).
    subst m1. destruct (Z.eqb_spec e' e) as [Heq|Hne].
    - assert (digits m = 24) as Hd24 by lia. rewrite Hd24 in Hd.
      change (24 - 1) with 23 in Hd. lia.
    - apply round_shift_lower; [lia..|].
      rewrite <- pow2_split by lia.
      replace (23 + (e' - e)) with (digits m - 1) by lia. lia. }
  split_and!; [lia|lia|done|].
  unfold round_float. fold e' m1.
  destruct (Z.eqb_spec m1 0) as [H0|H0]; [by right; left|].
  destruct (Z.eqb_spec m1 (2 ^ 24)) as [H24|H24].
  - destruct (Z.leb_spec (e' + 1) 104).
    2:{ left. split; [done|]. rewrite H24, <- pow2_split by lia.
        apply pow2_le; lia. }
    right. right. exists (2 ^ 23)%positive, (e' + 1). split_and!; [done| |].
    + unfold canonical. change (Z.pos (2 ^ 23)) with (2 ^ 23). lia.
    + rewrite H24. replace (e' + 1 + 149) with (1 + (e' + 149)) by lia.
      rewrite pow2_split by lia. change (Z.pos (2 ^ 23)) with (2 ^ 23). lia.
  - destruct (Z.leb_spec e' 104).
    2:{ left. split; [done|].
        pose proof (pow2_le 254 (e' + 149) ltac:(lia) ltac:(lia)).
        pose proof (Hnorm ltac:(lia)).
        change (2 ^ 277) with (2 ^ 23 * 2 ^ 254). nia. }
    right. right. exists (Z.to_pos m1), e'. rewrite Z2Pos.id by lia.
    split_and!; [done| |done]. unfold canonical. lia.
Qed.

Lemma round_mantissa_upper m e mf ef :
  0 < m → -298 <= e → e <= float_exp (digits m + e) → canonical mf ef →
  m * 2 ^ (e + 298) <= mf * 2 ^ (ef + 298) →
  let e' := float_exp (digits m + e) in
  let m1 := if e' =? e then m else round_shift m (e' - e) in
  m1 * 2 ^ (e' + 149) <= mf * 2 ^ (ef + 149).
Proof.
  intros Hm He0 He (Hef & Hmf & Hnf) Hle e' m1.
  pose proof (digits_bounds m Hm) as Hd. pose proof (digits_pos m Hm) as Hd0.
  assert (-149 <= e' ∧ digits m + e - 24 <= e') as [He1 He2]
    by (unfold e', float_exp; lia).
  pose proof (pow2_pos (e + 298) ltac:(lia)) as Hpa.
  assert (e' <= ef) as Hgrid.
  { destruct (Z.le_gt_cases e' ef) as [|Hlt]; [done|exfalso].
    assert (e' = digits m + e - 24) as He' by (unfold e', float_exp in *; lia).
    pose proof (pow2_le (24 + (ef + 298)) (digits m - 1 + (e + 298)) ltac:(lia) ltac:(lia))
      as Hp.
    rewrite (pow2_split 24), (pow2_split (digits m - 1)) in Hp by lia.
    pose proof (pow2_pos (ef + 298) ltac:(lia)).
    assert (mf * 2 ^ (ef + 298) < 2 ^ 24 * 2 ^ (ef + 298))
      by (apply Z.mul_lt_mono_pos_r; lia).
    assert (2 ^ (digits m - 1) * 2 ^ (e + 298) <= m * 2 ^ (e + 298))
      by (apply Z.mul_le_mono_nonneg_r; lia).
    lia. }
  set (K := mf * 2 ^ (ef - e')).
  assert (m1 <= K) as HK.
  { assert (m * 2 ^ (e + 298) <= K * 2 ^ (e' - e) * 2 ^ (e + 298)) as Hle'.
    { unfold K. rewrite <- !Z.mul_assoc, <- !pow2_split by lia.
      by replace (ef - e' + (e' - e + (e + 298))) with (ef + 298) by lia. }
    assert (m <= K * 2 ^ (e' - e)) as Hm' by nia.
    subst m1. destruct (Z.eqb_spec e' e) as [Heq|Hne].
    - rewrite Heq, Z.sub_diag in Hm'. lia.
    - apply round_shift_upper; [lia..|done]. }
  replace (ef + 149) with (ef - e' + (e' + 149)) by lia.
  rewrite (pow2_split (ef - e')), Z.mul_assoc by lia. fold K.
  pose proof (pow2_pos (e' + 149) ltac:(lia)). nia.
Qed.

Lemma round_mantissa_lower m e mf ef :
  0 < m → -298 <= e → e <= float_exp (digits m + e) → canonical mf ef →
  mf * 2 ^ (ef + 298) <= m * 2 ^ (e + 298) →
  let e' := float_exp (digits m + e) in
  let m1 := if e' =? e then m else round_shift m (e' - e) in
  (-149 < e' → 2 ^ 23 <= m1) →
  mf * 2 ^ (ef + 149) <= m1 * 2 ^ (e' + 149).
Proof.
  intros Hm He0 He (Hef & Hmf & Hnf) Hle e' m1 Hnorm.
  assert (-149 <= e') as He1 by (unfold e', float_exp; lia).
  pose proof (pow2_pos (e + 298) ltac:(lia)) as Hpa.
  destruct (Z.le_gt_cases e' ef) as [Hgrid|Hlt].
  - set (K := mf * 2 ^ (ef - e')).
    assert (K <= m1) as HK.
    { assert (K * 2 ^ (e' - e) * 2 ^ (e + 298) <= m * 2 ^ (e + 298)) as Hle'.
      { unfold K. rewrite <- !Z.mul_assoc, <- !pow2_split by lia.
        by replace (ef - e' + (e' - e + (e + 298))) with (ef + 298) by lia. }
      assert (K * 2 ^ (e' - e) <= m) as Hm' by nia.
      subst m1. destruct (Z.eqb_spec e' e) as [Heq|Hne].
      - rewrite Heq, Z.sub_diag in Hm'. lia.
      - apply round_shift_lower; [lia..|done]. }
    replace (ef + 149) with (ef - e' + (e' + 149)) by lia.
    rewrite (pow2_split (ef - e')), Z.mul_assoc by lia. fold K.
    pose proof (pow2_pos (e' + 149) ltac:(lia)). nia.
  - pose proof (Hnorm ltac:(lia)) as Hm1.
    pose proof (pow2_le (24 + (ef + 149)) (23 + (e' + 149)) ltac:(lia) ltac:(lia)) as Hp.
    rewrite (pow2_split 24), (pow2_split 23) in Hp by lia.
    pose proof (pow2_pos (ef + 149) ltac:(lia)).
    pose proof (pow2_pos (e' + 149) ltac:(lia)).
    assert (mf * 2 ^ (ef + 149) < 2 ^ 24 * 2 ^ (ef + 149))
      by (apply Z.mul_lt_mono_pos_r; lia).
    assert (2 ^ 23 * 2 ^ (e' + 149) <= m1 * 2 ^ (e' + 149))
      by (apply Z.mul_le_mono_nonneg_r; lia).
    lia.
Qed.

(** a value of the format that bounds [m * 2 ^ e] from above bounds its
    rounding *)
Lemma round_float_upper m e (f : float) :
  0 < m → -298 <= e → e <= float_exp (digits m + e) →
  is_float f → float_nonneg f = true →
  m * 2 ^ (e + 298) <= float_units f * 2 ^ 149 →
  is_float (round_float false m e) ∧ float_nonneg (round_float false m e) = true ∧
  float_units (round_float false m e) <= float_units f.
Proof.
  intros Hm He0 He Hf Hn Hle.
  pose proof (pow2_pos (e + 298) ltac:(lia)) as Hpa.
  destruct f as [sf|si| |[|] mf ef]; try done; cbn [float_units cond_Zopp] in Hle; [lia|].
  apply bounded_canonical in Hf.
  assert (Z.pos mf * 2 ^ (ef + 149) * 2 ^ 149 = Z.pos mf * 2 ^ (ef + 298)) as Hu.
  { destruct Hf as (? & _). rewrite <- Z.mul_assoc, <- pow2_split by lia.
    do 2 f_equal. lia. }
  rewrite Hu in Hle.
  pose proof (round_mantissa_upper m e (Z.pos mf) ef Hm He0 He Hf Hle) as Hup.
  destruct (round_float_cases false m e Hm He) as (Hm1 & Hnorm & Hcases).
  cbn zeta in Hup, Hcases. cbn [float_units cond_Zopp].
  destruct Hcases as [[_ Hinf]|[[_ ->]|(p & k & -> & Hc & Hpk)]].
  - exfalso. destruct Hf as (Hef & Hmf & _).
    pose proof (pow2_le (ef + 149) 253 ltac:(lia) ltac:(lia)).
    pose proof (pow2_pos (ef + 149) ltac:(lia)).
    change (2 ^ 277) with (2 ^ 24 * 2 ^ 253) in Hinf. nia.
  - split_and!; [done|done|]. cbn.
    destruct Hf as (Hef & Hmf & _). pose proof (pow2_pos (ef + 149) ltac:(lia)). nia.
  - split_and!; [by apply bounded_canonical|done|]. cbn [float_units cond_Zopp]. lia.
Qed.

(** a value of the format that bounds [m * 2 ^ e] from below bounds its
    rounding *)
Lemma round_float_lower m e (f : float) :
  0 < m → -298 <= e → e <= float_exp (digits m + e) →
  is_float f → float_nonneg f = true →
  float_units f * 2 ^ 149 <= m * 2 ^ (e + 298) →
  round_float false m e = S754_infinity false ∨
  (is_float (round_float false m e) ∧ float_nonneg (round_float false m e) = true ∧
   float_units f <= float_units (round_float false m e)).
Proof.
  intros Hm He0 He Hf Hn Hle.
  destruct (round_float_cases false m e Hm He) as (Hm1 & Hnorm & Hcases).
  cbn zeta in Hcases, Hnorm.
  assert (-149 <= float_exp (digits m + e)) as He1 by (unfold float_exp; lia).
  pose proof (pow2_pos (float_exp (digits m + e) + 149) ltac:(lia)) as Hpe.
  destruct f as [sf|si| |[|] mf ef]; try done.
  - destruct Hcases as [[-> _]|[[_ ->]|(p & k & -> & Hc & Hpk)]]; [by left|right..].
    + done.
    + split_and!; [by apply bounded_canonical|done|]. cbn [float_units cond_Zopp]. nia.
  - apply bounded_canonical in Hf. cbn [float_units cond_Zopp] in Hle.
    assert (Z.pos mf * 2 ^ (ef + 149) * 2 ^ 149 = Z.pos mf * 2 ^ (ef + 298)) as Hu.
    { destruct Hf as (? & _). rewrite <- Z.mul_assoc, <- pow2_split by lia.
      do 2 f_equal. lia. }
    rewrite Hu in Hle.
    pose proof (round_mantissa_lower m e (Z.pos mf) ef Hm He0 He Hf Hle Hnorm) as Hlo.
    cbn zeta in Hlo.
    destruct Hcases as [[-> _]|[[H0 _]|(p & k & -> & Hc & Hpk)]]; [by left|exfalso|right].
    + rewrite H0 in Hlo. destruct Hf as (Hef & Hmf & _).
      pose proof (pow2_pos (ef + 149) ltac:(lia)). nia.
    + split_and!; [by apply bounded_canonical|done|]. cbn [float_units cond_Zopp]. lia.
Qed.

(** on finite values that are not negative [SFcompare] compares the values *)
Lemma float_compare (v w : float) :
  is_float v → is_float w → float_nonneg v = true → float_nonneg w = true →
  SFcompare v w = Some (float_units v ?= float_units w).
Proof.
  intros Hv Hw Hnv Hnw.
  destruct v as [sv|sv| |[|] mv ev], w as [sw|sw| |[|] mw ew]; try done;
    cbn [SFcompare float_units cond_Zopp].
  - apply bounded_canonical in Hw as (? & ? & _).
    pose proof (pow2_pos (ew + 149) ltac:(lia)).
    f_equal. symmetry. apply Z.compare_lt_iff. nia.
  - apply bounded_canonical in Hv as (? & ? & _).
    pose proof (pow2_pos (ev + 149) ltac:(lia)).
    f_equal. symmetry. apply Z.compare_gt_iff. nia.
  - apply bounded_canonical in Hv as (Hev & Hmv & Hnv').
    apply bounded_canonical in Hw as (Hew & Hmw & Hnw').
    pose proof (pow2_pos (ev + 149) ltac:(lia)).
    pose proof (pow2_pos (ew + 149) ltac:(lia)).
    f_equal. destruct (Z.compare_spec ev ew) as [->|Hlt|Hlt].
    + rewrite Pos.compare_cont_spec. cbn [Pos.switch_Eq].
      rewrite Pos2Z.inj_compare.
      destruct (Z.compare_spec (Z.pos mv) (Z.pos mw)); symmetry;
        [apply Z.compare_eq_iff|apply Z.compare_lt_iff|apply Z.compare_gt_iff]; nia.
    + symmetry. apply Z.compare_lt_iff.
      pose proof (pow2_le (24 + (ev + 149)) (23 + (ew + 149)) ltac:(lia) ltac:(lia)) as Hp.
      rewrite (pow2_split 24), (pow2_split 23) in Hp by lia.
      assert (Z.pos mv * 2 ^ (ev + 149) < 2 ^ 24 * 2 ^ (ev + 149))
        by (apply Z.mul_lt_mono_pos_r; lia).
      assert (2 ^ 23 * 2 ^ (ew + 149) <= Z.pos mw * 2 ^ (ew + 149))
        by (apply Z.mul_le_mono_nonneg_r; lia).
      lia.
    + symmetry. apply Z.compare_gt_iff.
      pose proof (pow2_le (24 + (ew + 149)) (23 + (ev + 149)) ltac:(lia) ltac:(lia)) as Hp.
      rewrite (pow2_split 24), (pow2_split 23) in Hp by lia.
      assert (Z.pos mw * 2 ^ (ew + 149) < 2 ^ 24 * 2 ^ (ew + 149))
        by (apply Z.mul_lt_mono_pos_r; lia).
      assert (2 ^ 23 * 2 ^ (ev + 149) <= Z.pos mv * 2 ^ (ev + 149))
        by (apply Z.mul_le_mono_nonneg_r; lia).
      lia.
Qed.

Lemma float_units_nonneg (v : float) :
  float_nonneg v = true → 0 <= float_units v.
Proof. destruct v as [| | |[|] m e]; try done. cbn. lia. Qed.

Lemma float_le_units (v w : float) :
  is_float v → is_float w → float_nonneg v = true → float_nonneg w = true →
  float_le v w = true ↔ float_units v <= float_units w.
Proof.
  intros Hv Hw Hnv Hnw. unfold float_le, SFleb. rewrite float_compare by done.
  destruct (Z.compare_spec (float_units v) (float_units w)); split; (done || lia).
Qed.

Lemma float_lt_units (v w : float) :
  is_float v → is_float w → float_nonneg v = true → float_nonneg w = true →
  float_lt v w = true ↔ float_units v < float_units w.
Proof.
  intros Hv Hw Hnv Hnw. unfold float_lt, SFltb. rewrite float_compare by done.
  destruct (Z.compare_spec (float_units v) (float_units w)); split; (done || lia).
Qed.

Lemma pos_iter_xO (m d : positive) : Z.pos (Pos.iter xO m d) = Z.pos m * 2 ^ Z.pos d.
Proof.
  induction d as [|d IH] using Pos.peano_ind.
  - cbn [Pos.iter]. lia.
  - rewrite Pos.iter_succ, Pos2Z.inj_xO, IH, Pos2Z.inj_succ, Z.pow_succ_r by lia. lia.
Qed.

Lemma digits_shift m k : 0 < m → 0 <= k → digits (m * 2 ^ k) = digits m + k.
Proof. intros Hm Hk. unfold digits. rewrite Z.log2_mul_pow2 by lia. lia. Qed.

(** the conversion of a positive integer is the rounding of its value *)
Lemma float_of_uint32_round (a : Z) :
  0 < a →
  ∃ m e, float_of_uint32 a = round_float false m e ∧ 0 < m ∧ -298 <= e ∧
         e <= float_exp (digits m + e) ∧ m * 2 ^ (e + 298) = a * 2 ^ 298 ∧
         (a < 2 ^ 24 → float_exp (digits m + e) = e).
Proof.
  intros Ha. destruct a as [|p|p]; try lia.
  unfold float_of_uint32, binary_normalize, binary_round, shl_align.
  change (fexp 24 128) with float_exp. rewrite digits2_pos_digits.
  pose proof (digits_bounds (Z.pos p) eq_refl) as Hd.
  pose proof (digits_pos (Z.pos p) eq_refl) as Hd0.
  set (d := digits (Z.pos p)) in *.
  assert (float_exp (d + 0) = d - 24) as -> by (unfold float_exp; lia).
  destruct (d - 24 - 0) as [|k|k] eqn:Ek.
  - exists (Z.pos p), 0. fold d. rewrite binary_round_aux_round; fold d.
    + split_and!; try done; unfold float_exp; lia.
    + unfold float_exp; lia.
  - exists (Z.pos p), 0. fold d. rewrite binary_round_aux_round; fold d.
    + split_and!; try done; [unfold float_exp; lia|].
      intros Hlt. pose proof (digits_le (Z.pos p) 24 eq_refl Hlt). fold d in H. lia.
    + unfold float_exp; lia.
  - assert (digits (Z.pos (Pos.iter xO p k)) = 24) as Hd24.
    { rewrite pos_iter_xO, digits_shift by lia. fold d. lia. }
    exists (Z.pos (Pos.iter xO p k)), (d - 24).
    rewrite binary_round_aux_round; rewrite Hd24.
    + split_and!; try done; try (unfold float_exp; lia).
      rewrite pos_iter_xO, <- Z.mul_assoc, <- pow2_split by lia.
      do 2 f_equal. lia.
    + unfold float_exp; lia.
Qed.

Lemma round_float_units m e :
  0 < m → e <= float_exp (digits m + e) →
  float_nonneg (round_float false m e) = true →
  float_units (round_float false m e)
  = (if float_exp (digits m + e) =? e then m
     else round_shift m (float_exp (digits m + e) - e))
    * 2 ^ (float_exp (digits m + e) + 149).
Proof.
  intros Hm He Hn.
  destruct (round_float_cases false m e Hm He) as (_ & _ & Hcases). cbn zeta in Hcases.
  destruct Hcases as [[Hinf _]|[[H0 Hz]|(p & k & Hr & _ & Hpk)]].
  - by rewrite Hinf in Hn.
  - rewrite Hz, H0. done.
  - rewrite Hr. cbn [float_units cond_Zopp]. done.
Qed.

Lemma round_float_sign (s : bool) m e :
  (∃ s', round_float s m e = S754_zero s') ∨ round_float s m e = S754_infinity s ∨
  ∃ p k, round_float s m e = S754_finite s p k.
Proof. unfold round_float. repeat case_match; eauto. Qed.

Lemma float_of_uint32_large (a : Z) :
  2 ^ 23 <= a → float_of_uint32 a = round_float false a 0.
Proof.
  intros Ha. destruct a as [|p|p]; try lia.
  unfold float_of_uint32, binary_normalize, binary_round, shl_align.
  change (fexp 24 128) with float_exp. rewrite digits2_pos_digits.
  pose proof (digits_ge (Z.pos p) 23 ltac:(lia) Ha) as Hd.
  assert (float_exp (digits (Z.pos p) + 0) = digits (Z.pos p) - 24) as Hfe
    by (unfold float_exp; lia).
  rewrite Hfe.
  destruct (digits (Z.pos p) - 24 - 0) as [|k|k] eqn:Ek; try lia;
    apply binary_round_aux_round; rewrite Hfe; lia.
Qed.

Lemma float_of_uint32_valid (a : Z) :
  is_uint32 a → is_float (float_of_uint32 a) ∧ float_nonneg (float_of_uint32 a) = true.
Proof.
  intros [Ha0 Ha]. destruct (decide (a = 0)) as [->|Hne]; [done|].
  destruct (float_of_uint32_round a) as (m & e & -> & Hm & He0 & He & Hv & _); [lia|].
  destruct (round_float_upper m e (S754_finite false (2 ^ 23) 9) Hm He0 He)
    as (? & ? & _); try done.
  rewrite Hv. cbn [float_units cond_Zopp].
  change (Z.pos (2 ^ 23) * 2 ^ (9 + 149) * 2 ^ 149) with (2 ^ 32 * 2 ^ 298). lia.
Qed.

Lemma float_of_uint32_exact (a : Z) :
  0 <= a < 2 ^ 24 → float_units (float_of_uint32 a) = a * 2 ^ 149.
Proof.
  intros [Ha0 Ha]. destruct (decide (a = 0)) as [->|Hne]; [done|].
  destruct (float_of_uint32_valid a) as [_ Hn]; [unfold is_uint32; lia|].
  destruct (float_of_uint32_round a) as (m & e & Hr & Hm & He0 & He & Hv & Hx); [lia|].
  specialize (Hx Ha).
  assert (-149 <= e) by (unfold float_exp in Hx; lia).
  rewrite Hr in Hn |- *. rewrite round_float_units, Hx, Z.eqb_refl by done.
  apply (Z.mul_reg_r _ _ (2 ^ 149)); [lia|].
  rewrite <- !Z.mul_assoc, <- pow2_split by lia.
  replace (e + 149 + 149) with (e + 298) by lia. rewrite Hv.
  change (2 ^ 298) with (2 ^ 149 * 2 ^ 149). lia.
Qed.

(** the conversion preserves the order of the integers *)
Lemma float_of_uint32_mono (j i : Z) :
  0 <= j → j <= i → i < 2 ^ 32 →
  float_units (float_of_uint32 j) <= float_units (float_of_uint32 i).
Proof.
  intros Hj Hji Hi.
  destruct (float_of_uint32_valid j) as [Hvj Hnj]; [unfold is_uint32; lia|].
  destruct (float_of_uint32_valid i) as [Hvi Hni]; [unfold is_uint32; lia|].
  destruct (decide (i = 0)) as [->|Hi0]; [by replace j with 0 by lia|].
  destruct (Z.lt_ge_cases j (2 ^ 24)) as [Hsmall|Hlarge].
  - (* the conversion of [j] is exact *)
    destruct (float_of_uint32_round i) as (m & e & Hr & Hm & He0 & He & Hv & _); [lia|].
    rewrite Hr in Hni |- *.
    destruct (round_float_lower m e (float_of_uint32 j) Hm He0 He Hvj Hnj)
      as [Hinf|(_ & _ & Hle)]; [|by rewrite Hinf in Hni|done].
    rewrite Hv, float_of_uint32_exact by lia.
    change (2 ^ 298) with (2 ^ 149 * 2 ^ 149). nia.
  - rewrite !float_of_uint32_large in * by lia.
    pose proof (digits_ge j 23 ltac:(lia) ltac:(lia)) as Hdj.
    pose proof (digits_ge i 23 ltac:(lia) ltac:(lia)) as Hdi.
    assert (digits j <= digits i) as Hd
      by (unfold digits; pose proof (Z.log2_le_mono j i Hji); lia).
    assert (∀ a, 24 <= digits a → 0 <= float_exp (digits a + 0)) as Hexp
      by (intros a Ha; unfold float_exp; lia).
    destruct (decide (digits j = digits i)) as [Heq|Hne].
    + rewrite !round_float_units by (done || lia || by apply Hexp).
      rewrite Heq. set (e' := float_exp (digits i + 0)).
      pose proof (Hexp i Hdi) as He'. fold e' in He'.
      pose proof (pow2_pos (e' + 149) ltac:(lia)).
      apply Z.mul_le_mono_nonneg_r; [lia|].
      destruct (Z.eqb_spec e' 0) as [|Hne]; [done|].
      apply round_shift_mono; lia.
    + (* a power of two lies between *)
      pose proof (digits_bounds j ltac:(lia)) as Hbj.
      pose proof (digits_bounds i ltac:(lia)) as Hbi.
      pose proof (digits_le i 32 ltac:(lia) Hi) as Hd32.
      pose proof (pow2_le (digits j) (digits i - 1) ltac:(lia) ltac:(lia)) as Hp.
      set (P := S754_finite false (2 ^ 23) (digits j - 23)).
      assert (is_float P) as HvP.
      { apply bounded_canonical. unfold canonical.
        change (Z.pos (2 ^ 23)) with (2 ^ 23). lia. }
      assert (float_units P * 2 ^ 149 = 2 ^ digits j * 2 ^ 298) as HuP.
      { cbn [P float_units cond_Zopp]. change (Z.pos (2 ^ 23)) with (2 ^ 23).
        rewrite <- !pow2_split by lia. f_equal. lia. }
      destruct (round_float_upper j 0 P) as (_ & _ & Hup);
        [lia|lia|by apply Hexp|done|done|rewrite HuP; change (0 + 298) with 298; nia|].
      destruct (round_float_lower i 0 P) as [Hinf|(_ & _ & Hlo)];
        [lia|lia|by apply Hexp|done|done|rewrite HuP; change (0 + 298) with 298; nia
        |by rewrite Hinf in Hni|lia].
Qed.

(** the product of two finite values is the rounding of the exact product *)
Lemma float_mul_round (sv sw : bool) (mv mw : positive) (ev ew : Z) :
  canonical (Z.pos mv) ev → canonical (Z.pos mw) ew →
  float_mul (S754_finite sv mv ev) (S754_finite sw mw ew)
  = round_float (xorb sv sw) (Z.pos mv * Z.pos mw) (ev + ew)
  ∧ ev + ew <= float_exp (digits (Z.pos mv * Z.pos mw) + (ev + ew)).
Proof.
  intros (Hev & Hmv & Hnv) (Hew & Hmw & Hnw).
  assert (ev + ew <= float_exp (digits (Z.pos mv * Z.pos mw) + (ev + ew))) as He.
  { unfold float_exp.
    destruct (decide (ev = -149 ∧ ew = -149)) as [[-> ->]|Hne]; [lia|].
    assert (2 ^ 23 <= Z.pos mv * Z.pos mw) as Hp by nia.
    pose proof (digits_ge _ 23 ltac:(lia) Hp). lia. }
  split; [|done]. unfold float_mul, SFmul.
  rewrite Pos2Z.inj_mul. by apply binary_round_aux_round.
Qed.

Lemma float_units_mul (mv mw ev ew : Z) :
  -149 <= ev → -149 <= ew →
  mv * mw * 2 ^ (ev + ew + 298) = mv * 2 ^ (ev + 149) * (mw * 2 ^ (ew + 149)).
Proof.
  intros. replace (ev + ew + 298) with (ev + 149 + (ew + 149)) by lia.
  rewrite pow2_split by lia. lia.
Qed.

(** a product with a negative sign is below every value that is not negative *)
Lemma float_negative_below (m e : Z) (f : float) :
  float_nonneg f = true →
  float_le (round_float true m e) f = true ∧ float_lt f (round_float true m e) = false.
Proof.
  intros Hf.
  destruct (round_float_sign true m e) as [[s' ->]|[->|(p & k & ->)]];
    by destruct f as [| | |[|] ? ?].
Qed.

(** a value of the format that bounds the exact product from above bounds
    the product *)
Lemma float_mul_upper (v r f : float) :
  is_float v → float_nonneg v = true → is_float r → float_finite r = true →
  is_float f → float_nonneg f = true →
  float_units v * float_units r <= float_units f * 2 ^ 149 →
  float_le (float_mul v r) f = true ∧ float_lt f (float_mul v r) = false.
Proof.
  intros Hv Hnv Hr Hfr Hf Hnf Hle.
  destruct v as [sv|sv| |[|] mv ev]; try done.
  { by destruct r as [| | |[|] ? ?], f as [| | |[|] ? ?]. }
  destruct r as [sr|sr| |[|] mr er]; try done.
  { by destruct f as [| | |[|] ? ?]. }
  - apply bounded_canonical in Hv, Hr.
    destruct (float_mul_round false true mv mr ev er Hv Hr) as [-> _].
    by apply float_negative_below.
  - apply bounded_canonical in Hv, Hr.
    destruct (float_mul_round false false mv mr ev er Hv Hr) as [-> He].
    cbn [xorb float_units cond_Zopp] in *.
    destruct (round_float_upper (Z.pos mv * Z.pos mr) (ev + er) f) as (Hvp & Hnp & Hup);
      [lia|destruct Hv, Hr; lia|done..| |].
    { rewrite float_units_mul by (destruct Hv, Hr; lia). done. }
    split.
    + by apply float_le_units.
    + apply not_true_is_false. rewrite float_lt_units by done. lia.
Qed.


(** a product by a ratio of at most 1 is not above a larger integer *)
Lemma float_ratio_not_above (i j : Z) (ratio : float) :
  0 <= j → j <= i → i < 2 ^ 32 →
  is_float ratio → float_le ratio (float_of_uint32 1) = true →
  float_lt (float_of_uint32 i) (float_mul (float_of_uint32 j) ratio) = false.
Proof.
  intros Hj Hji Hi Hr Hle.
  destruct (float_of_uint32_valid j) as [Hvj Hnj]; [unfold is_uint32; lia|].
  destruct (float_of_uint32_valid i) as [Hvi Hni]; [unfold is_uint32; lia|].
  pose proof (float_of_uint32_mono j i Hj Hji Hi) as Hmono.
  pose proof (float_units_nonneg _ Hnj) as Hj0.
  destruct (float_finite ratio) eqn:Hfr.
  - destruct (float_nonneg ratio) eqn:Hnr.
    + apply float_le_units in Hle; [|done..].
      change (float_units (float_of_uint32 1)) with (2 ^ 149) in Hle.
      pose proof (float_units_nonneg _ Hnr).
      apply (float_mul_upper _ ratio); try done. nia.
    + apply (float_mul_upper _ ratio); try done.
      assert (float_units ratio <= 0).
      { destruct ratio as [| | |[|] m e]; try done. cbn [float_units cond_Zopp].
        pose proof (Z.pow_nonneg 2 (e + 149) ltac:(lia)). nia. }
      pose proof (float_units_nonneg _ Hni). nia.
  - destruct ratio as [|[|]| |]; try done;
      by destruct (float_of_uint32 j) as [| | |[|] ? ?],
                  (float_of_uint32 i) as [| | |[|] ? ?].
Qed.

(** ** Grouping *)


Lemma join_cons {A} (l : list A) (ls : list (list A)) : mjoin (l :: ls) = l ++ mjoin ls.
Proof. reflexivity. Qed.

Lemma runlength_encode_cons k keys :
  runlength_encode (k :: keys)
  = match runlength_encode keys with
    | (k', c) :: runs => if decide (k = k') then (k, c + 1) :: runs
                         else (k, 1) :: (k', c) :: runs
    | [] => [(k, 1)]
    end.
Proof. reflexivity. Qed.

Lemma runlength_encode_counts keys : Forall (λ r, 0 < r.2) (runlength_encode keys).
Proof.
  induction keys as [|k keys IH]; [constructor|].
  rewrite runlength_encode_cons.
  destruct (runlength_encode keys) as [|[k' c] runs]; [repeat constructor|].
  apply Forall_cons in IH as [Hc IH]. simpl in Hc.
  case_decide; repeat constructor; simpl; try done; lia.
Qed.

Lemma runlength_encode_expand keys :
  mjoin (expand_run <$> runlength_encode keys) = keys.
Proof.
  induction keys as [|k keys IH]; [done|].
  rewrite runlength_encode_cons.
  pose proof (runlength_encode_counts keys) as Hc.
  destruct (runlength_encode keys) as [|[k' c] runs].
  - simpl in *. by rewrite <- IH.
  - apply Forall_cons in Hc as [Hc _]. simpl in Hc.
    rewrite <- IH. case_decide as Hk.
    + subst k'. cbn [fmap list_fmap mjoin list_join]. unfold expand_run. cbn [fst snd].
      replace (Z.to_nat (c + 1)) with (S (Z.to_nat c)) by lia. done.
    + done.
Qed.

Lemma runlength_encode_head k keys :
  ∃ c runs, runlength_encode (k :: keys) = (k, c) :: runs.
Proof.
  rewrite runlength_encode_cons.
  destruct (runlength_encode keys) as [|[k' c] runs]; [by eexists _, _|].
  case_decide; by eexists _, _.
Qed.

(** the identifiers of the runs of a sorted sequence are strictly ascending *)
Lemma runlength_encode_sorted keys :
  Sorted Z.le keys → Sorted Z.lt (runlength_encode keys).*1.
Proof.
  induction 1 as [|k keys Hs IH Hhd]; [constructor|].
  rewrite runlength_encode_cons.
  destruct keys as [|k1 keys]; [repeat constructor|].
  destruct (runlength_encode_head k1 keys) as (c & runs & E).
  rewrite E in IH |- *. apply HdRel_inv in Hhd.
  cbn [fmap list_fmap fst] in IH |- *.
  case_decide as Hk.
  - subst k1. cbn [fmap list_fmap fst]. done.
  - cbn [fmap list_fmap fst]. constructor; [done|]. constructor. lia.
Qed.

Lemma lower_bound_app_lt v l1 l2 :
  Forall (λ e, e < v) l1 →
  lower_bound v (l1 ++ l2) = (length l1 + lower_bound v l2)%nat.
Proof.
  induction 1 as [|e l1 He _ IH]; [done|].
  cbn [app lower_bound length]. rewrite (proj2 (Z.ltb_lt e v)) by done.
  by rewrite IH.
Qed.

Lemma lower_bound_head_ge v e l : v <= e → lower_bound v (e :: l) = 0%nat.
Proof. intros H. cbn [lower_bound]. by rewrite (proj2 (Z.ltb_ge e v)). Qed.

(** in the seeds of strictly ascending runs, the lower bound of the identifier
    of a run is the number of seeds of the runs before it *)
Lemma lower_bound_runs runs : ∀ pre,
  StronglySorted Z.lt runs.*1 → Forall (λ r, 0 < r.2) runs →
  Forall (λ e, Forall (λ r, e < r.1) runs) pre →
  (λ c, Z.of_nat (lower_bound c (pre ++ mjoin (expand_run <$> runs)))) <$> runs.*1
  = offsets_from (Z.of_nat (length pre)) runs.*2.
Proof.
  induction runs as [|[k c] runs IH]; intros pre Hs Hc Hpre; [done|].
  rewrite !fmap_cons. cbn [fst snd offsets_from mjoin list_join].
  change (((k, c) :: runs).*1) with (k :: runs.*1) in Hs.
  apply StronglySorted_inv in Hs as [Hs Hk].
  apply Forall_cons in Hc as [Hc0 Hc]. cbn [snd] in Hc0.
  f_equal.
  - rewrite lower_bound_app_lt.
    2:{ eapply Forall_impl; [exact Hpre|]. intros e He.
        by apply Forall_cons in He as [? _]. }
    unfold expand_run at 1. cbn [fst snd].
    destruct (Z.to_nat c) as [|c'] eqn:E; [lia|].
    cbn [replicate app]. rewrite lower_bound_head_ge by lia. lia.
  - rewrite app_assoc.
    specialize (IH (pre ++ expand_run (k, c))).
    replace (Z.of_nat (length pre) + c) with (Z.of_nat (length (pre ++ expand_run (k, c)))).
    2:{ rewrite length_app. unfold expand_run. cbn [fst snd].
        rewrite length_replicate. lia. }
    apply IH; try done.
    apply Forall_app. split.
    + eapply Forall_impl; [exact Hpre|]. intros e He.
      by apply Forall_cons in He as [_ ?].
    + unfold expand_run. cbn [fst snd]. apply Forall_replicate.
      rewrite !Forall_fmap in Hk. eapply Forall_impl; [exact Hk|]. by intros [??].
Qed.

(** consecutive slices tile the interval they span *)
Lemma offsets_from_tile lengths : ∀ start,
  Forall (λ l, 0 < l) lengths →
  mjoin (zip_with seqZ (offsets_from start lengths) lengths)
  = seqZ start (foldr Z.add 0 lengths).
Proof.
  induction lengths as [|l lengths IH]; intros start Hl; [done|].
  apply Forall_cons in Hl as [Hl0 Hl].
  cbn [offsets_from zip_with mjoin list_join foldr].
  rewrite IH by done.
  assert (0 <= foldr Z.add 0 lengths).
  { clear -Hl. induction Hl; simpl; lia. }
  by rewrite seqZ_app by lia.
Qed.

Lemma expand_runs_length runs :
  Forall (λ r, 0 < r.2) runs →
  Z.of_nat (length (mjoin (expand_run <$> runs))) = foldr Z.add 0 runs.*2.
Proof.
  induction 1 as [|[k c] runs Hc _ IH]; [done|].
  rewrite !fmap_cons, join_cons. cbn [foldr snd] in *.
  rewrite length_app, Nat2Z.inj_add, IH. unfold expand_run. cbn [fst snd].
  rewrite length_replicate. lia.
Qed.

Lemma take_copy_into {A} (src dst : list A) :
  take (length src) (copy_into src dst) = src.
Proof. unfold copy_into. by rewrite take_app_length. Qed.

Lemma take_copy_into_eq {A} n (src dst : list A) :
  length src = n → take n (copy_into src dst) = src.
Proof. intros <-. apply take_copy_into. Qed.

Lemma hi_bits_mono a b :
  0 <= a → a <= b → b < 2 ^ 64 → hi_bits a <= hi_bits b.
Proof.
  intros Ha Hab Hb. unfold hi_bits. rewrite !Z.shiftr_div_pow2 by lia.
  assert (a / 2 ^ 32 <= b / 2 ^ 32) by (apply Z.div_le_mono; lia).
  assert (0 <= a / 2 ^ 32) by (apply Z.div_pos; lia).
  assert (b / 2 ^ 32 < 2 ^ 32) by (apply Z.div_lt_upper_bound; lia).
  rewrite !wrap32_small by lia. done.
Qed.

(** the chain tables after the grouping pass, in terms of the runs of the
    chain identifiers of the seeds *)
Lemma group_chains_tables (n_mems n : nat) (m m' : mem_state) :
  group_chains n_mems m = Some (n, m') →
  let seeds := take n_mems (mems_chain m) in
  let runs := runlength_encode seeds in
  n = length runs ∧
  take n (chain_lengths m') = runs.*2 ∧
  take n (chain_offsets m') = (λ c, Z.of_nat (lower_bound c seeds)) <$> runs.*1 ∧
  take n (chain_reads m') = hi_bits <$> runs.*1.
Proof.
  intros Hg seeds runs. unfold group_chains in Hg. fold seeds runs in Hg.
  repeat case_decide; simplify_eq.
  cbn [chain_lengths chain_offsets chain_reads].
  split_and!; [done|apply take_copy_into_eq..]; by rewrite !length_fmap.
Qed.

(** the grouping pass stays within its buffers when the seeds of the chunk
    have their identifiers and the three tables have one capacity *)
Lemma group_chains_returns (n_mems : nat) (m : mem_state) :
  (n_mems ≤ length (mems_chain m))%nat →
  length (chain_offsets m) = length (chain_lengths m) →
  length (chain_reads m) = length (chain_lengths m) →
  is_Some (group_chains n_mems m).
Proof.
  intros Hn Ho Hr. unfold group_chains. rewrite decide_True by done.
  rewrite decide_True; [by eexists|].
  unfold reserve. case_decide; rewrite ?length_replicate; lia.
Qed.

(** the read ids of strictly ascending 64-bit identifiers are ascending *)
Lemma hi_bits_sorted (ids : list Z) :
  StronglySorted Z.lt ids → Forall (λ c, 0 <= c < 2 ^ 64) ids →
  Sorted Z.le (hi_bits <$> ids).
Proof.
  intros Hss Hrange. apply StronglySorted_Sorted.
  induction Hss as [|k ks Hs IH Hk]; [constructor|].
  apply Forall_cons in Hrange as [Hk0 Hrange].
  rewrite fmap_cons. constructor; [by apply IH|].
  apply Forall_fmap. rewrite Forall_forall in Hk, Hrange |- *.
  intros k' Hin. simpl. specialize (Hk _ Hin). specialize (Hrange _ Hin).
  apply hi_bits_mono; lia.
Qed.

(** the identifiers of the runs are identifiers of seeds *)
Lemma runlength_encode_keys (P : Z → Prop) keys :
  Forall P keys → Forall P (runlength_encode keys).*1.
Proof.
  intros Hr. pose proof (runlength_encode_counts keys) as Hc.
  pose proof (runlength_encode_expand keys) as He.
  apply Forall_forall. intros k Hk. rewrite Forall_forall in Hr. apply Hr.
  rewrite <- He. apply list_elem_of_fmap in Hk as ([k' c] & -> & Hin).
  apply list_elem_of_join. exists (expand_run (k', c)). split.
  - unfold expand_run. cbn [fst snd]. apply elem_of_replicate. split; [done|].
    rewrite Forall_forall in Hc. specialize (Hc _ Hin). simpl in Hc. lia.
  - apply list_elem_of_fmap. by exists (k', c).
Qed.

(** on seeds sorted by chain identifier the chain table is sorted by read *)
Lemma group_chains_reads_sorted (n_mems n : nat) (m m' : mem_state) :
  group_chains n_mems m = Some (n, m') →
  Sorted Z.le (take n_mems (mems_chain m)) →
  Forall (λ c, 0 <= c < 2 ^ 64) (take n_mems (mems_chain m)) →
  Sorted Z.le (take n (chain_reads m')).
Proof.
  intros Hg Hs Hr. destruct (group_chains_tables n_mems n m m' Hg) as (_ & _ & _ & ->).
  apply hi_bits_sorted; [|by apply runlength_encode_keys].
  apply Sorted_StronglySorted; [intros ???; lia|]. by apply runlength_encode_sorted.
Qed.

(** C5. The grouping pass on seeds sorted by chain identifier stays within
    its buffers when the three chain tables have one capacity.  After it the
    [(offset, length)] pairs of the chain table tile [[0, n_seeds)]: the slices,
    taken in table order, enumerate the seed positions once each and in
    order, every slice is non-empty, and the lengths add up to [n_seeds];
    the chains are those of strictly ascending identifiers [ids], chain [k]
    holding exactly the seeds that carry [ids !! k], and the read ids of the
    table are in ascending order. *)
Theorem grouping_partitions_seeds (n_mems : nat) (m : mem_state) :
  (n_mems ≤ length (mems_chain m))%nat →
  Sorted Z.le (take n_mems (mems_chain m)) →
  Forall (λ c, 0 <= c < 2 ^ 64) (take n_mems (mems_chain m)) →
  (length (chain_offsets m) = length (chain_lengths m) →
   length (chain_reads m) = length (chain_lengths m) →
   is_Some (group_chains n_mems m)) ∧
  ∀ n m', group_chains n_mems m = Some (n, m') →
  let offsets := take n (chain_offsets m') in
  let lengths := take n (chain_lengths m') in
  let reads := take n (chain_reads m') in
  length offsets = n ∧ length lengths = n ∧ length reads = n ∧
  mjoin (zip_with seqZ offsets lengths) = seqZ 0 (Z.of_nat n_mems) ∧
  Forall (λ l, 0 < l) lengths ∧
  foldr Z.add 0 lengths = Z.of_nat n_mems ∧
  (∃ ids : list Z,
     StronglySorted Z.lt ids ∧
     take n_mems (mems_chain m)
       = mjoin (zip_with (λ id l, replicate (Z.to_nat l) id) ids lengths) ∧
     length ids = n ∧
     reads = hi_bits <$> ids) ∧
  Sorted Z.le reads.
Proof.
  intros Hlen Hs Hr. split; [by apply group_chains_returns|].
  intros n m' Hg offsets lengths reads.
  destruct (group_chains_tables n_mems n m m' Hg) as (Hn & Hlengths & Hoffsets & Hreads).
  fold lengths in Hlengths. fold offsets in Hoffsets. fold reads in Hreads.
  pose proof (group_chains_reads_sorted n_mems n m m' Hg Hs Hr) as Hsorted.
  fold reads in Hsorted. clear Hg.
  set (seeds := take n_mems (mems_chain m)) in *.
  set (runs := runlength_encode seeds) in *.
  clearbody offsets lengths reads. subst.
  pose proof (runlength_encode_counts seeds) as Hc. fold runs in Hc.
  pose proof (runlength_encode_expand seeds) as He. fold runs in He.
  pose proof (runlength_encode_sorted seeds Hs) as Hss. fold runs in Hss.
  assert (Transitive Z.lt) by (intros ???; lia).
  apply Sorted_StronglySorted in Hss; [|done].
  assert (Forall (λ l, 0 < l) runs.*2) as Hc' by by apply Forall_fmap.
  assert (length seeds = n_mems) as Hls by (subst seeds; rewrite length_take; lia).
  assert (foldr Z.add 0 runs.*2 = Z.of_nat n_mems) as Hsum.
  { rewrite <- expand_runs_length by done. by rewrite He, Hls. }
  assert ((λ c, Z.of_nat (lower_bound c seeds)) <$> runs.*1 = offsets_from 0 runs.*2) as Hoff.
  { pose proof (lower_bound_runs runs [] Hss Hc) as H0. rewrite He in H0.
    apply H0. constructor. }
  rewrite !length_fmap. repeat split; try done.
  - rewrite Hoff, offsets_from_tile by done. by rewrite Hsum.
  - exists runs.*1. repeat split; try done; [|by rewrite length_fmap].
    rewrite <- He at 1. f_equal. clear. induction runs as [|[k c] runs IH]; [done|].
    cbn [fmap list_fmap zip_with fst snd]. by rewrite <- IH.
Qed.

(** ** Ranking *)

(** on a sorted table, the positions below the lower bound of [v] are those of
    the elements less than [v] *)
Lemma lower_bound_lt v l : ∀ p e,
  StronglySorted Z.le l → l !! p = Some e → (p < lower_bound v l)%nat ↔ e < v.
Proof.
  induction l as [|e0 l IH]; intros p e Hs Hp; [done|].
  apply StronglySorted_inv in Hs as [Hs Hle]. cbn [lower_bound].
  destruct (Z.ltb_spec e0 v) as [Hlt|Hge].
  - destruct p as [|p]; simplify_eq/=; [split; [done|lia]|].
    rewrite <- (IH p e Hs Hp). lia.
  - assert (e0 <= e).
    { destruct p as [|p]; simplify_eq/=; [lia|].
      rewrite Forall_forall in Hle. apply Hle. by eapply list_elem_of_lookup_2. }
    split; lia.
Qed.

Lemma upper_bound_lt v l : ∀ p e,
  StronglySorted Z.le l → l !! p = Some e → (p < upper_bound v l)%nat ↔ e <= v.
Proof.
  induction l as [|e0 l IH]; intros p e Hs Hp; [done|].
  apply StronglySorted_inv in Hs as [Hs Hle]. cbn [upper_bound].
  destruct (Z.leb_spec e0 v) as [Hlt|Hge].
  - destruct p as [|p]; simplify_eq/=; [split; [done|lia]|].
    rewrite <- (IH p e Hs Hp). lia.
  - assert (e0 <= e).
    { destruct p as [|p]; simplify_eq/=; [lia|].
      rewrite Forall_forall in Hle. apply Hle. by eapply list_elem_of_lookup_2. }
    split; lia.
Qed.

Lemma upper_bound_le_length v l : (upper_bound v l ≤ length l)%nat.
Proof. induction l as [|e l IH]; simpl; [lia|]. case_match; simpl; lia. Qed.

(** on a sorted table, the sub-range of [v] is the set of the positions that
    hold [v] *)
Lemma bounds_range v l p :
  Sorted Z.le l →
  (lower_bound v l ≤ p < upper_bound v l)%nat ↔ l !! p = Some v.
Proof.
  intros Hs. apply Sorted_StronglySorted in Hs; [|apply _].
  destruct (l !! p) as [e|] eqn:Hp.
  - pose proof (lower_bound_lt v l p e Hs Hp). pose proof (upper_bound_lt v l p e Hs Hp).
    split; [intros ?; f_equal; lia|intros ?; simplify_eq; lia].
  - apply lookup_ge_None in Hp. pose proof (upper_bound_le_length v l).
    split; [lia|done].
Qed.

Lemma sorted_lookup_le l : ∀ p q a b,
  StronglySorted Z.le l → (p ≤ q)%nat → l !! p = Some a → l !! q = Some b → a <= b.
Proof.
  induction l as [|e l IH]; intros p q a b Hs Hpq Hp Hq; [done|].
  apply StronglySorted_inv in Hs as [Hs Hle].
  destruct p as [|p], q as [|q]; simplify_eq/=; try lia.
  - rewrite Forall_forall in Hle. apply Hle. by eapply list_elem_of_lookup_2.
  - eapply (IH p q); eauto with lia.
Qed.

Section ranking.
Context (chain_reads weights chain_weights chain_index : list Z).
Context (Hrank : ranking chain_reads weights chain_weights chain_index).

Lemma ranking_lengths :
  length chain_weights = length chain_reads ∧ length chain_index = length chain_reads.
Proof.
  destruct Hrank as (Hlw & _ & _ & _ & Hlen & Hperm & _).
  apply Permutation_length in Hperm. rewrite !length_zip_with in Hperm.
  rewrite length_fmap, length_seq in Hperm. lia.
Qed.

(** the key at a rank is the key of the chain at that rank *)
Lemma ranking_entry p c k :
  chain_index !! p = Some c → chain_weights !! p = Some k →
  ∃ r w, 0 <= c ∧ chain_reads !! Z.to_nat c = Some r ∧
         weights !! Z.to_nat c = Some w ∧ k = weight_key r w ∧
         is_uint32 r ∧ is_uint32 w.
Proof.
  intros Hc Hk.
  destruct Hrank as (Hlw & _ & Hur & Huw & Hlen & Hperm & _).
  assert ((k, c) ∈ zip chain_weights chain_index) as Hin.
  { apply list_elem_of_lookup. exists p. apply lookup_zip_with_Some. eauto. }
  rewrite Hperm in Hin. apply list_elem_of_lookup in Hin as [i Hi].
  apply lookup_zip_with_Some in Hi as (k' & c' & Heq & Hk' & Hc').
  injection Heq as <- <-.
  apply list_lookup_fmap_Some in Hc' as (i' & Hci & Hi').
  apply lookup_seq in Hi' as [-> _]. cbn [plus] in Hci. subst c.
  apply lookup_zip_with_Some in Hk' as (r & w & -> & Hr & Hw).
  assert (is_uint32 r).
  { rewrite Forall_forall in Hur. apply Hur. by eapply list_elem_of_lookup_2. }
  assert (is_uint32 w).
  { rewrite Forall_forall in Huw. apply Huw. by eapply list_elem_of_lookup_2. }
  exists r, w. rewrite Nat2Z.id. split_and!; done || lia.
Qed.

(** the read ids of the sorted keys are the chain table itself *)
Lemma ranking_reads : hi_bits <$> chain_weights = chain_reads.
Proof.
  pose proof ranking_lengths as [Hl1 Hl2].
  destruct Hrank as (Hlw & Hsr & Hur & Huw & Hlen & Hperm & Hsk).
  apply (Sorted_unique Z.le).
  - assert (Forall (λ k, 0 <= k < 2 ^ 64) chain_weights) as Hk64.
    { apply Forall_forall. intros k [p Hp]%list_elem_of_lookup.
      destruct (lookup_lt_is_Some_2 chain_index p) as [c Hc].
      { rewrite Hl2, <- Hl1. by eapply lookup_lt_Some. }
      destruct (ranking_entry p c k Hc Hp) as (r & w & _ & _ & _ & -> & Hr & Hw).
      rewrite weight_key_add by done. unfold is_uint32 in *. lia. }
    apply Sorted_StronglySorted in Hsk; [|apply _].
    apply StronglySorted_Sorted.
    clear -Hsk Hk64. induction Hsk as [|k ks Hs IH Hk]; [constructor|].
    apply Forall_cons in Hk64 as [Hk0 Hk64]. rewrite fmap_cons.
    constructor; [by apply IH|].
    apply Forall_fmap. rewrite Forall_forall in Hk, Hk64 |- *.
    intros k' Hin. simpl. specialize (Hk _ Hin). specialize (Hk64 _ Hin).
    apply hi_bits_mono; lia.
  - done.
  - apply (fmap_Permutation fst) in Hperm.
    rewrite !fst_zip in Hperm by (rewrite ?length_zip_with, ?length_fmap, ?length_seq; lia).
    rewrite Hperm. clear -Hlw Hur Huw. 
    assert ((hi_bits <$> zip_with weight_key chain_reads weights) = chain_reads) as ->; [|done].
    revert weights Hlw Huw. induction Hur as [|r rs Hr Hrs IH]; intros [|w ws] Hlw Huw; try done.
    apply Forall_cons in Huw as [Hw Huw]. cbn [zip_with]. rewrite fmap_cons.
    rewrite hi_bits_weight_key by done. f_equal. apply IH; [|done]. simpl in Hlw. lia.
Qed.

(** the chain at rank [p] belongs to the read at position [p] of the table *)
Lemma ranking_same_read p c :
  chain_index !! p = Some c → chain_reads !! Z.to_nat c = chain_reads !! p.
Proof.
  intros Hc. pose proof ranking_lengths as [Hl1 Hl2].
  destruct (lookup_lt_is_Some_2 chain_weights p) as [k Hk].
  { rewrite Hl1, <- Hl2. by eapply lookup_lt_Some. }
  destruct (ranking_entry p c k Hc Hk) as (r & w & _ & Hr & _ & -> & Hur & Huw).
  rewrite Hr, <- ranking_reads, list_lookup_fmap, Hk. simpl.
  by rewrite hi_bits_weight_key.
Qed.

(** within the sub-range of a read the keys are ordered by weight *)
Lemma ranking_weights_ordered read p q kp kq :
  (lower_bound read chain_reads ≤ p)%nat → (p ≤ q)%nat →
  (q < upper_bound read chain_reads)%nat →
  chain_weights !! p = Some kp → chain_weights !! q = Some kq →
  weight_of_key kp <= weight_of_key kq.
Proof.
  intros Hb Hpq He Hp Hq. pose proof ranking_lengths as [Hl1 Hl2].
  assert (Sorted Z.le chain_reads) as Hsr by apply Hrank.
  assert (Sorted Z.le chain_weights) as Hsk by apply Hrank.
  assert (chain_reads !! p = Some read) as Hrp by (apply bounds_range; [done|lia]).
  assert (chain_reads !! q = Some read) as Hrq by (apply bounds_range; [done|lia]).
  destruct (lookup_lt_is_Some_2 chain_index p) as [cp Hcp].
  { rewrite Hl2, <- Hl1. by eapply lookup_lt_Some. }
  destruct (lookup_lt_is_Some_2 chain_index q) as [cq Hcq].
  { rewrite Hl2, <- Hl1. by eapply lookup_lt_Some. }
  destruct (ranking_entry p cp kp Hcp Hp) as (r1 & w1 & _ & Hr1 & _ & -> & Hur1 & Huw1).
  destruct (ranking_entry q cq kq Hcq Hq) as (r2 & w2 & _ & Hr2 & _ & -> & Hur2 & Huw2).
  rewrite (ranking_same_read p cp Hcp) in Hr1. rewrite (ranking_same_read q cq Hcq) in Hr2.
  simplify_eq. rewrite !weight_of_weight_key by done.
  assert (weight_key read w1 <= weight_key read w2) as Hle.
  { apply Sorted_StronglySorted in Hsk; [|apply _].
    by eapply (sorted_lookup_le chain_weights p q). }
  rewrite !weight_key_add in Hle by done. lia.
Qed.

Lemma ranking_permutation : chain_index ≡ₚ Z.of_nat <$> seq 0 (length chain_reads).
Proof.
  pose proof ranking_lengths as [Hl1 Hl2].
  destruct Hrank as (Hlw & _ & _ & _ & Hlen & Hperm & _).
  apply (fmap_Permutation snd) in Hperm.
  rewrite !snd_zip in Hperm
    by (rewrite ?length_zip_with, ?length_fmap, ?length_seq; lia).
  done.
Qed.

(** the ranks of the chains of a read are the sub-range of the read *)
Lemma ranking_range read p c :
  chain_index !! p = Some c →
  load chain_reads c = Some read ↔
  (lower_bound read chain_reads ≤ p < upper_bound read chain_reads)%nat.
Proof.
  intros Hc. unfold load. rewrite (ranking_same_read p c Hc).
  symmetry. apply bounds_range. apply Hrank.
Qed.

Lemma ranking_key p c k :
  chain_index !! p = Some c → chain_weights !! p = Some k →
  load weights c = Some (weight_of_key k) ∧ load chain_reads c = Some (hi_bits k).
Proof.
  intros Hc Hk. unfold load.
  destruct (ranking_entry p c k Hc Hk) as (r & w & _ & Hr & Hw & -> & Hur & Huw).
  by rewrite weight_of_weight_key, hi_bits_weight_key.
Qed.
End ranking.

Global Instance key_le_total : Total key_le.
Proof. intros p q. unfold key_le. lia. Qed.

(** the model of [thrust::sort_by_key] meets the contract *)
Lemma sort_by_key_sorts keys vals :
  sorts_by_key keys vals (sort_by_key keys vals).1 (sort_by_key keys vals).2.
Proof.
  unfold sorts_by_key, sort_by_key. cbn [fst snd]. split_and!.
  - by rewrite !length_fmap.
  - rewrite zip_fst_snd. apply merge_sort_Permutation.
  - pose proof (Sorted_merge_sort key_le (zip keys vals)) as Hs.
    induction Hs as [|p l Hs IH Hhd]; [constructor|].
    rewrite fmap_cons. constructor; [done|].
    destruct Hhd as [|q l Hq]; [constructor|]. rewrite fmap_cons. by constructor.
Qed.

(** the ranking stage meets the contract of the sort on the chains of the
    chunk *)
Lemma rank_chains_sorts (n reserved_space : nat) (keys : list Z) :
  length keys = n → (n ≤ reserved_space)%nat →
  sorts_by_key keys (Z.of_nat <$> seq 0 n)
    (take n (rank_chains n reserved_space keys).1)
    (take n (rank_chains n reserved_space keys).2).
Proof.
  intros Hk Hn. unfold rank_chains.
  set (iota := Z.of_nat <$> seq 0 n).
  assert (length iota = n) as Hi by (subst iota; by rewrite length_fmap, length_seq).
  rewrite (take_copy_into_eq n iota) by done.
  rewrite (take_ge keys) by lia.
  pose proof (sort_by_key_sorts keys iota) as Hs.
  destruct (sort_by_key keys iota) as [keys' index'] eqn:E.
  cbn [fst snd] in *.
  assert (length keys' = n ∧ length index' = n) as [Hk' Hi'].
  { destruct Hs as (Hl & Hp & _). apply Permutation_length in Hp.
    rewrite !length_zip_with in Hp. lia. }
  by rewrite !take_copy_into_eq.
Qed.

(** ** The filter kernel *)

Lemma flags_kept_refl flags : flags_kept flags flags.
Proof. by split. Qed.

Lemma flags_kept_trans f1 f2 f3 : flags_kept f1 f2 → flags_kept f2 f3 → flags_kept f1 f3.
Proof. intros [H1 H2] [H3 H4]. split; [congruence|auto]. Qed.

Lemma flags_kept_insert flags c : flags_kept flags (<[c := 1]> flags).
Proof.
  split; [apply length_insert|]. intros c' Hc'.
  destruct (decide (c = c')) as [->|Hne].
  - rewrite list_lookup_insert_eq; [done|]. by eapply lookup_lt_Some.
  - by rewrite list_lookup_insert_ne.
Qed.

Lemma store_Some {A} (a : list A) i v a' :
  store a i v = Some a' ↔ (i < length a)%nat ∧ a' = <[i := v]> a.
Proof.
  unfold store. case_decide as Hi.
  - split; [intros [= <-]; done|intros [_ ->]; done].
  - split; [done|intros [? _]; lia].
Qed.

Lemma launch_app {S T} (thread : S → T → option S) tids1 tids2 s :
  launch thread (tids1 ++ tids2) s = s' ← launch thread tids1 s; launch thread tids2 s'.
Proof.
  revert s. induction tids1 as [|t tids1 IH]; intros s; [done|].
  cbn [app launch]. destruct (thread s t) as [s1|]; [|done]. apply IH.
Qed.

Section filter_kernel_facts.
Context (chain_index : list Z) (chain_ranges : list uint2) (chain_weights : list Z).
Context (mask_level chain_drop_ratio : float) (min_seed_len : Z).

Local Abbreviation scan :=
  (inner_scan chain_index chain_ranges chain_weights mask_level chain_drop_ratio min_seed_len).
Local Abbreviation step :=
  (filter_step chain_index chain_ranges chain_weights mask_level chain_drop_ratio min_seed_len).
Local Abbreviation loop :=
  (filter_loop chain_index chain_ranges chain_weights mask_level chain_drop_ratio min_seed_len).
Local Abbreviation kernel :=
  (chain_filter_kernel chain_index chain_ranges chain_weights mask_level chain_drop_ratio min_seed_len).

(** the inner scan writes nothing but the flag of chain [ci], and leaves
    [j] between its first and its last value *)
Lemma inner_scan_result ci i_span i_w count : ∀ j flags j' flags',
  scan ci i_span i_w count j flags = Some (j', flags') →
  (flags' = flags ∨ ((ci < length flags)%nat ∧ flags' = <[ci := 1]> flags)) ∧
  (j ≤ j' ≤ j + count)%nat.
Proof.
  induction count as [|count IH]; intros j flags j' flags' Hs.
  - simplify_eq/=. split; [by left|lia].
  - cbn [inner_scan] in Hs.
    destruct (chain_index !! j) as [cj|]; [|done]. cbn [mbind option_bind] in Hs.
    destruct (load chain_ranges cj) as [j_span|]; [|done]. cbn [mbind option_bind] in Hs.
    destruct (chain_weights !! j) as [kj|]; [|done]. cbn [mbind option_bind] in Hs.
    destruct (have_overlap i_span j_span);
      [destruct (significant_overlap i_span j_span mask_level)|].
    + destruct (store flags ci 1) as [flags1|] eqn:Hst; [|done].
      apply store_Some in Hst as [Hlt ->]. cbn [mbind option_bind] in Hs.
      destruct (dominance_break _ _ _ _).
      * simplify_eq. split; [by right|lia].
      * apply IH in Hs as [[->| [_ ->]] ?]; (split; [right; split; [done|]|lia]);
          [done|by rewrite list_insert_insert_eq].
    + apply IH in Hs as [? ?]. split; [done|lia].
    + apply IH in Hs as [? ?]. split; [done|lia].
Qed.

(** without a dominance break the inner scan runs to its end *)
Lemma inner_scan_no_break ci i_span i_w count : ∀ j flags j' flags',
  (∀ j0 kj, (j ≤ j0 < j + count)%nat → chain_weights !! j0 = Some kj →
     dominance_break i_w (weight_of_key kj) chain_drop_ratio min_seed_len = false) →
  scan ci i_span i_w count j flags = Some (j', flags') →
  j' = (j + count)%nat.
Proof.
  induction count as [|count IH]; intros j flags j' flags' Hnb Hs.
  - simplify_eq/=. lia.
  - cbn [inner_scan] in Hs.
    destruct (chain_index !! j) as [cj|]; [|done]. cbn [mbind option_bind] in Hs.
    destruct (load chain_ranges cj) as [j_span|]; [|done]. cbn [mbind option_bind] in Hs.
    destruct (chain_weights !! j) as [kj|] eqn:Hkj; [|done]. cbn [mbind option_bind] in Hs.
    assert (∀ j0 kj, (S j ≤ j0 < S j + count)%nat → chain_weights !! j0 = Some kj →
      dominance_break i_w (weight_of_key kj) chain_drop_ratio min_seed_len = false) as Hnb'.
    { intros j0 kj0 ? ?. apply (Hnb j0); [lia|done]. }
    destruct (have_overlap i_span j_span);
      [destruct (significant_overlap i_span j_span mask_level)|].
    + destruct (store flags ci 1) as [flags1|]; [|done]. cbn [mbind option_bind] in Hs.
      rewrite (Hnb j kj) in Hs by (done || lia).
      apply IH in Hs; [lia|done].
    + apply IH in Hs; [lia|done].
    + apply IH in Hs; [lia|done].
Qed.

(** the inner scan does not fault on tables that hold the chains it visits *)
Lemma inner_scan_total ci i_span i_w count : ∀ j flags,
  (ci < length flags)%nat →
  (∀ j0, (j ≤ j0 < j + count)%nat →
     is_Some (chain_weights !! j0) ∧
     ∃ cj, chain_index !! j0 = Some cj ∧ is_Some (load chain_ranges cj)) →
  is_Some (scan ci i_span i_w count j flags).
Proof.
  induction count as [|count IH]; intros j flags Hci Hok; [by eexists|].
  cbn [inner_scan].
  destruct (Hok j) as ([kj Hkj] & cj & Hcj & [j_span Hsp]); [lia|].
  rewrite Hcj, Hkj. cbn [mbind option_bind]. rewrite Hsp. cbn [mbind option_bind].
  assert (∀ flags0, (ci < length flags0)%nat →
    is_Some (scan ci i_span i_w count (S j) flags0)) as Hrec.
  { intros flags0 H0. apply IH; [done|]. intros j0 ?. apply Hok. lia. }
  destruct (have_overlap i_span j_span);
    [destruct (significant_overlap i_span j_span mask_level)|]; [|by apply Hrec..].
  unfold store. rewrite decide_True by done. cbn [mbind option_bind].
  destruct (dominance_break _ _ _ _); [by eexists|].
  apply Hrec. by rewrite length_insert.
Qed.

(** one iteration of the outer loop keeps [n] or adds one to it, and writes
    nothing but the flag of the chain at rank [i] *)
Lemma filter_step_result begin i n flags n' flags' :
  step begin i (n, flags) = Some (n', flags') →
  (n' = n ∨ n' = S n) ∧ flags_kept flags flags'.
Proof.
  unfold filter_step. intros Hs.
  destruct (chain_index !! i) as [ci|]; [|done]. cbn [mbind option_bind] in Hs.
  destruct (load chain_ranges ci) as [i_span|]; [|done]. cbn [mbind option_bind] in Hs.
  destruct (chain_weights !! i) as [ki|]; [|done]. cbn [mbind option_bind] in Hs.
  destruct (scan _ _ _ _ _ _) as [[j flags1]|] eqn:Hin; [|done].
  cbn [mbind option_bind] in Hs.
  apply inner_scan_result in Hin as [Hfl _].
  assert (flags_kept flags flags1) as Hk1.
  { destruct Hfl as [->|[_ ->]]; [apply flags_kept_refl|apply flags_kept_insert]. }
  case_decide.
  - destruct (store flags1 (Z.to_nat ci) 1) as [flags2|] eqn:Hst; [|done].
    apply store_Some in Hst as [_ ->]. simplify_eq/=. split; [by right|].
    eapply flags_kept_trans; [exact Hk1|apply flags_kept_insert].
  - simplify_eq. split; [by left|done].
Qed.

Lemma filter_loop_kept begin count : ∀ i n flags n' flags',
  loop begin count i (n, flags) = Some (n', flags') →
  (n ≤ n' ≤ n + count)%nat ∧ flags_kept flags flags'.
Proof.
  induction count as [|count IH]; intros i n flags n' flags' Hs.
  - simplify_eq/=. split; [lia|apply flags_kept_refl].
  - cbn [filter_loop] in Hs.
    destruct (step begin i (n, flags)) as [[n1 flags1]|] eqn:Hst; [|done].
    cbn [mbind option_bind] in Hs.
    apply filter_step_result in Hst as [Hn1 Hk1].
    apply IH in Hs as [Hn2 Hk2]. split; [lia|]. by eapply flags_kept_trans.
Qed.

(** a thread of the filter kernel only sets flags *)
Lemma chain_filter_kernel_kept chunk n_chains chain_reads flags tid flags' :
  kernel chunk n_chains chain_reads flags tid = Some flags' →
  flags_kept flags flags'.
Proof.
  unfold chain_filter_kernel. intros Hs.
  case_match; [simplify_eq; apply flags_kept_refl|].
  destruct (chain_index !! _) as [c|]; [|done]. cbn [mbind option_bind] in Hs.
  destruct (store flags (Z.to_nat c) 1) as [flags1|] eqn:Hst; [|done].
  apply store_Some in Hst as [_ ->]. cbn [mbind option_bind] in Hs.
  destruct (loop _ _ _ _) as [[n flags2]|] eqn:Hl; [|done].
  simplify_eq/=. apply filter_loop_kept in Hl as [_ Hk].
  eapply flags_kept_trans; [apply flags_kept_insert|done].
Qed.

Lemma launch_filter_kept chunk n_chains chain_reads tids : ∀ flags flags',
  launch (kernel chunk n_chains chain_reads) tids flags = Some flags' →
  flags_kept flags flags'.
Proof.
  induction tids as [|t tids IH]; intros flags flags' Hs.
  - simplify_eq/=. apply flags_kept_refl.
  - cbn [launch] in Hs.
    destruct (kernel chunk n_chains chain_reads flags t) as [flags1|] eqn:Ht;
      [|done].
    cbn [mbind option_bind] in Hs. apply chain_filter_kernel_kept in Ht.
    eapply flags_kept_trans; [done|by apply IH].
Qed.
End filter_kernel_facts.

Section filter_kernel_runs.
Context (chain_index : list Z) (chain_ranges : list uint2) (chain_weights : list Z).
Context (mask_level chain_drop_ratio : float) (min_seed_len : Z).
Context (bound : nat).
Context (Hweights : ∀ p, (p < bound)%nat → is_Some (chain_weights !! p)).
Context (Hindex : ∀ p, (p < bound)%nat →
           ∃ c, chain_index !! p = Some c ∧ (Z.to_nat c < bound)%nat).
Context (Hranges : (bound ≤ length chain_ranges)%nat).

Local Abbreviation step :=
  (filter_step chain_index chain_ranges chain_weights mask_level chain_drop_ratio min_seed_len).
Local Abbreviation loop :=
  (filter_loop chain_index chain_ranges chain_weights mask_level chain_drop_ratio min_seed_len).
Local Abbreviation kernel :=
  (chain_filter_kernel chain_index chain_ranges chain_weights mask_level chain_drop_ratio min_seed_len).

Lemma filter_step_total begin i n flags :
  (begin + n ≤ i)%nat → (i < bound)%nat → (bound ≤ length flags)%nat →
  is_Some (step begin i (n, flags)).
Proof.
  intros Hn Hi Hfl. unfold filter_step.
  destruct (Hindex i Hi) as (ci & Hci & Hlt). destruct (Hweights i Hi) as [ki Hki].
  destruct (lookup_lt_is_Some_2 chain_ranges (Z.to_nat ci)) as [i_span Hsp]; [lia|].
  change (load chain_ranges ci = Some i_span) in Hsp.
  rewrite Hci. cbn [mbind option_bind]. rewrite Hsp, Hki. cbn [mbind option_bind].
  destruct (inner_scan_total chain_index chain_ranges chain_weights mask_level
              chain_drop_ratio min_seed_len (Z.to_nat ci) i_span (weight_of_key ki)
              n begin flags) as [[j flags1] Hin].
  { lia. }
  { intros j0 Hj0. split; [apply Hweights; lia|].
    destruct (Hindex j0) as (cj & Hcj & Hltj); [lia|]. exists cj. split; [done|].
    apply lookup_lt_is_Some_2. lia. }
  rewrite Hin. cbn [mbind option_bind].
  apply inner_scan_result in Hin as [Hfl1 _].
  case_decide; [|by eexists].
  unfold store. rewrite decide_True; [by eexists|].
  destruct Hfl1 as [->|[_ ->]]; rewrite ?length_insert; lia.
Qed.

Lemma filter_loop_total begin count : ∀ i n flags,
  (begin + n ≤ i)%nat → (i + count ≤ bound)%nat → (bound ≤ length flags)%nat →
  is_Some (loop begin count i (n, flags)).
Proof.
  induction count as [|count IH]; intros i n flags Hn Hi Hfl; [by eexists|].
  cbn [filter_loop].
  destruct (filter_step_total begin i n flags) as [[n1 flags1] Hst]; [lia..|].
  rewrite Hst. cbn [mbind option_bind].
  apply filter_step_result in Hst as [Hn1 [Hl1 _]].
  apply IH; lia.
Qed.

(** the thread of a read that has a chain runs to its end *)
Lemma chain_filter_kernel_total chunk n_chains chain_reads flags tid :
  let read_id := wrap32 (Z.of_nat tid + read_begin chunk) in
  (upper_bound read_id (take n_chains chain_reads) ≤ bound)%nat →
  (lower_bound read_id (take n_chains chain_reads)
     < upper_bound read_id (take n_chains chain_reads))%nat →
  (bound ≤ length flags)%nat →
  is_Some (kernel chunk n_chains chain_reads flags tid).
Proof.
  intros read_id Hub Hlt Hfl. unfold chain_filter_kernel. fold read_id.
  case_match; [by eexists|].
  destruct (Hindex (lower_bound read_id (take n_chains chain_reads))) as (c & Hc & Hcb);
    [lia|].
  rewrite Hc. cbn [mbind option_bind].
  unfold store. rewrite decide_True by lia. cbn [mbind option_bind].
  destruct (filter_loop_total (lower_bound read_id (take n_chains chain_reads))
    (upper_bound read_id (take n_chains chain_reads)
       - (lower_bound read_id (take n_chains chain_reads) + 1))
    (lower_bound read_id (take n_chains chain_reads) + 1) 1
    (<[Z.to_nat c := 1]> flags)) as [st Hst]; [lia..|rewrite length_insert; lia|].
  rewrite Hst. by eexists.
Qed.
End filter_kernel_runs.

(** a thread that passes the test on [read_end] sets the flag of the chain at
    the first rank of its sub-range *)
Lemma chain_filter_kernel_first chain_index chain_ranges chain_weights
    mask_level chain_drop_ratio min_seed_len chunk n_chains chain_reads flags tid flags' :
  let read_id := wrap32 (Z.of_nat tid + read_begin chunk) in
  read_id < read_end chunk →
  chain_filter_kernel chain_index chain_ranges chain_weights mask_level
    chain_drop_ratio min_seed_len chunk n_chains chain_reads flags tid = Some flags' →
  ∃ c, chain_index !! lower_bound read_id (take n_chains chain_reads) = Some c ∧
       load flags' c = Some 1.
Proof.
  intros read_id Hlt. unfold chain_filter_kernel. fold read_id. intros Hs.
  rewrite (proj2 (Z.leb_gt _ _)) in Hs by done.
  destruct (chain_index !! _) as [c|]; [|done]. cbn [mbind option_bind] in Hs.
  destruct (store flags (Z.to_nat c) 1) as [flags1|] eqn:Hst; [|done].
  apply store_Some in Hst as [Hc ->]. cbn [mbind option_bind] in Hs.
  destruct (filter_loop _ _ _ _ _ _ _ _ _ _) as [[n flags2]|] eqn:Hl; [|done].
  simplify_eq/=. apply filter_loop_kept in Hl as [_ [_ Hk]].
  exists c. split; [done|]. apply Hk. by apply list_lookup_insert_eq.
Qed.

(** the tables of a ranking hold every chain the filter kernel visits *)
Lemma ranking_tables n chain_reads weights chain_weights chain_index :
  (n ≤ length chain_reads)%nat →
  ranking (take n chain_reads) weights (take n chain_weights) (take n chain_index) →
  (∀ p, (p < n)%nat → is_Some (chain_weights !! p)) ∧
  (∀ p, (p < n)%nat → ∃ c, chain_index !! p = Some c ∧ (Z.to_nat c < n)%nat).
Proof.
  intros Hn Hrank. pose proof (ranking_lengths _ _ _ _ Hrank) as [Hl1 Hl2].
  rewrite !length_take in Hl1, Hl2.
  assert (∀ p, (p < n)%nat → is_Some (chain_weights !! p)) as Hw.
  { intros p Hp. apply lookup_lt_is_Some_2. lia. }
  split; [done|]. intros p Hp.
  destruct (lookup_lt_is_Some_2 chain_index p) as [c Hc]; [lia|].
  destruct (Hw p Hp) as [k Hk]. exists c. split; [done|].
  destruct (ranking_entry _ _ _ _ Hrank p c k) as (r & w & _ & Hr & _).
  - by rewrite lookup_take_lt.
  - by rewrite lookup_take_lt.
  - apply lookup_lt_Some in Hr. rewrite length_take in Hr. lia.
Qed.

(** C6. For every read of the chunk that has a chain, the chain at the first
    rank of the read's sub-range is a chain of that read, the thread of the
    read runs to its end and sets the flag of that chain, and the flag is
    still set after any launch that contains the thread: at least one chain
    of the read is kept. *)
Theorem first_ranked_chain_kept
    (chain_index : list Z) (chain_ranges : list uint2) (chain_weights : list Z)
    (mask_level chain_drop_ratio : float) (min_seed_len : Z)
    (chunk : read_chunk) (n_chains : nat) (chain_reads weights : list Z)
    (chain_flags : list Z) (tid : nat) :
  let read_id := wrap32 (Z.of_nat tid + read_begin chunk) in
  let kernel :=
    chain_filter_kernel chain_index chain_ranges chain_weights mask_level
      chain_drop_ratio min_seed_len chunk n_chains chain_reads in
  (n_chains ≤ length chain_reads)%nat →
  (n_chains ≤ length chain_ranges)%nat →
  (n_chains ≤ length chain_flags)%nat →
  ranking (take n_chains chain_reads) weights
    (take n_chains chain_weights) (take n_chains chain_index) →
  read_id < read_end chunk →
  read_id ∈ take n_chains chain_reads →
  ∃ c : Z,
    chain_index !! lower_bound read_id (take n_chains chain_reads) = Some c ∧
    load (take n_chains chain_reads) c = Some read_id ∧
    (∃ flags', kernel chain_flags tid = Some flags' ∧ load flags' c = Some 1) ∧
    (∀ tids flags0 flags', tid ∈ tids →
       launch kernel tids flags0 = Some flags' → load flags' c = Some 1).
Proof.
  intros read_id kernel Hlr Hlg Hlf Hrank Hin Hread.
  set (reads := take n_chains chain_reads) in *.
  assert (length reads = n_chains) as Hlen by (subst reads; rewrite length_take; lia).
  assert (Sorted Z.le reads) as Hsr by apply Hrank.
  apply list_elem_of_lookup in Hread as [p Hp].
  apply bounds_range in Hp as Hp'; [|done].
  pose proof (upper_bound_le_length read_id reads) as Hub. rewrite Hlen in Hub.
  destruct (ranking_tables n_chains chain_reads weights chain_weights chain_index Hlr Hrank)
    as [Hw Hi].
  destruct (Hi (lower_bound read_id reads)) as (c & Hc & Hcn); [lia|].
  exists c. split; [done|]. split_and!.
  - unfold load.
    rewrite (ranking_same_read _ _ _ _ Hrank (lower_bound read_id reads) c).
    + apply bounds_range; [done|lia].
    + rewrite lookup_take_lt; [done|lia].
  - destruct (chain_filter_kernel_total chain_index chain_ranges chain_weights
                mask_level chain_drop_ratio min_seed_len n_chains Hw Hi Hlg
                chunk n_chains chain_reads chain_flags tid) as [flags' Hk];
      [fold read_id reads; lia..|].
    exists flags'. split; [done|].
    destruct (chain_filter_kernel_first _ _ _ _ _ _ _ _ _ _ _ _ Hin Hk) as (c' & Hc' & Hf).
    fold read_id reads in Hc'. by simplify_eq.
  - intros tids flags0 flags' Htid Hl.
    apply list_elem_of_split in Htid as (t1 & t2 & ->).
    rewrite launch_app in Hl.
    destruct (launch kernel t1 flags0) as [flags1|]; [|done].
    cbn [mbind option_bind launch] in Hl.
    destruct (kernel flags1 tid) as [flags2|] eqn:Hk; [|done].
    cbn [mbind option_bind] in Hl.
    destruct (chain_filter_kernel_first _ _ _ _ _ _ _ _ _ _ _ _ Hin Hk) as (c' & Hc' & Hf).
    fold read_id reads in Hc'. simplify_eq.
    apply launch_filter_kept in Hl as [_ Hl]. by apply Hl.
Qed.

(** ** The pairwise test *)

Lemma weight_of_key_range key : is_uint32 (weight_of_key key).
Proof.
  unfold weight_of_key, is_uint32. change 0xFFFFFFFF with (Z.ones 32).
  rewrite Z.land_ones by lia. apply Z.mod_pos_bound. lia.
Qed.

(** a chain that is not lighter than an accepted chain is never dominated *)
Lemma dominance_break_heavier i_w j_w (chain_drop_ratio : float) min_seed_len :
  0 <= j_w → j_w <= i_w → i_w < 2 ^ 32 →
  is_float chain_drop_ratio →
  float_le chain_drop_ratio (float_of_uint32 1) = true →
  dominance_break i_w j_w chain_drop_ratio min_seed_len = false.
Proof.
  intros Hj Hji Hi Hf Hr. unfold dominance_break.
  apply andb_false_intro1. by apply float_ratio_not_above.
Qed.

(** C10. The keys being sorted in ascending order, the chain at the first
    rank of a read's sub-range is a chain of least weight of that read; for
    every pair of ranks [j < i] of the sub-range the weight at [j] is at most
    the weight at [i], so that with [chain_drop_ratio] in (0,1] the dominance
    test is false; and the inner scan of the chain at rank [i] over [n]
    accepted chains never leaves the loop early: it ends with
    [j = begin + n]. *)
Theorem dominance_break_unreachable
    (chain_index : list Z) (chain_ranges : list uint2) (chain_weights : list Z)
    (mask_level chain_drop_ratio : float) (min_seed_len : Z)
    (n_chains : nat) (chain_reads weights : list Z) (read : Z) :
  let begin := lower_bound read (take n_chains chain_reads) in
  let end_ := upper_bound read (take n_chains chain_reads) in
  (n_chains ≤ length chain_reads)%nat →
  ranking (take n_chains chain_reads) weights
    (take n_chains chain_weights) (take n_chains chain_index) →
  is_float chain_drop_ratio →
  float_lt (float_of_uint32 0) chain_drop_ratio = true →
  float_le chain_drop_ratio (float_of_uint32 1) = true →
  (∀ c0 k0, chain_index !! begin = Some c0 → chain_weights !! begin = Some k0 →
     (begin < end_)%nat →
     load (take n_chains chain_reads) c0 = Some read ∧
     load weights c0 = Some (weight_of_key k0) ∧
     ∀ c w, 0 <= c → load (take n_chains chain_reads) c = Some read →
            load weights c = Some w → weight_of_key k0 <= w) ∧
  (∀ i j ki kj, (begin ≤ j)%nat → (j < i)%nat → (i < end_)%nat →
     chain_weights !! i = Some ki → chain_weights !! j = Some kj →
     weight_of_key kj <= weight_of_key ki ∧
     dominance_break (weight_of_key ki) (weight_of_key kj)
       chain_drop_ratio min_seed_len = false) ∧
  (∀ i ci i_span ki n flags j' flags',
     (begin + n ≤ i)%nat → (i < end_)%nat → chain_weights !! i = Some ki →
     inner_scan chain_index chain_ranges chain_weights mask_level chain_drop_ratio
       min_seed_len ci i_span (weight_of_key ki) n begin flags = Some (j', flags') →
     j' = (begin + n)%nat).
Proof.
  intros begin end_ Hlr Hrank Hrf Hr0 Hr1.
  set (reads := take n_chains chain_reads) in *.
  assert (length reads = n_chains) as Hlen by (subst reads; rewrite length_take; lia).
  pose proof (upper_bound_le_length read reads) as Hub. rewrite Hlen in Hub. fold end_ in Hub.
  pose proof (ranking_permutation _ _ _ _ Hrank) as Hperm.
  pose proof (λ p c, ranking_range _ _ _ _ Hrank read p c) as Hrange.
  pose proof (ranking_weights_ordered _ _ _ _ Hrank read) as Hord.
  pose proof (ranking_key _ _ _ _ Hrank) as Hkey.
  fold reads begin end_ in Hrange, Hord.
  assert (∀ i j ki kj, (begin ≤ j)%nat → (j < i)%nat → (i < end_)%nat →
     chain_weights !! i = Some ki → chain_weights !! j = Some kj →
     weight_of_key kj <= weight_of_key ki) as Hpair.
  { intros i j ki kj ? ? ? Hi Hj.
    apply (Hord j i kj ki); try lia; by rewrite lookup_take_lt by lia. }
  split_and!.
  - intros c0 k0 Hc0 Hk0 Hne.
    assert (take n_chains chain_index !! begin = Some c0) as Hc0'
      by (rewrite lookup_take_lt; [done|lia]).
    assert (take n_chains chain_weights !! begin = Some k0) as Hk0'
      by (rewrite lookup_take_lt; [done|lia]).
    split_and!.
    + apply (Hrange begin c0 Hc0'). lia.
    + by apply (Hkey begin c0 k0).
    + intros c w Hc Hcr Hcw.
      assert (Z.to_nat c < n_chains)%nat as Hcn.
      { apply lookup_lt_Some in Hcr. lia. }
      assert (c ∈ take n_chains chain_index) as Hin.
      { rewrite Hperm. apply list_elem_of_fmap. exists (Z.to_nat c).
        split; [lia|]. apply elem_of_seq. lia. }
      apply list_elem_of_lookup in Hin as [p Hp].
      apply (Hrange p c Hp) in Hcr.
      pose proof (ranking_lengths _ _ _ _ Hrank) as [Hl1 Hl2].
      destruct (lookup_lt_is_Some_2 (take n_chains chain_weights) p) as [k Hk]; [lia|].
      destruct (Hkey p c k Hp Hk) as [Hw _]. simplify_eq.
      apply (Hord begin p k0 k); done || lia.
  - intros i j ki kj ? ? ? Hi Hj.
    assert (weight_of_key kj <= weight_of_key ki) by by eapply Hpair.
    split; [done|]. apply dominance_break_heavier; [|done| |done..];
      apply weight_of_key_range.
  - intros i ci i_span ki n flags j' flags' Hn Hi Hki Hs.
    eapply inner_scan_no_break; [|exact Hs].
    intros j0 kj Hj0 Hkj.
    apply dominance_break_heavier; [apply weight_of_key_range| |apply weight_of_key_range|done..].
    apply (Hpair i j0 ki kj); done || lia.
Qed.

(** one iteration of the inner scan, on tables that hold the accepted chain:
    the flag of the chain at rank [i] is set when the overlap is significant,
    and the loop is left, [j] unchanged, when the chain is also dominated *)
Lemma inner_scan_one chain_index chain_ranges chain_weights mask_level
    chain_drop_ratio min_seed_len ci i_span i_w j flags cj j_span kj :
  chain_index !! j = Some cj → load chain_ranges cj = Some j_span →
  chain_weights !! j = Some kj → (ci < length flags)%nat →
  inner_scan chain_index chain_ranges chain_weights mask_level chain_drop_ratio
    min_seed_len ci i_span i_w 1 j flags
  = Some (if have_overlap i_span j_span && significant_overlap i_span j_span mask_level
          then (if dominance_break i_w (weight_of_key kj) chain_drop_ratio min_seed_len
                then j else S j, <[ci := 1]> flags)
          else (S j, flags)).
Proof.
  intros Hcj Hsp Hkj Hci. cbn [inner_scan].
  rewrite Hcj. cbn [mbind option_bind]. rewrite Hsp, Hkj. cbn [mbind option_bind].
  destruct (have_overlap i_span j_span);
    [destruct (significant_overlap i_span j_span mask_level)|]; cbn [andb]; try done.
  unfold store. rewrite decide_True by done. cbn [mbind option_bind].
  by destruct (dominance_break _ _ _ _).
Qed.






(** ** Compaction *)

Lemma select_flagged_cons {A} (a : A) (l : list A) (f : Z) (fs : list Z) :
  select_flagged (a :: l) (f :: fs)
  = if decide (f ≠ 0) then a :: select_flagged l fs else select_flagged l fs.
Proof.
  unfold select_flagged. cbn [zip zip_with]. rewrite filter_cons. cbn [snd].
  by case_decide.
Qed.

Lemma select_flagged_length {A} (l : list A) : ∀ flags,
  length l = length flags →
  length (select_flagged l flags) = length (filter (λ f, f ≠ 0) flags).
Proof.
  induction l as [|a l IH]; intros [|f fs] Hl; try done.
  rewrite select_flagged_cons, filter_cons.
  case_decide; cbn [length]; rewrite IH; auto.
Qed.

Lemma select_flagged_zip {A B} (l : list A) : ∀ (k : list B) flags,
  length l = length flags → length k = length flags →
  select_flagged (zip l k) flags = zip (select_flagged l flags) (select_flagged k flags).
Proof.
  induction l as [|a l IH]; intros [|b k] [|f fs] Hl Hk; try done.
  cbn [zip zip_with]. rewrite !select_flagged_cons.
  case_decide; cbn [zip zip_with]; rewrite <- IH; auto.
Qed.

Lemma select_flagged_sublist {A} (l : list A) : ∀ flags,
  sublist (select_flagged l flags) l.
Proof.
  induction l as [|a l IH]; intros [|f fs]; try done.
  - apply sublist_nil_l.
  - rewrite select_flagged_cons. case_decide; [by apply sublist_skip|by apply sublist_cons].
Qed.

(** C7. Compaction keeps, of each of the three chain tables, exactly the
    entries whose flag is set, in their order; the selection is the same for
    the three tables, so the compacted tables hold at each position the read
    id, the offset and the length of one kept chain; the number of kept
    chains is the number of set flags, is at most [n_chains], is stored as
    the chain count and is added to the statistic of kept chains. *)
Theorem compaction_keeps_flagged_chains
    (n : nat) (chain_flags chain_index : list Z) (p : pipeline_context) :
  let m := mem p in
  let p' := compact_chains n chain_flags chain_index p in
  let flags := take n chain_flags in
  let n' := length (filter (λ f, f ≠ 0) flags) in
  let reads := take n (chain_reads m) in
  let offsets := take n (chain_offsets m) in
  let lengths := take n (chain_lengths m) in
  let reads' := take n' (chain_reads (mem p')) in
  let offsets' := take n' (chain_offsets (mem p')) in
  let lengths' := take n' (chain_lengths (mem p')) in
  (n ≤ length chain_flags)%nat →
  (n ≤ length (chain_reads m))%nat →
  (n ≤ length (chain_offsets m))%nat →
  (n ≤ length (chain_lengths m))%nat →
  reads' = select_flagged reads flags ∧
  offsets' = select_flagged offsets flags ∧
  lengths' = select_flagged lengths flags ∧
  zip reads' (zip offsets' lengths')
    = select_flagged (zip reads (zip offsets lengths)) flags ∧
  sublist reads' reads ∧ sublist offsets' offsets ∧ sublist lengths' lengths ∧
  (n' ≤ n)%nat ∧
  n_chains (mem p') = Z.of_nat n' ∧
  stats_n_chains p' = stats_n_chains p + Z.of_nat n'.
Proof.
  intros m p' flags n' reads offsets lengths reads' offsets' lengths' Hf Hr Ho Hl.
  assert (length flags = n) as Hlf by (subst flags; rewrite length_take; lia).
  assert (length reads = n) as Hlr by (subst reads; rewrite length_take; lia).
  assert (length offsets = n) as Hlo by (subst offsets; rewrite length_take; lia).
  assert (length lengths = n) as Hll by (subst lengths; rewrite length_take; lia).
  assert (length (select_flagged reads flags) = n') as Hn1
    by (apply select_flagged_length; lia).
  assert (length (select_flagged offsets flags) = n') as Hn2
    by (apply select_flagged_length; lia).
  assert (length (select_flagged lengths flags) = n') as Hn3
    by (apply select_flagged_length; lia).
  assert (reads' = select_flagged reads flags) as Hreads.
  { subst reads' p'. unfold compact_chains, copy_flagged. cbn [mem chain_reads].
    fold m reads flags. rewrite <- Hn1. apply take_copy_into. }
  assert (offsets' = select_flagged offsets flags) as Hoffsets.
  { subst offsets' p'. unfold compact_chains, copy_flagged. cbn [mem chain_offsets].
    fold m offsets flags. rewrite <- Hn2. apply take_copy_into. }
  assert (lengths' = select_flagged lengths flags) as Hlengths.
  { subst lengths' p'. unfold compact_chains, copy_flagged. cbn [mem chain_lengths].
    fold m lengths flags. rewrite <- Hn3. apply take_copy_into. }
  split_and!; try done.
  - rewrite Hreads, Hoffsets, Hlengths.
    rewrite !select_flagged_zip; rewrite ?length_zip_with; done || lia.
  - rewrite Hreads. apply select_flagged_sublist.
  - rewrite Hoffsets. apply select_flagged_sublist.
  - rewrite Hlengths. apply select_flagged_sublist.
  - subst n'. pose proof (length_filter (λ f, f ≠ 0) flags). lia.
  - subst p'. unfold compact_chains, copy_flagged. cbn [mem n_chains].
    fold m reads flags. by rewrite Hn1.
  - subst p'. unfold compact_chains, copy_flagged. cbn [stats_n_chains].
    fold m reads flags. by rewrite Hn1.
Qed.

(** After a scan that ran to its end, [j] is [begin + n], and the test
    [j == n] holds only in a sub-range that starts at rank 0: elsewhere the
    chain is neither marked by this test nor counted as accepted. *)
Lemma filter_step_after_full_scan chain_index chain_ranges chain_weights
    mask_level chain_drop_ratio min_seed_len begin i n flags ci i_span ki flags1 :
  chain_index !! i = Some ci → load chain_ranges ci = Some i_span →
  chain_weights !! i = Some ki →
  inner_scan chain_index chain_ranges chain_weights mask_level chain_drop_ratio
    min_seed_len (Z.to_nat ci) i_span (weight_of_key ki) n begin flags
    = Some ((begin + n)%nat, flags1) →
  filter_step chain_index chain_ranges chain_weights mask_level chain_drop_ratio
    min_seed_len begin i (n, flags)
  = if decide (begin = 0%nat)
    then flags2 ← store flags1 (Z.to_nat ci) 1; Some (S n, flags2)
    else Some (n, flags1).
Proof.
  intros Hci Hsp Hki Hscan. unfold filter_step.
  rewrite Hci. cbn [mbind option_bind]. rewrite Hsp, Hki. cbn [mbind option_bind].
  rewrite Hscan. cbn [mbind option_bind].
  destruct (decide (begin = 0%nat)) as [->|Hne].
  - by rewrite decide_True by lia.
  - by rewrite decide_False by lia.
Qed.


(** ** The stages in sequence *)

Lemma wrap32_range z : is_uint32 (wrap32 z).
Proof. unfold is_uint32, wrap32. apply Z.mod_pos_bound. lia. Qed.

Lemma coverage_step_weight st sp : is_uint32 st.2 → is_uint32 (coverage_step st sp).2.
Proof.
  destruct st as [range weight]. unfold coverage_step. cbn [snd]. intros Hw.
  repeat case_match; done || apply wrap32_range.
Qed.

Lemma coverage_fold_weight spans : ∀ st,
  is_uint32 st.2 → is_uint32 (fold_left coverage_step spans st).2.
Proof.
  induction spans as [|sp spans IH]; intros st Hst; [done|].
  cbn [fold_left]. by apply IH, coverage_step_weight.
Qed.

(** a thread of the coverage kernel writes the slots of its chain only, and
    the key it writes carries the read of the chain and a 32-bit weight *)
Lemma chain_coverage_kernel_slot n chain_reads chain_offsets chain_lengths
    mems mems_index out c out' :
  chain_coverage_kernel n chain_reads chain_offsets chain_lengths mems mems_index out c
    = Some out' →
  length out'.2 = length out.2 ∧
  (∀ c', c' ≠ c → out'.2 !! c' = out.2 !! c') ∧
  ((c < n)%nat → ∃ r w, chain_reads !! c = Some r ∧ is_uint32 w ∧
                        out'.2 !! c = Some (weight_key r w)).
Proof.
  unfold chain_coverage_kernel. intros Hs. case_decide as Hc.
  { simplify_eq. split_and!; [done|done|lia]. }
  destruct (chain_reads !! c) as [r|]; [|done]. cbn [mbind option_bind] in Hs.
  destruct (chain_offsets !! c) as [b|]; [|done]. cbn [mbind option_bind] in Hs.
  destruct (chain_lengths !! c) as [l|]; [|done]. cbn [mbind option_bind] in Hs.
  rewrite coverage_loop_fold in Hs.
  destruct (chain_spans _ _ _ _) as [spans|]; [|done]. cbn [mbind option_bind] in Hs.
  destruct (store out.1 c _) as [ranges|]; [|done]. cbn [mbind option_bind] in Hs.
  destruct (store out.2 c _) as [weights|] eqn:Hst; [|done]. cbn [mbind option_bind] in Hs.
  apply store_Some in Hst as [Hlt ->]. simplify_eq. cbn [snd].
  split_and!.
  - apply length_insert.
  - intros c' Hne. by rewrite list_lookup_insert_ne.
  - intros _. eexists r, _. split_and!; [done| |by apply list_lookup_insert_eq].
    by apply coverage_fold_weight.
Qed.

Lemma launch_coverage_slots n chain_reads chain_offsets chain_lengths mems mems_index
    out threads : ∀ out',
  launch (chain_coverage_kernel n chain_reads chain_offsets chain_lengths mems mems_index)
    (seq 0 threads) out = Some out' →
  length out'.2 = length out.2 ∧
  ∀ c, (c < threads)%nat → (c < n)%nat →
    ∃ r w, chain_reads !! c = Some r ∧ is_uint32 w ∧ out'.2 !! c = Some (weight_key r w).
Proof.
  induction threads as [|t IH]; intros out' Hs.
  - simplify_eq/=. split; [done|lia].
  - rewrite seq_S, launch_app in Hs. cbn [plus] in Hs.
    destruct (launch _ (seq 0 t) out) as [out1|]; [|done].
    cbn [mbind option_bind launch] in Hs.
    destruct (chain_coverage_kernel _ _ _ _ _ _ out1 t) as [out2|] eqn:Ht; [|done].
    cbn [mbind option_bind] in Hs. simplify_eq.
    destruct (IH out1 eq_refl) as [Hl1 Hs1].
    apply chain_coverage_kernel_slot in Ht as (Hl2 & Hother & Hown).
    split; [congruence|]. intros c Hc Hn.
    destruct (decide (c = t)) as [->|Hne]; [by apply Hown|].
    rewrite Hother by done. apply Hs1; lia.
Qed.

Lemma divide_ri_threads n : (n ≤ divide_ri n block_dim * block_dim)%nat.
Proof.
  unfold divide_ri, block_dim.
  pose proof (Nat.div_mod_eq (n + 128 - 1) 128).
  pose proof (Nat.mod_upper_bound (n + 128 - 1) 128). lia.
Qed.

(** the keys of the coverage stage are the keys of 32-bit weights *)
Lemma compute_coverage_keys n m chain_ranges chain_weights0 :
  compute_coverage n m = Some (chain_ranges, chain_weights0) →
  (n ≤ length (chain_reads m))%nat →
  Forall is_uint32 (take n (chain_reads m)) →
  length chain_weights0 = n ∧
  Forall is_uint32 (weight_of_key <$> chain_weights0) ∧
  zip_with weight_key (take n (chain_reads m)) (weight_of_key <$> chain_weights0)
    = chain_weights0.
Proof.
  unfold compute_coverage. intros Hs Hlr Hur.
  apply launch_coverage_slots in Hs as [Hl Hslots]. cbn [snd] in Hl, Hslots.
  rewrite length_replicate in Hl. split_and!; [done| |].
  - apply Forall_fmap, Forall_forall. intros k _. apply weight_of_key_range.
  - apply list_eq. intros c.
    destruct (decide (c < n)%nat) as [Hc|Hc].
    + destruct (Hslots c) as (r & w & Hr & Hw & Hk); [|done|].
      { pose proof (divide_ri_threads n). lia. }
      assert (is_uint32 r).
      { rewrite Forall_forall in Hur. apply Hur.
        apply list_elem_of_lookup. exists c. by rewrite lookup_take_lt. }
      rewrite Hk. apply lookup_zip_with_Some. exists r, w. split_and!.
      * done.
      * by rewrite lookup_take_lt.
      * rewrite list_lookup_fmap, Hk. cbn. by rewrite weight_of_weight_key.
    + rewrite !lookup_ge_None_2; [done|lia|].
      rewrite length_zip_with, length_take, length_fmap. lia.
Qed.

(** ** The ranking of the chains *)

(** C3. Sorting the composite keys [(read_id << 32) | weight] of a chain
    table that is sorted by read, as the ranking stage does, yields a
    permutation [chain_index] of the chains in which the ranks of the chains
    of any read are exactly the sub-range between the lower and the upper
    bound of the read id in the chain table; within that sub-range the
    weights are in ascending order, and the key at a rank carries the weight
    and the read id of the chain at that rank.  The keys that the coverage
    pass leaves are such keys. *)
Theorem ranking_groups_chains_by_read
    (n reserved_space : nat) (reads weights : list Z) (read : Z) :
  length reads = n → length weights = n → (n ≤ reserved_space)%nat →
  Sorted Z.le reads →
  Forall is_uint32 reads → Forall is_uint32 weights →
  let keys := zip_with weight_key reads weights in
  let chain_weights := take n (rank_chains n reserved_space keys).1 in
  let chain_index := take n (rank_chains n reserved_space keys).2 in
  let begin := lower_bound read reads in
  let end_ := upper_bound read reads in
  chain_index ≡ₚ Z.of_nat <$> seq 0 n ∧
  (∀ p c, chain_index !! p = Some c →
     load reads c = Some read ↔ (begin ≤ p < end_)%nat) ∧
  (∀ p q kp kq, (begin ≤ p)%nat → (p ≤ q)%nat → (q < end_)%nat →
     chain_weights !! p = Some kp → chain_weights !! q = Some kq →
     weight_of_key kp <= weight_of_key kq) ∧
  (∀ p c k, chain_index !! p = Some c → chain_weights !! p = Some k →
     load weights c = Some (weight_of_key k) ∧
     load reads c = Some (hi_bits k)) ∧
  (∀ m chain_ranges keys0,
     take n (chain_reads m) = reads →
     compute_coverage n m = Some (chain_ranges, keys0) →
     ∃ weights0, length weights0 = n ∧ Forall is_uint32 weights0 ∧
                 keys0 = zip_with weight_key reads weights0).
Proof.
  intros Hlr Hlw Hres Hsorted Hur Huw keys chain_weights chain_index begin end_.
  assert (ranking reads weights chain_weights chain_index) as Hrank.
  { unfold ranking. split_and!; [lia|done..|]. rewrite Hlr.
    apply rank_chains_sorts; [|done].
    unfold keys. rewrite length_zip_with. lia. }
  split_and!.
  - rewrite <- Hlr. by eapply ranking_permutation.
  - intros p c Hc. by eapply ranking_range.
  - intros p q kp kq ?????. by eapply (ranking_weights_ordered _ _ _ _ Hrank read p q).
  - intros p c k Hc Hk. by eapply ranking_key.
  - intros m chain_ranges keys0 Hm Hcov.
    apply compute_coverage_keys in Hcov as (Hlk & Hw & Hk).
    + exists (weight_of_key <$> keys0). rewrite length_fmap, <- Hm. done.
    + rewrite <- Hm, length_take in Hlr. lia.
    + by rewrite Hm.
Qed.

(** On seeds sorted by chain identifier, the tables that [filter_chains] hands
    to the filter kernel are a ranking of the chain table of the chunk. *)
Lemma filter_stages_tables opts n_reads n_mems p flags p' :
  Sorted Z.le (take n_mems (mems_chain (mem p))) →
  Forall (λ c, 0 <= c < 2 ^ 64) (take n_mems (mems_chain (mem p))) →
  filter_stages opts n_reads n_mems p = Some (flags, p') →
  ∃ n m chain_ranges chain_weights chain_index weights,
    group_chains n_mems (mem p) = Some (n, m) ∧
    ranking (take n (chain_reads m)) weights
      (take n chain_weights) (take n chain_index) ∧
    length (take n (chain_reads m)) = n ∧
    flag_chains opts (chunk p) n n_reads m chain_index chain_ranges chain_weights
      = Some flags ∧
    p' = compact_chains n flags chain_index
           (make_pipeline (chunk p) m (stats_n_chains p) (stats_chain_time p)).
Proof.
  intros Hs Hr Hst.
  unfold filter_stages in Hst.
  destruct (group_chains n_mems (mem p)) as [[n0 m0]|] eqn:Eg; [|done].
  cbn [mbind option_bind] in Hst.
  destruct (group_chains_tables n_mems n0 (mem p) m0 Eg) as (Hn & _ & _ & Hreads).
  pose proof (group_chains_reads_sorted n_mems n0 (mem p) m0 Eg Hs Hr) as Hsorted.
  assert (length (take n0 (chain_reads m0)) = n0) as Hlen.
  { by rewrite Hreads, !length_fmap. }
  assert (Forall is_uint32 (take n0 (chain_reads m0))) as Hur.
  { rewrite Hreads. apply Forall_fmap, Forall_forall. intros k _. apply wrap32_range. }
  clear Hn Hreads.
  destruct (compute_coverage n0 m0) as [[chain_ranges chain_weights0]|] eqn:Ec; [|done].
  cbn [mbind option_bind] in Hst.
  destruct (rank_chains n0 _ chain_weights0) as [chain_weights chain_index] eqn:Er.
  destruct (flag_chains _ _ _ _ _ _ _ _) as [flags0|] eqn:Ef; [|done].
  cbn [mbind option_bind] in Hst. simplify_eq.
  apply compute_coverage_keys in Ec as (Hlk & Huw & Hkeys);
    [|rewrite length_take in Hlen; lia|done].
  exists n0, m0, chain_ranges, chain_weights, chain_index, (weight_of_key <$> chain_weights0).
  split_and!; try done.
  unfold ranking. split_and!; try done.
  - by rewrite length_fmap, Hlen.
  - rewrite Hkeys, Hlen.
    pose proof (rank_chains_sorts n0 (length (chain_lengths (mem p)) `max` n0)
                  chain_weights0 Hlk) as Hrk.
    rewrite Er in Hrk. apply Hrk. lia.
Qed.

(** After the stages, every read of the chunk that has a chain has a chain
    whose flag is set. *)
Lemma filter_stages_keeps_a_chain opts n_reads n_mems p flags p' n m (tid : nat) :
  group_chains n_mems (mem p) = Some (n, m) →
  let reads := take n (chain_reads m) in
  let read_id := wrap32 (Z.of_nat tid + read_begin (chunk p)) in
  Sorted Z.le (take n_mems (mems_chain (mem p))) →
  Forall (λ c, 0 <= c < 2 ^ 64) (take n_mems (mems_chain (mem p))) →
  filter_stages opts n_reads n_mems p = Some (flags, p') →
  (tid < n_reads)%nat → read_id < read_end (chunk p) → read_id ∈ reads →
  ∃ c, load reads c = Some read_id ∧ load flags c = Some 1.
Proof.
  intros Hg reads read_id Hs Hr Hst Htid Hend Hin.
  destruct (filter_stages_tables _ _ _ _ _ _ Hs Hr Hst)
    as (n1 & m1 & chain_ranges & chain_weights & chain_index & weights & Hg1 & Hrank
        & Hlen & Hfl & _).
  rewrite Hg in Hg1. simplify_eq. fold reads in Hrank, Hlen.
  unfold flag_chains in Hfl.
  assert (tid ∈ seq 0 (divide_ri n_reads block_dim * block_dim)) as Hmem.
  { apply elem_of_seq. pose proof (divide_ri_threads n_reads). lia. }
  apply list_elem_of_split in Hmem as (t1 & t2 & Htids). rewrite Htids in Hfl.
  rewrite launch_app in Hfl.
  destruct (launch _ t1 _) as [flags1|]; [|done].
  cbn [mbind option_bind launch] in Hfl.
  destruct (chain_filter_kernel _ _ _ _ _ _ _ _ _ flags1 tid) as [flags2|] eqn:Hk; [|done].
  cbn [mbind option_bind] in Hfl.
  destruct (chain_filter_kernel_first _ _ _ _ _ _ _ _ _ _ _ _ Hend Hk) as (c & Hc & Hf).
  fold read_id reads in Hc.
  apply launch_filter_kept in Hfl as [_ Hkept].
  exists c. split; [|by apply Hkept].
  assert (Sorted Z.le reads) as Hsr by apply Hrank.
  apply list_elem_of_lookup in Hin as [q Hq].
  apply bounds_range in Hq as Hq'; [|done].
  pose proof (upper_bound_le_length read_id reads) as Hub.
  unfold load.
  rewrite (ranking_same_read _ _ _ _ Hrank (lower_bound read_id reads) c).
  - apply bounds_range; [done|lia].
  - rewrite lookup_take_lt; [done|lia].
Qed.

(** ** The filter on the example chunks *)

(** C2, at a read whose sub-range does not start at rank 0.  In
    [two_reads_pipeline] the second chain of read 1 (rank 2) does not
    intersect the accepted chain of that read (rank 1): the inner scan ends
    with [j = begin + n = 2], the test [j == n] compares it with [n = 1], and
    the chain is neither marked nor counted as accepted.  The same three
    chains filed under read 0, whose sub-range starts at rank 0, are all
    kept. *)
Lemma accepted_chain_of_later_read_dropped :
  let opts := example_options in
  let m := two_reads_grouped in
  group_chains 3 (mem two_reads_pipeline) = Some (3%nat, m)
  ∧ take 3 (chain_reads m) = [0; 1; 1]
  ∧ compute_coverage 3 m = Some (two_reads_ranges, two_reads_weights)
  ∧ rank_chains 3 3 two_reads_weights = (two_reads_weights, two_reads_index)
  ∧ lower_bound 1 [0; 1; 1] = 1%nat ∧ upper_bound 1 [0; 1; 1] = 3%nat
  ∧ inner_scan two_reads_index two_reads_ranges two_reads_weights
      (mask_level opts) (chain_drop_ratio opts) (min_seed_len opts)
      2 (make_uint2 100 120) 20 1 1 [1; 1; 0] = Some (2%nat, [1; 1; 0])
  ∧ filter_step two_reads_index two_reads_ranges two_reads_weights
      (mask_level opts) (chain_drop_ratio opts) (min_seed_len opts)
      1 2 (1%nat, [1; 1; 0]) = Some (1%nat, [1; 1; 0])
  ∧ fst <$> filter_stages opts 2 3 two_reads_pipeline = Some [1; 1; 0]
  ∧ fst <$> filter_stages opts 1 3 one_read_pipeline = Some [1; 1; 1].
Proof. by vm_compute. Qed.

(** C8, at a read without chains.  In [empty_read_pipeline] read 0 has no
    chain ([begin = end = 0]), and its thread sets the flag of the chain at
    rank 0, a chain of read 1.  In [empty_last_read_pipeline] the read
    without chains is the last one: [begin] is [n_chains], and its thread
    reads [chain_index] past the ranked chains. *)
Lemma zero_chain_read_sets_a_flag :
  let opts := example_options in
  let m := empty_read_grouped in
  let m' := empty_last_read_grouped in
  group_chains 1 (mem empty_read_pipeline) = Some (1%nat, m)
  ∧ group_chains 1 (mem empty_last_read_pipeline) = Some (1%nat, m')
  ∧ take 1 (chain_reads m) = [1]
  ∧ compute_coverage 1 m = Some ([make_uint2 0 10], [weight_key 1 10])
  ∧ rank_chains 1 1 [weight_key 1 10] = ([weight_key 1 10], [0])
  ∧ lower_bound 0 [1] = 0%nat ∧ upper_bound 0 [1] = 0%nat
  ∧ chain_filter_kernel [0] [make_uint2 0 10] [weight_key 1 10]
      (mask_level opts) (chain_drop_ratio opts) (min_seed_len opts)
      (chunk empty_read_pipeline) 1 [1] [0] 0 = Some [1]
  ∧ take 1 (chain_reads m') = [0]
  ∧ compute_coverage 1 m' = Some ([make_uint2 0 10], [weight_key 0 10])
  ∧ rank_chains 1 1 [weight_key 0 10] = ([weight_key 0 10], [0])
  ∧ lower_bound 1 [0] = 1%nat ∧ upper_bound 1 [0] = 1%nat
  ∧ chain_filter_kernel [0] [make_uint2 0 10] [weight_key 0 10]
      (mask_level opts) (chain_drop_ratio opts) (min_seed_len opts)
      (chunk empty_last_read_pipeline) 1 [0] [0] 1 = None
  ∧ filter_stages opts 2 1 empty_last_read_pipeline = None.
Proof. by vm_compute. Qed.

(** C9, on the chunk that follows [two_reads_pipeline].  It has no seed:
    [filter_chains] returns at line 157, before the assignment of line 299,
    and only the timer has run; the chain count is still the 2 of the chunk
    before, and the chain tables still hold its chains, where the chunk has
    no chain. *)
Lemma zero_seed_chunk_keeps_previous_chains :
  let p := next_chunk_pipeline in
  wrap32 (mem_end (chunk p) - mem_begin (chunk p)) = 0
  ∧ filter_chains example_options one_second p = Some (stop_timer one_second p)
  ∧ mem (stop_timer one_second p) = mem p
  ∧ n_chains (mem p) = 2
  ∧ take 2 (chain_reads (mem p)) = [0; 1]
  ∧ ¬ (∃ p', filter_chains example_options one_second p = Some p'
             ∧ n_chains (mem p') = 0).
Proof.
  split_and!; try by vm_compute.
  intros (p' & Hp' & Hn). vm_compute in Hp'. injection Hp' as <-. by vm_compute in Hn.
Qed.


(** ** The theorems at concrete inputs *)

Lemma coverage_weight_is_union_length_witness :
  ∃ range : uint2,
    chain_coverage_kernel 1 [7] [0] [4] four_seeds [0; 1; 2; 3]
      ([make_uint2 0 0], [0]) 0
    = Some ([range], [weight_key 7 18])
    ∧ x range = 0 ∧ y range = 25.
Proof.
  destruct (coverage_weight_is_union_length 1 [7] [0] [4] four_seeds [0; 1; 2; 3]
              ([make_uint2 0 0], [0]) 0%nat 7 0 4
              [make_uint2 0 10; make_uint2 5 12; make_uint2 12 13; make_uint2 20 25])
    as (range & Hk & _ & Hall & _ & _).
  - lia.
  - simpl; lia.
  - simpl; lia.
  - reflexivity.
  - reflexivity.
  - reflexivity.
  - lia.
  - lia.
  - lia.
  - reflexivity.
  - repeat constructor; simpl; lia.
  - repeat constructor; simpl; lia.
  - exists range. split; [exact Hk|].
    vm_compute in Hk. injection Hk as <-. split; reflexivity.
Defined.

Lemma ranking_groups_chains_by_read_witness :
  take 3 (rank_chains 3 3 (zip_with weight_key ranked_reads ranked_chain_weights)).2
    = ranked_index ∧
  ranked_index ≡ₚ [0; 1; 2] ∧
  load ranked_reads 1 = Some 0 ∧
  weight_of_key (weight_key 0 10) <= weight_of_key (weight_key 0 20).
Proof.
  destruct (ranking_groups_chains_by_read 3 3 ranked_reads ranked_chain_weights 0)
    as (Hperm & Hrange & Hord & _).
  - reflexivity.
  - reflexivity.
  - lia.
  - repeat constructor; lia.
  - repeat constructor; lia.
  - repeat constructor; lia.
  - split_and!.
    + reflexivity.
    + exact Hperm.
    + apply (Hrange 0%nat 1); [reflexivity|]. vm_compute. lia.
    + apply (Hord 0%nat 1%nat); vm_compute; done || lia.
Defined.


Lemma grouping_partitions_seeds_witness :
  let m' := two_reads_grouped in
  group_chains 3 (mem two_reads_pipeline) = Some (3%nat, m')
  ∧ mjoin (zip_with seqZ (take 3 (chain_offsets m')) (take 3 (chain_lengths m')))
    = seqZ 0 3
  ∧ foldr Z.add 0 (take 3 (chain_lengths m')) = 3
  ∧ Sorted Z.le (take 3 (chain_reads m')).
Proof.
  destruct (grouping_partitions_seeds 3 (mem two_reads_pipeline)) as [_ Hpart].
  - simpl. lia.
  - repeat constructor; vm_compute; discriminate.
  - repeat constructor; vm_compute; (discriminate || reflexivity).
  - destruct (Hpart 3%nat two_reads_grouped eq_refl)
      as (_ & _ & _ & Htile & _ & Hsum & _ & Hsorted).
    split_and!; [reflexivity|exact Htile|exact Hsum|exact Hsorted].
Defined.

Lemma ranked_example :
  ranking (take 3 ranked_reads) ranked_chain_weights
    (take 3 ranked_keys) (take 3 ranked_index).
Proof.
  unfold ranking, sorts_by_key. split_and!.
  - reflexivity.
  - repeat constructor; lia.
  - repeat constructor; lia.
  - repeat constructor; lia.
  - reflexivity.
  - apply perm_swap.
  - repeat constructor; vm_compute; discriminate.
Defined.

Lemma first_ranked_chain_kept_witness :
  ranked_index !! 0%nat = Some 1
  ∧ load ranked_reads 1 = Some 0
  ∧ ∃ flags',
      chain_filter_kernel ranked_index ranked_ranges ranked_keys one_half one_half 5
        (make_chunk 0 2 0 3) 3 ranked_reads [0; 0; 0] 0 = Some flags'
      ∧ load flags' 1 = Some 1.
Proof.
  destruct (first_ranked_chain_kept ranked_index ranked_ranges ranked_keys
              one_half one_half 5 (make_chunk 0 2 0 3) 3 ranked_reads
              ranked_chain_weights [0; 0; 0] 0)
    as (c & Hc & Hr & Hk & _).
  - simpl. lia.
  - simpl. lia.
  - simpl. lia.
  - exact ranked_example.
  - reflexivity.
  - vm_compute. apply list_elem_of_here.
  - vm_compute in Hc. injection Hc as <-.
    split_and!; [reflexivity|exact Hr|exact Hk].
Defined.

Lemma compaction_keeps_flagged_chains_witness :
  let p := make_pipeline (make_chunk 0 2 0 3) two_reads_grouped 0 (S754_zero false) in
  let p' := compact_chains 3 [1; 1; 0] [0; 1; 2] p in
  take 2 (chain_reads (mem p')) = [0; 1]
  ∧ take 2 (chain_offsets (mem p')) = [0; 1]
  ∧ take 2 (chain_lengths (mem p')) = [1; 1]
  ∧ n_chains (mem p') = 2
  ∧ stats_n_chains p' = 2.
Proof.
  destruct (compaction_keeps_flagged_chains 3 [1; 1; 0] [0; 1; 2]
              (make_pipeline (make_chunk 0 2 0 3) two_reads_grouped 0 (S754_zero false)))
    as (Hr & Ho & Hl & _ & _ & _ & _ & _ & Hn & Hs).
  - simpl. lia.
  - vm_compute. lia.
  - vm_compute. lia.
  - vm_compute. lia.
  - split_and!; [exact Hr|exact Ho|exact Hl|exact Hn|exact Hs].
Defined.

Lemma dominance_break_unreachable_witness :
  dominance_break (weight_of_key (weight_key 0 20)) (weight_of_key (weight_key 0 10))
    one_half 5 = false
  ∧ ∀ flags j' flags',
      inner_scan ranked_index ranked_ranges ranked_keys one_half one_half 5
        0 (make_uint2 0 20) (weight_of_key (weight_key 0 20)) 1 0 flags
        = Some (j', flags') →
      j' = 1%nat.
Proof.
  destruct (dominance_break_unreachable ranked_index ranked_ranges ranked_keys
              one_half one_half 5 3 ranked_reads ranked_chain_weights 0)
    as (_ & Hpair & Hscan).
  - simpl. lia.
  - exact ranked_example.
  - reflexivity.
  - reflexivity.
  - reflexivity.
  - split.
    + apply (Hpair 1%nat 0%nat); [vm_compute; lia..|reflexivity|reflexivity].
    + intros flags j' flags' Hs.
      apply (Hscan 1%nat 0%nat (make_uint2 0 20) (weight_key 0 20) 1%nat flags j' flags');
        [vm_compute; lia..|reflexivity|exact Hs].
Defined.

(** * Further properties of the code *)

(** ** The composite key *)

(** X1. The composite key orders chains by read id first and by weight among
    the chains of a read, two chains have the same key only if they have the
    same read and the same weight, and the mask of the filter kernel gives
    the weight back. *)
Theorem weight_key_order (r1 w1 r2 w2 : Z) :
  is_uint32 r1 → is_uint32 w1 → is_uint32 r2 → is_uint32 w2 →
  (weight_key r1 w1 <= weight_key r2 w2 ↔ r1 < r2 ∨ (r1 = r2 ∧ w1 <= w2)) ∧
  (weight_key r1 w1 = weight_key r2 w2 ↔ r1 = r2 ∧ w1 = w2) ∧
  weight_of_key (weight_key r1 w1) = w1 ∧
  0 <= weight_key r1 w1 < 2 ^ 64.
Proof.
  intros Hr1 Hw1 Hr2 Hw2.
  pose proof (weight_of_weight_key r1 w1 Hr1 Hw1) as Hmask.
  rewrite !weight_key_add in * by done.
  unfold is_uint32 in *. split_and!; [lia|lia|done|lia|lia].
Qed.

Lemma weight_key_order_witness :
  weight_key 0 20 <= weight_key 1 5 ∧ weight_of_key (weight_key 1 5) = 5.
Proof.
  destruct (weight_key_order 0 20 1 5) as (Hle & _ & _ & _);
    [unfold is_uint32; lia..|].
  destruct (weight_key_order 1 5 1 5) as (_ & _ & Hmask & _);
    [unfold is_uint32; lia..|].
  split; [apply Hle; left; lia|exact Hmask].
Defined.

(** ** The coverage kernel on spans in any order *)

Lemma length_filter_mono (P Q : Z → Prop) `{!∀ p, Decision (P p)} `{!∀ p, Decision (Q p)}
    (l : list Z) :
  (∀ p, p ∈ l → P p → Q p) → (length (filter P l) ≤ length (filter Q l))%nat.
Proof.
  induction l as [|p l IH]; intros Himp; [done|].
  rewrite !filter_cons.
  assert (length (filter P l) ≤ length (filter Q l))%nat
    by (apply IH; intros; apply Himp; [by right|done]).
  assert (P p → Q p) by (apply Himp; left).
  repeat case_decide; simpl; tauto || lia.
Qed.

(** whatever the order of the spans, the loop adds at most the coordinates a
    span newly covers *)
Lemma covered_below_snoc_ge bound done s :
  Forall valid_span done → valid_span s →
  max_end done <= bound → y s <= bound →
  covered_below bound done
    + (if Z.leb (max_end done) (x s) then y s - x s
       else if Z.ltb (max_end done) (y s) then y s - max_end done
       else 0)
  <= covered_below bound (done ++ [s]).
Proof.
  intros Hd [Hs1 Hs2] Hb1 Hb2. unfold covered_below.
  rewrite (length_filter_ext (covered (done ++ [s]))
             (λ p, covered done p ∨ x s <= p < y s)).
  2:{ intros p _. apply covered_snoc. }
  rewrite length_filter_or, Nat2Z.inj_add. apply Z.add_le_mono_l.
  pose proof (max_end_nonneg done) as Hnn.
  destruct (Z.leb_spec (max_end done) (x s)) as [Hc1|Hc1];
    [|destruct (Z.ltb_spec (max_end done) (y s)) as [Hc2|Hc2]].
  - rewrite <- (length_filter_interval (x s) (y s) bound) by lia.
    apply inj_le, length_filter_mono. intros p _ Hp. split; [done|].
    intros Hc%covered_lt_max_end. lia.
  - rewrite <- (length_filter_interval (max_end done) (y s) bound) by lia.
    apply inj_le, length_filter_mono. intros p _ Hp. split; [lia|].
    intros Hc%covered_lt_max_end. lia.
  - lia.
Qed.

Lemma coverage_fold_any_order bound rest : ∀ done rx w,
  Forall valid_span done → Forall valid_span rest →
  max_end (done ++ rest) <= bound < 2 ^ 32 →
  0 <= w <= covered_below bound done →
  ∃ w',
    fold_left coverage_step rest (make_uint2 rx (max_end done), w)
    = (make_uint2 (fold_left (λ m s, Z.min m (x s)) rest rx) (max_end (done ++ rest)), w')
    ∧ 0 <= w' <= covered_below bound (done ++ rest).
Proof.
  induction rest as [|s rest IH]; intros done rx w Hd Hr Hb Hw.
  - exists w. rewrite app_nil_r. by split.
  - apply Forall_cons in Hr as [Hvs Hr].
    rewrite max_end_app, max_end_cons in Hb.
    pose proof (max_end_nonneg done). pose proof (max_end_nonneg rest).
    assert (max_end (done ++ [s]) = Z.max (max_end done) (y s)) as Hme.
    { rewrite max_end_app, max_end_cons. change (max_end []) with 0.
      destruct Hvs as [? ?]. lia. }
    pose proof (covered_below_snoc_ge bound done s Hd Hvs) as Hstep.
    assert (covered_below bound (done ++ [s]) <= bound) as Hle
      by (apply covered_below_le; lia).
    destruct Hvs as [Hv1 Hv2].
    replace (done ++ s :: rest) with ((done ++ [s]) ++ rest) by by rewrite <- app_assoc.
    cbn [fold_left]. unfold coverage_step at 2. cbn [x y]. rewrite <- Hme.
    apply IH; try done.
    + apply Forall_app. split; [done|]. by apply Forall_singleton.
    + rewrite max_end_app, Hme. lia.
    + specialize (Hstep ltac:(lia) ltac:(lia)).
      destruct (Z.leb_spec (max_end done) (x s)) as [Hc1|Hc1];
        [|destruct (Z.ltb_spec (max_end done) (y s)) as [Hc2|Hc2]].
      * rewrite (wrap32_small (y s - x s)) by lia. rewrite wrap32_small by lia. lia.
      * rewrite (wrap32_small (y s - max_end done)) by lia. rewrite wrap32_small by lia. lia.
      * lia.
Qed.

Lemma fold_min_begin_nonneg spans : ∀ rx,
  0 <= rx → Forall valid_span spans → 0 <= fold_left (λ m s, Z.min m (x s)) spans rx.
Proof.
  induction spans as [|s l IH]; intros rx Hrx Hv; [done|].
  apply Forall_cons in Hv as [[? ?] Hv]. cbn [fold_left]. apply IH; [lia|done].
Qed.

(** the covered coordinates lie between the least begin and the greatest end *)
Lemma union_length_le_hull spans :
  spans ≠ [] → Forall valid_span spans →
  union_length spans
  <= max_end spans - fold_left (λ m s, Z.min m (x s)) spans UINT32_MAX.
Proof.
  intros Hne Hv. unfold union_length, covered_below.
  set (lo := fold_left (λ m s, Z.min m (x s)) spans UINT32_MAX).
  assert (0 <= lo) by (apply fold_min_begin_nonneg; [by rewrite UINT32_MAX_eq|done]).
  assert (lo <= max_end spans).
  { destruct spans as [|s l]; [done|].
    pose proof (fold_min_begin_le (s :: l) UINT32_MAX) as [_ Hle].
    apply Forall_cons in Hle as [Hle _]. apply Forall_cons in Hv as [[? ?] _].
    fold lo in Hle. rewrite max_end_cons. lia. }
  rewrite <- (length_filter_interval lo (max_end spans) (max_end spans)) by lia.
  apply inj_le, length_filter_mono. intros p _ Hc. split.
  - pose proof (fold_min_begin_le spans UINT32_MAX) as [_ Hle]. fold lo in Hle.
    unfold covered in Hc. apply Exists_exists in Hc as (s & Hin & Hs).
    rewrite Forall_forall in Hle. specialize (Hle s Hin). lia.
  - by apply covered_lt_max_end.
Qed.

(** X2. Whatever the order of the seed spans of a chain, the coverage thread
    writes the union span of the spans as the range, and a weight that never
    exceeds the length of the union of the spans nor the length of the
    range: an order other than ascending begin can only lose coverage. *)
Theorem coverage_never_overcounts
    (n_chains : nat) (chain_reads chain_offsets chain_lengths : list Z)
    (mems : list mem_type) (mems_index : list Z)
    (out : list uint2 * list Z) (chain_id : nat)
    (read begin len : Z) (spans : list uint2) :
  (chain_id < n_chains)%nat →
  (chain_id < length out.1)%nat → (chain_id < length out.2)%nat →
  chain_reads !! chain_id = Some read →
  chain_offsets !! chain_id = Some begin →
  chain_lengths !! chain_id = Some len →
  0 <= begin → 0 < len → begin + len < 2 ^ 32 →
  chain_spans mems mems_index (Z.to_nat begin) (Z.to_nat len) = Some spans →
  Forall valid_span spans →
  ∃ (range : uint2) (weight : Z),
    chain_coverage_kernel n_chains chain_reads chain_offsets chain_lengths
      mems mems_index out chain_id
    = Some (<[chain_id := range]> out.1,
            <[chain_id := weight_key read weight]> out.2)
    ∧ 0 <= weight ∧ weight <= union_length spans
    ∧ weight <= y range - x range
    ∧ Forall (λ s, x range <= x s ∧ y s <= y range) spans
    ∧ Exists (λ s, x range = x s) spans
    ∧ Exists (λ s, y range = y s) spans.
Proof.
  intros Hid Ho1 Ho2 Hr Hb Hl Hb0 Hl0 Hbl Hsp Hv.
  assert (spans ≠ []) as Hne.
  { intros ->. unfold chain_spans in Hsp.
    destruct (Z.to_nat len) as [|k] eqn:E; [lia|].
    cbn [seq mapM] in Hsp.
    repeat (match type of Hsp with context [mbind _ ?o] =>
      destruct o; cbn [mbind option_bind mret option_ret] in Hsp end; try done). }
  pose proof (max_end_bound spans Hv) as Hmb.
  assert (max_end ([] ++ spans) <= max_end spans < 2 ^ 32) as Hb1 by (cbn [app]; lia).
  assert (0 <= 0 <= covered_below (max_end spans) []) as Hb2
    by (rewrite covered_below_nil; lia).
  destruct (coverage_fold_any_order (max_end spans) spans [] UINT32_MAX 0
              (Forall_nil_2 _) Hv Hb1 Hb2) as (weight & Hfold & Hw).
  cbn [app] in Hfold, Hw. change (max_end []) with 0 in Hfold.
  exists (make_uint2 (fold_left (λ m s, Z.min m (x s)) spans UINT32_MAX) (max_end spans)),
    weight.
  pose proof (union_length_le_hull spans Hne Hv) as Hhull.
  fold (union_length spans) in Hw.
  split_and!; try lia.
  - unfold chain_coverage_kernel. rewrite decide_False by lia.
    rewrite Hr, Hb, Hl. cbn [mbind option_bind].
    rewrite wrap32_small by lia.
    replace (Z.to_nat (len + begin) - Z.to_nat begin)%nat with (Z.to_nat len) by lia.
    rewrite coverage_loop_fold, Hsp. cbn [mbind option_bind].
    rewrite Hfold. cbn [fst snd].
    unfold store. rewrite !decide_True by done. done.
  - cbn [x y]. lia.
  - cbn [x y]. pose proof (fold_min_begin_le spans UINT32_MAX) as [_ H1].
    pose proof (max_end_upper spans) as H2.
    rewrite Forall_forall in H1, H2. apply Forall_forall. intros s Hin. split; auto.
  - cbn [x]. destruct (fold_min_begin_attained spans UINT32_MAX) as [H|H]; [|done].
    rewrite H. destruct spans as [|s l]; [done|]. left.
    apply Forall_cons in Hv as [[? ?] _].
    pose proof (fold_min_begin_le (s :: l) UINT32_MAX) as [_ Hle].
    apply Forall_cons in Hle as [Hle _]. rewrite H in Hle.
    rewrite UINT32_MAX_eq in *. lia.
  - cbn [y]. by apply max_end_attained.
Qed.

Lemma coverage_never_overcounts_witness :
  ∃ (range : uint2) (weight : Z),
    chain_coverage_kernel 1 [7] [0] [2] [seed 10 20; seed 0 5] [0; 1]
      ([make_uint2 0 0], [0]) 0
    = Some ([range], [weight_key 7 weight])
    ∧ weight <= union_length [make_uint2 10 20; make_uint2 0 5].
Proof.
  destruct (coverage_never_overcounts 1 [7] [0] [2] [seed 10 20; seed 0 5] [0; 1]
              ([make_uint2 0 0], [0]) 0%nat 7 0 2 [make_uint2 10 20; make_uint2 0 5])
    as (range & weight & Hk & _ & Hw & _).
  - lia.
  - simpl; lia.
  - simpl; lia.
  - reflexivity.
  - reflexivity.
  - reflexivity.
  - lia.
  - lia.
  - lia.
  - reflexivity.
  - repeat constructor; simpl; lia.
  - exists range, weight. split; [exact Hk|exact Hw].
Defined.

(** ** The launches *)

(** threads that commute pairwise give the same result in any order *)
Lemma launch_Permutation {S T} (thread : S → T → option S) (tids1 tids2 : list T) :
  (∀ s t1 t2, (s1 ← thread s t1; thread s1 t2) = (s2 ← thread s t2; thread s2 t1)) →
  tids1 ≡ₚ tids2 → ∀ s, launch thread tids1 s = launch thread tids2 s.
Proof.
  intros Hcomm. induction 1 as [|t l1 l2 _ IH|t1 t2 l|l1 l2 l3 _ IH1 _ IH2]; intros s.
  - done.
  - cbn [launch]. destruct (thread s t) as [s'|]; [apply IH|done].
  - cbn [launch]. specialize (Hcomm s t2 t1).
    destruct (thread s t2) as [sa|], (thread s t1) as [sb|];
      cbn [mbind option_bind] in *.
    + by rewrite Hcomm.
    + by rewrite Hcomm.
    + by rewrite <- Hcomm.
    + done.
  - by rewrite IH1.
Qed.

(** what a coverage thread writes does not depend on the output arrays *)
Lemma chain_coverage_kernel_writes n chain_reads chain_offsets chain_lengths
    mems mems_index c :
  ∃ r : option (option (uint2 * Z)),
    ∀ out,
      chain_coverage_kernel n chain_reads chain_offsets chain_lengths mems mems_index out c
      = match r with
        | None => None
        | Some None => Some out
        | Some (Some (range, key)) =>
            if decide (c < length out.1 ∧ c < length out.2)%nat
            then Some (<[c := range]> out.1, <[c := key]> out.2)
            else None
        end.
Proof.
  unfold chain_coverage_kernel.
  destruct (decide (n ≤ c)%nat); [by exists (Some None)|].
  destruct (chain_reads !! c) as [r|]; [|by exists None].
  destruct (chain_offsets !! c) as [b|]; [|by exists None].
  destruct (chain_lengths !! c) as [l|]; [|by exists None].
  cbn [mbind option_bind].
  destruct (coverage_loop _ _ _ _ _) as [st|]; [|by exists None].
  exists (Some (Some (st.1, weight_key r st.2))). intros out.
  cbn [mbind option_bind]. unfold store.
  destruct (decide (c < length out.1)%nat), (decide (c < length out.2)%nat);
    cbn [mbind option_bind]; first [by rewrite decide_True|rewrite decide_False; [done|lia]].
Qed.

Lemma chain_coverage_kernel_commute n chain_reads chain_offsets chain_lengths
    mems mems_index out c1 c2 :
  (o ← chain_coverage_kernel n chain_reads chain_offsets chain_lengths mems mems_index out c1;
   chain_coverage_kernel n chain_reads chain_offsets chain_lengths mems mems_index o c2)
  = (o ← chain_coverage_kernel n chain_reads chain_offsets chain_lengths mems mems_index out c2;
     chain_coverage_kernel n chain_reads chain_offsets chain_lengths mems mems_index o c1).
Proof.
  destruct (decide (c1 = c2)) as [->|Hne]; [done|].
  destruct (chain_coverage_kernel_writes n chain_reads chain_offsets chain_lengths
              mems mems_index c1) as [r1 H1].
  destruct (chain_coverage_kernel_writes n chain_reads chain_offsets chain_lengths
              mems mems_index c2) as [r2 H2].
  rewrite (H1 out), (H2 out).
  destruct r1 as [[[rg1 k1]|]|], r2 as [[[rg2 k2]|]|]; cbn [mbind option_bind];
    rewrite ?H1, ?H2; try done;
    repeat (case_decide; cbn [mbind option_bind fst snd];
            rewrite ?H1, ?H2; cbn [fst snd]; rewrite ?length_insert in *; try done).
  all: try (exfalso; tauto).
  all: try (f_equal; f_equal; by apply list_insert_insert_ne).
Qed.

(** X3. The result of a launch of the coverage kernel does not depend on the
    order in which its threads run: a thread writes the two slots of its own
    chain and nothing else. *)
Theorem coverage_launch_order_independent
    (n : nat) (chain_reads chain_offsets chain_lengths : list Z)
    (mems : list mem_type) (mems_index : list Z)
    (tids tids' : list nat) (out : list uint2 * list Z) :
  tids ≡ₚ tids' →
  launch (chain_coverage_kernel n chain_reads chain_offsets chain_lengths mems mems_index)
    tids out
  = launch (chain_coverage_kernel n chain_reads chain_offsets chain_lengths mems mems_index)
      tids' out.
Proof.
  intros Hp. apply launch_Permutation; [|done].
  intros s t1 t2. apply chain_coverage_kernel_commute.
Qed.

Lemma coverage_launch_order_independent_witness :
  let kernel :=
    chain_coverage_kernel 3 [0; 1; 1] [0; 1; 2] [1; 1; 1]
      [seed 0 10; seed 0 10; seed 100 120] [0; 1; 2] in
  launch kernel [1; 0; 2]%nat (replicate 3 (make_uint2 0 0), replicate 3 0)
  = launch kernel [0; 1; 2]%nat (replicate 3 (make_uint2 0 0), replicate 3 0).
Proof.
  apply coverage_launch_order_independent. apply perm_swap.
Defined.

(** a thread of a chain whose slice holds seeds writes the coverage of the
    spans of the slice *)
Lemma chain_coverage_kernel_slice n chain_reads chain_offsets chain_lengths
    mems mems_index out c read begin len spans :
  (c < n)%nat →
  chain_reads !! c = Some read → chain_offsets !! c = Some begin →
  chain_lengths !! c = Some len →
  0 <= begin → 0 <= len → begin + len < 2 ^ 32 →
  chain_spans mems mems_index (Z.to_nat begin) (Z.to_nat len) = Some spans →
  chain_coverage_kernel n chain_reads chain_offsets chain_lengths mems mems_index out c
  = if decide (c < length out.1 ∧ c < length out.2)%nat
    then Some (<[c := (chain_coverage spans).1]> out.1,
               <[c := weight_key read (chain_coverage spans).2]> out.2)
    else None.
Proof.
  intros Hc Hr Hb Hl Hb0 Hl0 Hbl Hsp.
  unfold chain_coverage_kernel. rewrite decide_False by lia.
  rewrite Hr, Hb, Hl. cbn [mbind option_bind].
  rewrite wrap32_small by lia.
  replace (Z.to_nat (len + begin) - Z.to_nat begin)%nat with (Z.to_nat len) by lia.
  rewrite coverage_loop_fold, Hsp. cbn [mbind option_bind].
  fold (chain_coverage spans). unfold store.
  destruct (decide (c < length out.1)%nat), (decide (c < length out.2)%nat);
    cbn [mbind option_bind]; first [by rewrite decide_True|rewrite decide_False; [done|lia]].
Qed.

Lemma launch_coverage_result n chain_reads chain_offsets chain_lengths mems mems_index
    threads : ∀ out,
  chain_slices_ok n chain_reads chain_offsets chain_lengths mems mems_index →
  (n ≤ length out.1)%nat → (n ≤ length out.2)%nat →
  ∃ out',
    launch (chain_coverage_kernel n chain_reads chain_offsets chain_lengths mems mems_index)
      (seq 0 threads) out = Some out' ∧
    length out'.1 = length out.1 ∧ length out'.2 = length out.2 ∧
    (∀ c, (threads ≤ c)%nat ∨ (n ≤ c)%nat →
       out'.1 !! c = out.1 !! c ∧ out'.2 !! c = out.2 !! c) ∧
    (∀ c read begin len spans, (c < threads)%nat → (c < n)%nat →
       chain_reads !! c = Some read → chain_offsets !! c = Some begin →
       chain_lengths !! c = Some len →
       chain_spans mems mems_index (Z.to_nat begin) (Z.to_nat len) = Some spans →
       out'.1 !! c = Some (chain_coverage spans).1 ∧
       out'.2 !! c = Some (weight_key read (chain_coverage spans).2)).
Proof.
  intros out Hok Hl1 Hl2. induction threads as [|t IH].
  - exists out. split_and!; try done. intros; lia.
  - destruct IH as (out1 & Hs & Hla & Hlb & Hframe & Hres).
    rewrite seq_S, launch_app, Hs. cbn [plus mbind option_bind launch].
    destruct (decide (t < n)%nat) as [Ht|Ht].
    + destruct (Hok t Ht) as (read & begin & len & spans & Hr & Hb & Hl & ? & ? & ? & Hsp).
      rewrite (chain_coverage_kernel_slice _ _ _ _ _ _ _ _ read begin len spans) by done.
      rewrite decide_True by lia. cbn [mbind option_bind].
      eexists. split; [done|]. cbn [fst snd]. rewrite !length_insert.
      split_and!; try done.
      * intros c Hc. rewrite !list_lookup_insert_ne by lia. apply Hframe. lia.
      * intros c read' begin' len' spans' Hc1 Hc2 Hr' Hb' Hl' Hsp'.
        destruct (decide (c = t)) as [->|Hne].
        -- simplify_eq. rewrite !list_lookup_insert_eq by lia. done.
        -- rewrite !list_lookup_insert_ne by lia. eapply Hres; eauto. lia.
    + unfold chain_coverage_kernel. rewrite decide_True by lia.
      cbn [mbind option_bind]. exists out1. split_and!; try done.
      * intros c Hc. apply Hframe. lia.
      * intros c read' begin' len' spans' Hc1 Hc2 Hr' Hb' Hl' Hsp'.
        eapply Hres; eauto. lia.
Qed.

(** X4. On chain tables whose slices hold seeds of the chunk, the launch of
    the coverage kernel runs to its end without an access out of range, the
    threads beyond the number of chains write nothing, and the outputs hold,
    for every chain, the range and the key of the coverage of its own
    spans. *)
Theorem coverage_launch_result (n : nat) (m : mem_state) :
  chain_slices_ok n (chain_reads m) (chain_offsets m) (chain_lengths m)
    (mems m) (mems_index m) →
  ∃ chain_ranges chain_weights,
    compute_coverage n m = Some (chain_ranges, chain_weights) ∧
    length chain_ranges = n ∧ length chain_weights = n ∧
    ∀ c read begin len spans,
      chain_reads m !! c = Some read → chain_offsets m !! c = Some begin →
      chain_lengths m !! c = Some len → (c < n)%nat →
      chain_spans (mems m) (mems_index m) (Z.to_nat begin) (Z.to_nat len) = Some spans →
      chain_ranges !! c = Some (chain_coverage spans).1 ∧
      chain_weights !! c = Some (weight_key read (chain_coverage spans).2).
Proof.
  intros Hok. unfold compute_coverage.
  destruct (launch_coverage_result n (chain_reads m) (chain_offsets m) (chain_lengths m)
              (mems m) (mems_index m) (divide_ri n block_dim * block_dim)
              (replicate n (make_uint2 0 0), replicate n 0) Hok)
    as ([ranges keys] & Hs & Hla & Hlb & _ & Hres).
  { cbn [fst]. by rewrite length_replicate. }
  { cbn [snd]. by rewrite length_replicate. }
  cbn [fst snd] in *. rewrite length_replicate in Hla. rewrite length_replicate in Hlb.
  exists ranges, keys. split_and!; try done.
  intros c read begin len spans Hr Hb Hl Hc Hsp.
  eapply Hres; eauto. pose proof (divide_ri_threads n). lia.
Qed.

Lemma coverage_launch_result_witness :
  ∃ chain_ranges chain_weights,
    compute_coverage 3 two_reads_grouped
      = Some (chain_ranges, chain_weights)
    ∧ chain_weights !! 2%nat = Some (weight_key 1 20).
Proof.
  destruct (coverage_launch_result 3 two_reads_grouped)
    as (ranges & keys & Hs & _ & _ & Hres).
  - intros c Hc. destruct c as [|[|[|c]]]; [..|lia].
    + exists 0, 0, 1, [make_uint2 0 10]. split_and!; reflexivity || lia.
    + exists 1, 1, 1, [make_uint2 0 10]. split_and!; reflexivity || lia.
    + exists 1, 2, 1, [make_uint2 100 120]. split_and!; reflexivity || lia.
  - exists ranges, keys. split; [exact Hs|].
    apply (Hres 2%nat 1 2 1 [make_uint2 100 120]); reflexivity || lia.
Defined.

(** ** The writes of the filter kernel *)

Lemma length_set_flags ws flags : length (set_flags ws flags) = length flags.
Proof.
  induction ws as [|c ws IH]; [done|]. cbn [set_flags foldr].
  rewrite length_insert. apply IH.
Qed.

Lemma set_flags_app ws1 ws2 flags :
  set_flags (ws1 ++ ws2) flags = set_flags ws1 (set_flags ws2 flags).
Proof. unfold set_flags. apply foldr_app. Qed.

Lemma lookup_set_flags ws flags c :
  Forall (λ w, w < length flags)%nat ws →
  set_flags ws flags !! c = if decide (c ∈ ws) then Some 1 else flags !! c.
Proof.
  induction 1 as [|w ws Hw _ IH].
  - rewrite decide_False; [done|]. apply not_elem_of_nil.
  - cbn [set_flags foldr]. fold (set_flags ws flags).
    destruct (decide (w = c)) as [->|Hne].
    + rewrite list_lookup_insert_eq by by rewrite length_set_flags.
      rewrite decide_True; [done|]. left.
    + rewrite list_lookup_insert_ne by done. rewrite IH.
      destruct (decide (c ∈ ws)).
      * rewrite decide_True; [done|]. by right.
      * rewrite decide_False; [done|].
        intros [?|?]%elem_of_cons; [congruence|done].
Qed.

Lemma set_flags_commute ws1 ws2 flags :
  Forall (λ w, w < length flags)%nat ws1 → Forall (λ w, w < length flags)%nat ws2 →
  set_flags ws1 (set_flags ws2 flags) = set_flags ws2 (set_flags ws1 flags).
Proof.
  intros H1 H2. apply list_eq. intros c.
  rewrite !lookup_set_flags by by rewrite ?length_set_flags.
  by repeat case_decide.
Qed.

Section filter_kernel_writes.
Context (chain_index : list Z) (chain_ranges : list uint2) (chain_weights : list Z).
Context (mask_level chain_drop_ratio : float) (min_seed_len : Z).

Local Abbreviation scan :=
  (inner_scan chain_index chain_ranges chain_weights mask_level chain_drop_ratio min_seed_len).
Local Abbreviation step :=
  (filter_step chain_index chain_ranges chain_weights mask_level chain_drop_ratio min_seed_len).
Local Abbreviation loop :=
  (filter_loop chain_index chain_ranges chain_weights mask_level chain_drop_ratio min_seed_len).
Local Abbreviation kernel :=
  (chain_filter_kernel chain_index chain_ranges chain_weights mask_level chain_drop_ratio min_seed_len).

(** the inner scan does not read the flags: on flags of a given size, where
    it stops and whether it sets the flag of [ci] are always the same *)
Lemma inner_scan_writes ci i_span i_w L count : ∀ j,
  ∃ r : option (nat * bool),
    (∀ flags, length flags = L →
       scan ci i_span i_w count j flags
       = match r with
         | None => None
         | Some (j', w) => Some (j', if w then <[ci := 1]> flags else flags)
         end) ∧
    (∀ j', r = Some (j', true) → (ci < L)%nat).
Proof.
  induction count as [|count IH]; intros j.
  - exists (Some (j, false)). split; [done|]. intros; simplify_eq.
  - cbn [inner_scan].
    destruct (chain_index !! j) as [cj|]; [|by exists None].
    cbn [mbind option_bind].
    destruct (load chain_ranges cj) as [j_span|]; [|by exists None].
    destruct (chain_weights !! j) as [kj|]; [|by exists None].
    cbn [mbind option_bind].
    destruct (IH (S j)) as (r' & Hr' & Hw').
    destruct (have_overlap i_span j_span);
      [destruct (significant_overlap i_span j_span mask_level)|];
      [|by exists r'..].
    destruct (decide (ci < L)%nat) as [Hci|Hci].
    2:{ exists None. split; [|done]. intros flags Hl. unfold store.
        by rewrite decide_False by lia. }
    destruct (dominance_break _ _ _ _).
    + exists (Some (j, true)). split; [|done]. intros flags Hl. unfold store.
      by rewrite decide_True by lia.
    + exists (match r' with None => None | Some (j', _) => Some (j', true) end).
      split.
      * intros flags Hl. unfold store. rewrite decide_True by lia.
        cbn [mbind option_bind]. rewrite Hr' by by rewrite length_insert.
        destruct r' as [[j' []]|]; [|done..]. by rewrite list_insert_insert_eq.
      * intros j' _. done.
Qed.

Lemma filter_step_writes begin i n L :
  ∃ r : option (nat * list nat),
    (∀ flags, length flags = L →
       step begin i (n, flags)
       = match r with
         | None => None
         | Some (n', ws) => Some (n', set_flags ws flags)
         end) ∧
    (∀ n' ws, r = Some (n', ws) →
       Forall (λ c, (c < L)%nat ∧ ranked_in chain_index i (S i) c) ws).
Proof.
  unfold filter_step.
  destruct (chain_index !! i) as [ci|] eqn:Hci; [|by exists None].
  cbn [mbind option_bind].
  destruct (load chain_ranges ci) as [i_span|]; [|by exists None].
  destruct (chain_weights !! i) as [ki|]; [|by exists None].
  cbn [mbind option_bind].
  destruct (inner_scan_writes (Z.to_nat ci) i_span (weight_of_key ki) L n begin)
    as (r & Hr & Hw).
  assert (ranked_in chain_index i (S i) (Z.to_nat ci)) as Hin by (exists i, ci; split_and!; done || lia).
  destruct r as [[j w]|].
  2:{ exists None. split; [|done]. intros flags Hl. by rewrite Hr. }
  destruct (decide (j = n)) as [Hj|Hj].
  - destruct (decide (Z.to_nat ci < L)%nat) as [Hlt|Hlt].
    + exists (Some (S n, [Z.to_nat ci])). split.
      * intros flags Hl. rewrite Hr by done. cbn [mbind option_bind].
        rewrite decide_True by done. unfold store.
        rewrite decide_True by (destruct w; rewrite ?length_insert; lia).
        cbn [mbind option_bind set_flags foldr].
        destruct w; [by rewrite list_insert_insert_eq|done].
      * intros n' ws [= <- <-]. by constructor.
    + exists None. split; [|done]. intros flags Hl. rewrite Hr by done.
      cbn [mbind option_bind]. rewrite decide_True by done. unfold store.
      rewrite decide_False; [done|]. destruct w; rewrite ?length_insert; lia.
  - exists (Some (n, if w then [Z.to_nat ci] else [])). split.
    + intros flags Hl. rewrite Hr by done. cbn [mbind option_bind].
      rewrite decide_False by done. by destruct w.
    + intros n' ws [= <- <-]. destruct w; [|constructor].
      constructor; [|constructor]. split; [by eapply Hw|done].
Qed.

Lemma filter_loop_writes begin L count : ∀ i n,
  ∃ r : option (nat * list nat),
    (∀ flags, length flags = L →
       loop begin count i (n, flags)
       = match r with
         | None => None
         | Some (n', ws) => Some (n', set_flags ws flags)
         end) ∧
    (∀ n' ws, r = Some (n', ws) →
       Forall (λ c, (c < L)%nat ∧ ranked_in chain_index i (i + count) c) ws).
Proof.
  induction count as [|count IH]; intros i n.
  - exists (Some (n, [])). split; [done|]. intros ?? [= <- <-]. constructor.
  - cbn [filter_loop].
    destruct (filter_step_writes begin i n L) as (r1 & Hr1 & Hw1).
    destruct r1 as [[n1 ws1]|].
    2:{ exists None. split; [|done]. intros flags Hl. by rewrite Hr1. }
    destruct (IH (S i) n1) as (r2 & Hr2 & Hw2).
    destruct r2 as [[n2 ws2]|].
    2:{ exists None. split; [|done]. intros flags Hl. rewrite Hr1 by done.
        cbn [mbind option_bind]. by rewrite Hr2 by by rewrite length_set_flags. }
    exists (Some (n2, ws2 ++ ws1)). split.
    + intros flags Hl. rewrite Hr1 by done. cbn [mbind option_bind].
      rewrite Hr2 by by rewrite length_set_flags. by rewrite set_flags_app.
    + intros n' ws [= <- <-]. apply Forall_app. split.
      * eapply Forall_impl; [by eapply Hw2|].
        intros c [? (p & ci & ? & ? & ?)]. split; [done|].
        exists p, ci. split_and!; done || lia.
      * eapply Forall_impl; [by eapply Hw1|].
        intros c [? (p & ci & ? & ? & ?)]. split; [done|].
        exists p, ci. split_and!; done || lia.
Qed.

(** the chains a thread may write: those ranked in the sub-range of its read,
    or at its first rank when the sub-range is empty *)
Lemma chain_filter_kernel_writes chunk n_chains chain_reads tid L :
  let read_id := wrap32 (Z.of_nat tid + read_begin chunk) in
  let begin := lower_bound read_id (take n_chains chain_reads) in
  let end_ := upper_bound read_id (take n_chains chain_reads) in
  ∃ r : option (list nat),
    (∀ flags, length flags = L →
       kernel chunk n_chains chain_reads flags tid
       = match r with None => None | Some ws => Some (set_flags ws flags) end) ∧
    (∀ ws, r = Some ws →
       Forall (λ c, (c < L)%nat ∧ read_id < read_end chunk ∧
                    ranked_in chain_index begin (Nat.max (S begin) end_) c) ws).
Proof.
  intros read_id begin end_. unfold chain_filter_kernel. fold read_id begin end_.
  destruct (Z.leb_spec (read_end chunk) read_id) as [Hge|Hlt].
  { exists (Some []). split; [done|]. intros ? [= <-]. constructor. }
  destruct (chain_index !! begin) as [c0|] eqn:Hc0; [|by exists None].
  cbn [mbind option_bind].
  destruct (decide (Z.to_nat c0 < L)%nat) as [Hc|Hc].
  2:{ exists None. split; [|done]. intros flags Hl. unfold store.
      by rewrite decide_False by lia. }
  destruct (filter_loop_writes begin L (end_ - (begin + 1)) (begin + 1) 1)
    as (r & Hr & Hw).
  destruct r as [[n ws]|].
  2:{ exists None. split; [|done]. intros flags Hl. unfold store.
      rewrite decide_True by lia. cbn [mbind option_bind].
      by rewrite Hr by by rewrite length_insert. }
  exists (Some (ws ++ [Z.to_nat c0])). split.
  - intros flags Hl. unfold store. rewrite decide_True by lia.
    cbn [mbind option_bind]. rewrite Hr by by rewrite length_insert.
    cbn [mbind option_bind snd]. by rewrite set_flags_app.
  - intros ? [= <-]. apply Forall_app. split.
    + eapply Forall_impl; [by eapply Hw|].
      intros c [? (p & ci & ? & ? & ?)]. split_and!; [done..|].
      exists p, ci. split_and!; done || lia.
    + constructor; [|constructor]. split_and!; [done..|].
      exists begin, c0. split_and!; done || lia.
Qed.

Lemma chain_filter_kernel_commute chunk n_chains chain_reads flags t1 t2 :
  (f ← kernel chunk n_chains chain_reads flags t1; kernel chunk n_chains chain_reads f t2)
  = (f ← kernel chunk n_chains chain_reads flags t2; kernel chunk n_chains chain_reads f t1).
Proof.
  destruct (chain_filter_kernel_writes chunk n_chains chain_reads t1 (length flags))
    as (r1 & H1 & Hw1).
  destruct (chain_filter_kernel_writes chunk n_chains chain_reads t2 (length flags))
    as (r2 & H2 & Hw2).
  rewrite (H1 flags), (H2 flags) by done.
  destruct r1 as [ws1|], r2 as [ws2|]; cbn [mbind option_bind].
  2:{ by rewrite H2 by by rewrite length_set_flags. }
  2:{ by rewrite H1 by by rewrite length_set_flags. }
  2:{ done. }
  rewrite H1, H2 by by rewrite length_set_flags.
  f_equal. apply set_flags_commute.
  - eapply Forall_impl; [by eapply Hw2|]. by intros c [? _].
  - eapply Forall_impl; [by eapply Hw1|]. by intros c [? _].
Qed.

Lemma launch_filter_writes chunk n_chains chain_reads L tids :
  ∃ r : option (list nat),
    (∀ flags, length flags = L →
       launch (kernel chunk n_chains chain_reads) tids flags
       = match r with None => None | Some ws => Some (set_flags ws flags) end) ∧
    (∀ ws, r = Some ws → Forall (λ c, c < L)%nat ws).
Proof.
  induction tids as [|t tids IH].
  - exists (Some []). split; [done|]. intros ? [= <-]. constructor.
  - cbn [launch].
    destruct (chain_filter_kernel_writes chunk n_chains chain_reads t L) as (r1 & H1 & Hw1).
    destruct r1 as [ws1|].
    2:{ exists None. split; [|done]. intros flags Hl. by rewrite H1. }
    destruct IH as (r2 & H2 & Hw2). destruct r2 as [ws2|].
    2:{ exists None. split; [|done]. intros flags Hl. rewrite H1 by done.
        cbn [mbind option_bind]. by rewrite H2 by by rewrite length_set_flags. }
    exists (Some (ws2 ++ ws1)). split.
    + intros flags Hl. rewrite H1 by done. cbn [mbind option_bind].
      rewrite H2 by by rewrite length_set_flags. by rewrite set_flags_app.
    + intros ? [= <-]. apply Forall_app. split; [by eapply Hw2|].
      eapply Forall_impl; [by eapply Hw1|]. by intros c [? _].
Qed.
End filter_kernel_writes.

(** X5. A launch of the filter kernel, whatever its tables, its threads and
    their order, only ever writes the value 1: it never clears a flag, and a
    flag it changes is set.  The number of flags is unchanged. *)
Theorem filter_launch_only_sets
    (chain_index : list Z) (chain_ranges : list uint2) (chain_weights : list Z)
    (mask_level chain_drop_ratio : float) (min_seed_len : Z)
    (chunk : read_chunk) (n_chains : nat) (chain_reads : list Z)
    (tids : list nat) (flags flags' : list Z) :
  launch (chain_filter_kernel chain_index chain_ranges chain_weights mask_level
            chain_drop_ratio min_seed_len chunk n_chains chain_reads) tids flags
    = Some flags' →
  length flags' = length flags ∧
  (∀ c, flags !! c = Some 1 → flags' !! c = Some 1) ∧
  (∀ c, flags' !! c ≠ flags !! c → flags' !! c = Some 1).
Proof.
  intros Hl.
  destruct (launch_filter_writes chain_index chain_ranges chain_weights mask_level
              chain_drop_ratio min_seed_len chunk n_chains chain_reads (length flags) tids)
    as (r & Hr & Hw).
  rewrite Hr in Hl by done. destruct r as [ws|]; [|done]. simplify_eq.
  specialize (Hw ws eq_refl). split_and!.
  - apply length_set_flags.
  - intros c Hc. rewrite lookup_set_flags by done. by case_decide.
  - intros c. rewrite lookup_set_flags by done. by case_decide.
Qed.

Lemma filter_launch_only_sets_witness :
  ∃ flags',
    launch (chain_filter_kernel two_reads_index two_reads_ranges two_reads_weights
              one_half one_half 5 (make_chunk 0 2 0 3) 3 [0; 1; 1])
      [1; 0]%nat [0; 0; 1] = Some flags'
    ∧ flags' !! 2%nat = Some 1.
Proof.
  eexists. split; [reflexivity|].
  destruct (filter_launch_only_sets two_reads_index two_reads_ranges two_reads_weights
              one_half one_half 5 (make_chunk 0 2 0 3) 3 [0; 1; 1] [1; 0]%nat [0; 0; 1]
              [1; 1; 1] eq_refl) as (_ & Hkept & _).
  apply Hkept. reflexivity.
Defined.

(** X6. The result of a launch of the filter kernel does not depend on the
    order in which its threads run: a thread never reads a flag, and all the
    writes store the same value. *)
Theorem filter_launch_order_independent
    (chain_index : list Z) (chain_ranges : list uint2) (chain_weights : list Z)
    (mask_level chain_drop_ratio : float) (min_seed_len : Z)
    (chunk : read_chunk) (n_chains : nat) (chain_reads : list Z)
    (tids tids' : list nat) (flags : list Z) :
  tids ≡ₚ tids' →
  launch (chain_filter_kernel chain_index chain_ranges chain_weights mask_level
            chain_drop_ratio min_seed_len chunk n_chains chain_reads) tids flags
  = launch (chain_filter_kernel chain_index chain_ranges chain_weights mask_level
              chain_drop_ratio min_seed_len chunk n_chains chain_reads) tids' flags.
Proof.
  intros Hp. apply launch_Permutation; [|done].
  intros s t1 t2. apply chain_filter_kernel_commute.
Qed.

Lemma filter_launch_order_independent_witness :
  let kernel :=
    chain_filter_kernel two_reads_index two_reads_ranges two_reads_weights
      one_half one_half 5 (make_chunk 0 2 0 3) 3 [0; 1; 1] in
  launch kernel [1; 0]%nat [0; 0; 0] = launch kernel [0; 1]%nat [0; 0; 0].
Proof.
  apply filter_launch_order_independent. apply perm_swap.
Defined.

(** X7. On the tables of a ranking, the thread of a read that has a chain
    changes no flag but those of the chains of that read: the threads of two
    such reads write disjoint sets of flags. *)
Theorem filter_thread_writes_own_chains
    (chain_index : list Z) (chain_ranges : list uint2) (chain_weights : list Z)
    (mask_level chain_drop_ratio : float) (min_seed_len : Z)
    (chunk : read_chunk) (n_chains : nat) (chain_reads weights : list Z)
    (flags flags' : list Z) (tid : nat) :
  let read_id := wrap32 (Z.of_nat tid + read_begin chunk) in
  (n_chains ≤ length chain_reads)%nat →
  ranking (take n_chains chain_reads) weights
    (take n_chains chain_weights) (take n_chains chain_index) →
  read_id ∈ take n_chains chain_reads →
  chain_filter_kernel chain_index chain_ranges chain_weights mask_level
    chain_drop_ratio min_seed_len chunk n_chains chain_reads flags tid = Some flags' →
  ∀ c, take n_chains chain_reads !! c ≠ Some read_id → flags' !! c = flags !! c.
Proof.
  intros read_id Hlr Hrank Hin Hk c Hc.
  set (reads := take n_chains chain_reads) in *.
  assert (length reads = n_chains) as Hlen by (subst reads; rewrite length_take; lia).
  assert (Sorted Z.le reads) as Hsr by apply Hrank.
  apply list_elem_of_lookup in Hin as [q Hq].
  apply bounds_range in Hq; [|done].
  pose proof (upper_bound_le_length read_id reads) as Hub.
  destruct (chain_filter_kernel_writes chain_index chain_ranges chain_weights mask_level
              chain_drop_ratio min_seed_len chunk n_chains chain_reads tid (length flags))
    as (r & Hr & Hw).
  rewrite Hr in Hk by done. destruct r as [ws|]; [|done]. simplify_eq.
  specialize (Hw ws eq_refl). cbv zeta in Hw. fold read_id reads in Hw.
  rewrite lookup_set_flags.
  2:{ eapply Forall_impl; [exact Hw|]. by intros ? [? _]. }
  rewrite decide_False; [done|]. intros Hcw.
  rewrite Forall_forall in Hw. destruct (Hw c Hcw) as (_ & _ & p & ci & Hp & Hci & ->).
  apply Hc.
  assert (take n_chains chain_index !! p = Some ci) as Hci'
    by (rewrite lookup_take_lt; [done|lia]).
  apply (ranking_range _ _ _ _ Hrank read_id p ci Hci'). fold reads. lia.
Qed.

Lemma filter_thread_writes_own_chains_witness :
  ∃ flags',
    chain_filter_kernel ranked_index ranked_ranges ranked_keys one_half one_half 5
      (make_chunk 0 2 0 3) 3 ranked_reads [0; 0; 0] 0 = Some flags'
    ∧ flags' !! 2%nat = Some 0.
Proof.
  eexists. split; [reflexivity|].
  apply (filter_thread_writes_own_chains ranked_index ranked_ranges ranked_keys
           one_half one_half 5 (make_chunk 0 2 0 3) 3 ranked_reads ranked_chain_weights
           [0; 0; 0] _ 0 ltac:(simpl; lia) ranked_example
           ltac:(vm_compute; apply list_elem_of_here) eq_refl 2%nat).
  vm_compute. discriminate.
Defined.

(** ** When the filter kernel runs to its end *)

(** a thread runs to its end as soon as the first rank of its sub-range is a
    rank of the tables *)
Lemma chain_filter_kernel_total_lb chain_index chain_ranges chain_weights
    mask_level chain_drop_ratio min_seed_len bound chunk n_chains chain_reads flags tid :
  let read_id := wrap32 (Z.of_nat tid + read_begin chunk) in
  (∀ p, (p < bound)%nat → is_Some (chain_weights !! p)) →
  (∀ p, (p < bound)%nat → ∃ c, chain_index !! p = Some c ∧ (Z.to_nat c < bound)%nat) →
  (bound ≤ length chain_ranges)%nat →
  (upper_bound read_id (take n_chains chain_reads) ≤ bound)%nat →
  (read_id < read_end chunk →
   (lower_bound read_id (take n_chains chain_reads) < bound)%nat) →
  (bound ≤ length flags)%nat →
  is_Some (chain_filter_kernel chain_index chain_ranges chain_weights mask_level
             chain_drop_ratio min_seed_len chunk n_chains chain_reads flags tid).
Proof.
  intros read_id Hw Hi Hr Hub Hlb Hfl. unfold chain_filter_kernel. fold read_id.
  destruct (Z.leb_spec (read_end chunk) read_id) as [Hge|Hlt]; [by eexists|].
  specialize (Hlb Hlt).
  destruct (Hi _ Hlb) as (c & Hc & Hcb). rewrite Hc. cbn [mbind option_bind].
  unfold store. rewrite decide_True by lia. cbn [mbind option_bind].
  destruct (filter_loop_total chain_index chain_ranges chain_weights mask_level
              chain_drop_ratio min_seed_len bound Hw Hi Hr
              (lower_bound read_id (take n_chains chain_reads))
              (upper_bound read_id (take n_chains chain_reads)
                 - (lower_bound read_id (take n_chains chain_reads) + 1))
              (lower_bound read_id (take n_chains chain_reads) + 1) 1
              (<[Z.to_nat c := 1]> flags)) as [st Hst];
    [lia..|rewrite length_insert; lia|].
  rewrite Hst. by eexists.
Qed.

(** a launch runs to its end when each of its threads does *)
Lemma launch_filter_total chain_index chain_ranges chain_weights
    mask_level chain_drop_ratio min_seed_len bound chunk n_chains chain_reads tids :
  (∀ p, (p < bound)%nat → is_Some (chain_weights !! p)) →
  (∀ p, (p < bound)%nat → ∃ c, chain_index !! p = Some c ∧ (Z.to_nat c < bound)%nat) →
  (bound ≤ length chain_ranges)%nat →
  (∀ v, (upper_bound v (take n_chains chain_reads) ≤ bound)%nat) →
  Forall (λ tid, wrap32 (Z.of_nat tid + read_begin chunk) < read_end chunk →
                 (lower_bound (wrap32 (Z.of_nat tid + read_begin chunk))
                    (take n_chains chain_reads) < bound)%nat) tids →
  ∀ flags, (bound ≤ length flags)%nat →
  is_Some (launch (chain_filter_kernel chain_index chain_ranges chain_weights mask_level
                     chain_drop_ratio min_seed_len chunk n_chains chain_reads) tids flags).
Proof.
  intros Hw Hi Hlg Hub Hall.
  induction Hall as [|t tids Ht _ IH]; intros flags Hlf; [by eexists|].
  cbn [launch].
  destruct (chain_filter_kernel_total_lb chain_index chain_ranges chain_weights
              mask_level chain_drop_ratio min_seed_len bound chunk n_chains
              chain_reads flags t Hw Hi Hlg (Hub _) Ht Hlf) as [flags1 Hk].
  rewrite Hk. cbn [mbind option_bind].
  apply IH. apply chain_filter_kernel_kept in Hk as [Hl _]. lia.
Qed.

(** X8. On the tables of a ranking, a launch of the filter kernel runs to its
    end without an access out of range when, for each of its threads that
    passes the test on [read_end], some chain belongs to the read of the
    thread or to a later read.  When [chain_index] holds just the ranked
    chains the condition is also necessary: the thread of a read that lies
    after the read of the last chain reads [chain_index[n_chains]]. *)
Theorem filter_launch_in_range
    (chain_index : list Z) (chain_ranges : list uint2) (chain_weights : list Z)
    (mask_level chain_drop_ratio : float) (min_seed_len : Z)
    (chunk : read_chunk) (n_chains : nat) (chain_reads weights : list Z)
    (tids : list nat) (flags : list Z) :
  let read_of tid := wrap32 (Z.of_nat tid + read_begin chunk) in
  let kernel :=
    chain_filter_kernel chain_index chain_ranges chain_weights mask_level
      chain_drop_ratio min_seed_len chunk n_chains chain_reads in
  let reaches_a_chain tid :=
    read_of tid < read_end chunk →
    (lower_bound (read_of tid) (take n_chains chain_reads) < n_chains)%nat in
  (n_chains ≤ length chain_reads)%nat →
  (n_chains ≤ length chain_ranges)%nat →
  (n_chains ≤ length flags)%nat →
  ranking (take n_chains chain_reads) weights
    (take n_chains chain_weights) (take n_chains chain_index) →
  (Forall reaches_a_chain tids → is_Some (launch kernel tids flags)) ∧
  (length chain_index = n_chains →
   is_Some (launch kernel tids flags) → Forall reaches_a_chain tids).
Proof.
  intros read_of kernel reaches Hlr Hlg Hlf Hrank.
  destruct (ranking_tables n_chains chain_reads weights chain_weights chain_index Hlr Hrank)
    as [Hw Hi].
  assert (∀ v, (upper_bound v (take n_chains chain_reads) ≤ n_chains)%nat) as Hub.
  { intros v. pose proof (upper_bound_le_length v (take n_chains chain_reads)) as H.
    rewrite length_take in H. lia. }
  split.
  - intros Hall.
    by apply (launch_filter_total chain_index chain_ranges chain_weights mask_level
                chain_drop_ratio min_seed_len n_chains chunk n_chains chain_reads tids
                Hw Hi Hlg Hub Hall).
  - intros Hci. revert flags Hlf.
    induction tids as [|t tids IH]; intros flags Hlf Hs; [constructor|].
    cbn [launch] in Hs. destruct (kernel flags t) as [flags1|] eqn:Hk.
    2:{ by destruct Hs. }
    cbn [mbind option_bind] in Hs. constructor.
    + intros Hlt.
      destruct (chain_filter_kernel_first _ _ _ _ _ _ _ _ _ _ _ _ Hlt Hk) as (c & Hc & _).
      apply lookup_lt_Some in Hc. fold (read_of t) in Hc. lia.
    + apply chain_filter_kernel_kept in Hk as [Hl _]. apply (IH flags1); [lia|done].
Qed.

Lemma filter_launch_in_range_witness :
  is_Some
    (launch (chain_filter_kernel ranked_index ranked_ranges ranked_keys one_half one_half 5
               (make_chunk 0 2 0 3) 3 ranked_reads) [0; 1]%nat [0; 0; 0])
  ∧ ¬ is_Some
    (launch (chain_filter_kernel ranked_index ranked_ranges ranked_keys one_half one_half 5
               (make_chunk 0 3 0 3) 3 ranked_reads) [0; 1; 2]%nat [0; 0; 0]).
Proof.
  split.
  - apply (filter_launch_in_range ranked_index ranked_ranges ranked_keys one_half one_half 5
             (make_chunk 0 2 0 3) 3 ranked_reads ranked_chain_weights [0; 1]%nat [0; 0; 0]
             ltac:(simpl; lia) ltac:(simpl; lia) ltac:(simpl; lia) ranked_example).
    repeat constructor; intros _; vm_compute; lia.
  - intros Hs.
    apply (filter_launch_in_range ranked_index ranked_ranges ranked_keys one_half one_half 5
             (make_chunk 0 3 0 3) 3 ranked_reads ranked_chain_weights [0; 1; 2]%nat
             [0; 0; 0] ltac:(simpl; lia) ltac:(simpl; lia) ltac:(simpl; lia)
             ranked_example) in Hs; [|reflexivity].
    apply Forall_cons in Hs as [_ Hs]. apply Forall_cons in Hs as [_ Hs].
    apply Forall_cons in Hs as [H2 _].
    specialize (H2 ltac:(reflexivity)). vm_compute in H2. lia.
Defined.

(** ** What the filter keeps *)

Section filter_keeps.
Context (chain_index : list Z) (chain_ranges : list uint2) (chain_weights : list Z).
Context (mask_level chain_drop_ratio : float) (min_seed_len : Z).
Context (bound : nat).
Context (Hweights : ∀ p, (p < bound)%nat → is_Some (chain_weights !! p)).
Context (Hindex : ∀ p, (p < bound)%nat →
           ∃ c, chain_index !! p = Some c ∧ (Z.to_nat c < bound)%nat).
Context (Hranges : (bound ≤ length chain_ranges)%nat).
Context (begin end_ : nat) (Hend : (end_ ≤ bound)%nat).
Context (Hheavier : ∀ i j ki kj, (begin ≤ j)%nat → (j < i)%nat → (i < end_)%nat →
           chain_weights !! i = Some ki → chain_weights !! j = Some kj →
           dominance_break (weight_of_key ki) (weight_of_key kj)
             chain_drop_ratio min_seed_len = false).

Local Abbreviation scan :=
  (inner_scan chain_index chain_ranges chain_weights mask_level chain_drop_ratio min_seed_len).
Local Abbreviation step :=
  (filter_step chain_index chain_ranges chain_weights mask_level chain_drop_ratio min_seed_len).
Local Abbreviation loop :=
  (filter_loop chain_index chain_ranges chain_weights mask_level chain_drop_ratio min_seed_len).

(** in a sub-range that starts at rank 0 every chain is accepted *)
Lemma filter_loop_first_read count : ∀ i flags,
  begin = 0%nat → (1 ≤ i)%nat → (i + count ≤ end_)%nat → (bound ≤ length flags)%nat →
  ∃ flags',
    loop begin count i (i, flags) = Some ((i + count)%nat, flags') ∧
    flags_kept flags flags' ∧
    ∀ p ci, (i ≤ p < i + count)%nat → chain_index !! p = Some ci →
            flags' !! Z.to_nat ci = Some 1.
Proof.
  induction count as [|count IH]; intros i flags Hb Hi Hc Hfl.
  - exists flags. rewrite Nat.add_0_r. split_and!; [done|apply flags_kept_refl|].
    intros; lia.
  - cbn [filter_loop].
    destruct (Hindex i) as (ci & Hci & Hcb); [lia|].
    destruct (Hweights i) as [ki Hki]; [lia|].
    destruct (lookup_lt_is_Some_2 chain_ranges (Z.to_nat ci)) as [i_span Hsp]; [lia|].
    change (load chain_ranges ci = Some i_span) in Hsp.
    destruct (inner_scan_total chain_index chain_ranges chain_weights mask_level
                chain_drop_ratio min_seed_len (Z.to_nat ci) i_span (weight_of_key ki)
                i begin flags) as [[j flags1] Hscan]; [lia| |].
    { intros j0 Hj0. split; [apply Hweights; lia|].
      destruct (Hindex j0) as (cj & Hcj & Hltj); [lia|]. exists cj. split; [done|].
      apply lookup_lt_is_Some_2. lia. }
    assert (j = (begin + i)%nat) as ->.
    { eapply inner_scan_no_break; [|exact Hscan].
      intros j0 kj Hj0 Hkj. apply (Hheavier i j0 ki kj); done || lia. }
    rewrite (filter_step_after_full_scan _ _ _ _ _ _ _ _ _ _ ci i_span ki flags1)
      by done.
    rewrite decide_True by done.
    apply inner_scan_result in Hscan as [Hfl1 _].
    assert (flags_kept flags flags1) as Hk1.
    { destruct Hfl1 as [->|[_ ->]]; [apply flags_kept_refl|apply flags_kept_insert]. }
    unfold store. rewrite decide_True by (destruct Hk1 as [-> _]; lia).
    cbn [mbind option_bind].
    destruct (IH (S i) (<[Z.to_nat ci := 1]> flags1)) as (flags' & Hl & Hk & Hset);
      [done|lia|lia|rewrite length_insert; destruct Hk1 as [-> _]; lia|].
    exists flags'. rewrite Hl. split_and!.
    + f_equal. f_equal. lia.
    + eapply flags_kept_trans; [exact Hk1|].
      eapply flags_kept_trans; [apply flags_kept_insert|exact Hk].
    + intros p cp Hp Hcp. destruct (decide (p = i)) as [->|Hne].
      * simplify_eq. apply Hk. apply list_lookup_insert_eq.
        destruct Hk1 as [-> _]. lia.
      * apply (Hset p); [lia|done].
Qed.

Context (Hinj : ∀ p q c c', (p < bound)%nat → (q < bound)%nat →
           chain_index !! p = Some c → chain_index !! q = Some c' →
           Z.to_nat c = Z.to_nat c' → p = q).

(** in a sub-range that starts after rank 0 no chain is accepted after the
    first, and a chain is marked when it overlaps the first significantly *)
Lemma filter_loop_later_read cb b_span count : ∀ i flags,
  (0 < begin)%nat → chain_index !! begin = Some cb →
  load chain_ranges cb = Some b_span →
  (begin < i)%nat → (i + count ≤ end_)%nat → (bound ≤ length flags)%nat →
  ∃ flags',
    loop begin count i (1%nat, flags) = Some (1%nat, flags') ∧
    length flags' = length flags ∧
    (∀ c, ¬ ranked_in chain_index i (i + count) c → flags' !! c = flags !! c) ∧
    ∀ p ci sp, (i ≤ p < i + count)%nat → chain_index !! p = Some ci →
       load chain_ranges ci = Some sp →
       flags' !! Z.to_nat ci = Some 1 ↔
       flags !! Z.to_nat ci = Some 1 ∨
       have_overlap sp b_span && significant_overlap sp b_span mask_level = true.
Proof.
  induction count as [|count IH]; intros i flags Hb Hcb Hbs Hi Hc Hfl.
  - exists flags. split_and!; [done|done|done|]. intros; lia.
  - cbn [filter_loop].
    destruct (Hindex i) as (ci & Hci & Hcib); [lia|].
    destruct (Hweights i) as [ki Hki]; [lia|].
    destruct (Hweights begin) as [kb Hkb]; [lia|].
    destruct (lookup_lt_is_Some_2 chain_ranges (Z.to_nat ci)) as [i_span Hsp]; [lia|].
    change (load chain_ranges ci = Some i_span) in Hsp.
    set (sig := have_overlap i_span b_span && significant_overlap i_span b_span mask_level).
    set (flags1 := if sig then <[Z.to_nat ci := 1]> flags else flags).
    assert (step begin i (1%nat, flags) = Some (1%nat, flags1)) as Hstep.
    { unfold filter_step. rewrite Hci. cbn [mbind option_bind].
      rewrite Hsp, Hki. cbn [mbind option_bind].
      rewrite (inner_scan_one _ _ _ _ _ _ _ _ _ _ _ cb b_span kb) by (done || lia).
      rewrite (Hheavier i begin ki kb) by (done || lia). fold sig.
      subst flags1. destruct sig; cbn [mbind option_bind];
        by rewrite decide_False by lia. }
    rewrite Hstep. cbn [mbind option_bind].
    assert (length flags1 = length flags) as Hl1
      by (subst flags1; destruct sig; by rewrite ?length_insert).
    destruct (IH (S i) flags1) as (flags' & Hl & Hlen & Hframe & Hiff);
      [done..|lia|lia|lia|].
    exists flags'. split_and!; [done|lia| |].
    + intros c Hc'. rewrite Hframe.
      * subst flags1. destruct sig; [|done]. apply list_lookup_insert_ne.
        intros <-. apply Hc'. exists i, ci. split_and!; done || lia.
      * intros (p & cp & ? & ? & ?). apply Hc'. exists p, cp. split_and!; done || lia.
    + intros p cp sp Hp Hcp Hspp. destruct (decide (p = i)) as [->|Hne].
      * simplify_eq. rewrite Hframe.
        2:{ intros (q & cq & Hq & Hcq & Heq).
            assert (i = q) by (eapply (Hinj i q); eauto; lia). lia. }
        fold sig. subst flags1. destruct sig.
        -- rewrite list_lookup_insert_eq by lia. split; [by right|done].
        -- split; [by left|]. by intros [?|?].
      * rewrite (Hiff p cp sp) by (done || lia).
        assert (Z.to_nat ci ≠ Z.to_nat cp) as Hdiff.
        { intros Heq. assert (i = p) by (eapply (Hinj i p); eauto; lia). lia. }
        subst flags1. destruct sig; [|done]. by rewrite list_lookup_insert_ne.
Qed.
End filter_keeps.

Lemma ranking_no_dominance n chain_reads weights chain_weights chain_index
    chain_drop_ratio min_seed_len read :
  (n ≤ length chain_reads)%nat →
  ranking (take n chain_reads) weights (take n chain_weights) (take n chain_index) →
  is_float chain_drop_ratio →
  float_le chain_drop_ratio (float_of_uint32 1) = true →
  ∀ i j ki kj,
    (lower_bound read (take n chain_reads) ≤ j)%nat → (j < i)%nat →
    (i < upper_bound read (take n chain_reads))%nat →
    chain_weights !! i = Some ki → chain_weights !! j = Some kj →
    dominance_break (weight_of_key ki) (weight_of_key kj) chain_drop_ratio min_seed_len
    = false.
Proof.
  intros Hlr Hrank Hfloat Hratio i j ki kj Hj Hji Hi Hki Hkj.
  pose proof (upper_bound_le_length read (take n chain_reads)) as Hub.
  rewrite length_take in Hub.
  apply dominance_break_heavier; [apply weight_of_key_range| |apply weight_of_key_range|done..].
  apply (ranking_weights_ordered _ _ _ _ Hrank read j i kj ki); try lia;
    by rewrite lookup_take_lt by lia.
Qed.

Lemma ranking_index_inj n chain_reads weights chain_weights chain_index :
  (n ≤ length chain_reads)%nat →
  ranking (take n chain_reads) weights (take n chain_weights) (take n chain_index) →
  ∀ p q c c', (p < n)%nat → (q < n)%nat →
    chain_index !! p = Some c → chain_index !! q = Some c' →
    Z.to_nat c = Z.to_nat c' → p = q.
Proof.
  intros Hlr Hrank p q c c' Hp Hq Hc Hc' Heq.
  pose proof (ranking_lengths _ _ _ _ Hrank) as [Hl1 Hl2].
  rewrite !length_take in Hl1, Hl2.
  assert (take n chain_index !! p = Some c) as Hcp by by rewrite lookup_take_lt.
  assert (take n chain_index !! q = Some c') as Hcq by by rewrite lookup_take_lt.
  destruct (lookup_lt_is_Some_2 (take n chain_weights) p) as [kp Hkp];
    [rewrite length_take; lia|].
  destruct (lookup_lt_is_Some_2 (take n chain_weights) q) as [kq Hkq];
    [rewrite length_take; lia|].
  destruct (ranking_entry _ _ _ _ Hrank p c kp Hcp Hkp) as (_ & _ & H0 & _).
  destruct (ranking_entry _ _ _ _ Hrank q c' kq Hcq Hkq) as (_ & _ & H0' & _).
  assert (c = c') as <- by lia.
  assert (NoDup (take n chain_index)) as Hnd.
  { rewrite (ranking_permutation _ _ _ _ Hrank).
    apply NoDup_fmap_2; [intros ???; lia|apply NoDup_seq]. }
  by eapply NoDup_lookup.
Qed.

(** X9. On the tables of a ranking, with [chain_drop_ratio] at most 1, the
    thread of a read whose sub-range starts at rank 0 (the read of the first
    chain of the table) runs to its end and marks every chain of the read:
    for that read the filter discards nothing. *)
Theorem first_read_keeps_every_chain
    (chain_index : list Z) (chain_ranges : list uint2) (chain_weights : list Z)
    (mask_level chain_drop_ratio : float) (min_seed_len : Z)
    (chunk : read_chunk) (n_chains : nat) (chain_reads weights : list Z)
    (flags : list Z) (tid : nat) :
  let read_id := wrap32 (Z.of_nat tid + read_begin chunk) in
  (n_chains ≤ length chain_reads)%nat →
  (n_chains ≤ length chain_ranges)%nat →
  (n_chains ≤ length flags)%nat →
  ranking (take n_chains chain_reads) weights
    (take n_chains chain_weights) (take n_chains chain_index) →
  is_float chain_drop_ratio →
  float_le chain_drop_ratio (float_of_uint32 1) = true →
  read_id < read_end chunk →
  read_id ∈ take n_chains chain_reads →
  lower_bound read_id (take n_chains chain_reads) = 0%nat →
  ∃ flags',
    chain_filter_kernel chain_index chain_ranges chain_weights mask_level
      chain_drop_ratio min_seed_len chunk n_chains chain_reads flags tid = Some flags' ∧
    ∀ c, take n_chains chain_reads !! c = Some read_id → flags' !! c = Some 1.
Proof.
  intros read_id Hlr Hlg Hlf Hrank Hfloat Hratio Hlt Hin Hlb.
  set (reads := take n_chains chain_reads) in *.
  assert (length reads = n_chains) as Hlen by (subst reads; rewrite length_take; lia).
  assert (Sorted Z.le reads) as Hsr by apply Hrank.
  apply list_elem_of_lookup in Hin as [q Hq].
  apply bounds_range in Hq; [|done].
  pose proof (upper_bound_le_length read_id reads) as Hub. rewrite Hlen in Hub.
  destruct (ranking_tables n_chains chain_reads weights chain_weights chain_index Hlr Hrank)
    as [Hw Hi].
  pose proof (ranking_no_dominance n_chains chain_reads weights chain_weights chain_index
                chain_drop_ratio min_seed_len read_id Hlr Hrank Hfloat Hratio) as Hdom.
  fold reads in Hdom. rewrite Hlb in Hdom.
  set (end_ := upper_bound read_id reads) in *.
  destruct (Hi 0%nat) as (c0 & Hc0 & Hc0n); [lia|].
  destruct (filter_loop_first_read chain_index chain_ranges chain_weights mask_level
              chain_drop_ratio min_seed_len n_chains Hw Hi Hlg 0%nat end_ Hub Hdom
              (end_ - 1) 1%nat (<[Z.to_nat c0 := 1]> flags))
    as (flags' & Hloop & Hkept & Hset); [done|lia|lia|rewrite length_insert; lia|].
  exists flags'. split.
  - unfold chain_filter_kernel. fold read_id reads.
    rewrite (proj2 (Z.leb_gt _ _)) by done. rewrite Hlb. fold end_.
    rewrite Hc0. cbn [mbind option_bind]. unfold store. rewrite decide_True by lia.
    cbn [mbind option_bind]. cbn [plus]. rewrite Hloop. done.
  - intros c Hc.
    assert (c < n_chains)%nat as Hcn by (apply lookup_lt_Some in Hc; lia).
    assert (Z.of_nat c ∈ take n_chains chain_index) as Hc'.
    { rewrite (ranking_permutation _ _ _ _ Hrank). apply list_elem_of_fmap.
      exists c. split; [done|]. apply elem_of_seq. lia. }
    apply list_elem_of_lookup in Hc' as [p Hp].
    assert (0 ≤ p < end_)%nat as Hpr.
    { pose proof (ranking_range _ _ _ _ Hrank read_id p (Z.of_nat c) Hp) as Hr.
      fold reads in Hr. rewrite Hlb in Hr. apply Hr. unfold load.
      by rewrite Nat2Z.id. }
    apply lookup_take_Some in Hp as [Hp _].
    destruct (decide (p = 0%nat)) as [->|Hne].
    + simplify_eq. destruct Hkept as [_ Hkept]. rewrite <- (Nat2Z.id c).
      apply Hkept. apply list_lookup_insert_eq. lia.
    + rewrite <- (Nat2Z.id c). apply (Hset p); [lia|done].
Qed.

Lemma first_read_keeps_every_chain_witness :
  ∃ flags',
    chain_filter_kernel ranked_index ranked_ranges ranked_keys one_half one_half 5
      (make_chunk 0 2 0 3) 3 ranked_reads [0; 0; 0] 0 = Some flags'
    ∧ flags' !! 0%nat = Some 1 ∧ flags' !! 1%nat = Some 1.
Proof.
  destruct (first_read_keeps_every_chain ranked_index ranked_ranges ranked_keys
              one_half one_half 5 (make_chunk 0 2 0 3) 3 ranked_reads
              ranked_chain_weights [0; 0; 0] 0)
    as (flags' & Hk & Hall).
  - simpl. lia.
  - simpl. lia.
  - simpl. lia.
  - exact ranked_example.
  - reflexivity.
  - reflexivity.
  - reflexivity.
  - vm_compute. apply list_elem_of_here.
  - reflexivity.
  - exists flags'. split_and!; [exact Hk|apply Hall; reflexivity..].
Defined.

(** X10. On the tables of a ranking, with [chain_drop_ratio] at most 1, the
    thread of a read whose sub-range starts after rank 0 runs to its end,
    marks the chain at the first rank of the sub-range, and marks any other
    chain of the read exactly when the span of that chain intersects the
    span of the first and the overlap is significant: the first chain stays
    the only accepted one. *)
Theorem later_read_keeps_overlaps_of_first
    (chain_index : list Z) (chain_ranges : list uint2) (chain_weights : list Z)
    (mask_level chain_drop_ratio : float) (min_seed_len : Z)
    (chunk : read_chunk) (n_chains : nat) (chain_reads weights : list Z)
    (flags : list Z) (tid : nat) :
  let read_id := wrap32 (Z.of_nat tid + read_begin chunk) in
  let begin := lower_bound read_id (take n_chains chain_reads) in
  let end_ := upper_bound read_id (take n_chains chain_reads) in
  (n_chains ≤ length chain_reads)%nat →
  (n_chains ≤ length chain_ranges)%nat →
  (n_chains ≤ length flags)%nat →
  ranking (take n_chains chain_reads) weights
    (take n_chains chain_weights) (take n_chains chain_index) →
  is_float chain_drop_ratio →
  float_le chain_drop_ratio (float_of_uint32 1) = true →
  read_id < read_end chunk →
  read_id ∈ take n_chains chain_reads →
  (0 < begin)%nat →
  ∃ flags' cb b_span,
    chain_index !! begin = Some cb ∧ load chain_ranges cb = Some b_span ∧
    chain_filter_kernel chain_index chain_ranges chain_weights mask_level
      chain_drop_ratio min_seed_len chunk n_chains chain_reads flags tid = Some flags' ∧
    flags' !! Z.to_nat cb = Some 1 ∧
    ∀ p ci sp, (begin < p < end_)%nat → chain_index !! p = Some ci →
      load chain_ranges ci = Some sp →
      flags' !! Z.to_nat ci = Some 1 ↔
      flags !! Z.to_nat ci = Some 1 ∨
      have_overlap sp b_span && significant_overlap sp b_span mask_level = true.
Proof.
  intros read_id begin end_ Hlr Hlg Hlf Hrank Hfloat Hratio Hlt Hin Hlb.
  set (reads := take n_chains chain_reads) in *.
  assert (length reads = n_chains) as Hlen by (subst reads; rewrite length_take; lia).
  assert (Sorted Z.le reads) as Hsr by apply Hrank.
  apply list_elem_of_lookup in Hin as [q Hq].
  apply bounds_range in Hq; [|done]. fold begin end_ in Hq.
  pose proof (upper_bound_le_length read_id reads) as Hub. rewrite Hlen in Hub.
  fold end_ in Hub.
  destruct (ranking_tables n_chains chain_reads weights chain_weights chain_index Hlr Hrank)
    as [Hw Hi].
  pose proof (ranking_no_dominance n_chains chain_reads weights chain_weights chain_index
                chain_drop_ratio min_seed_len read_id Hlr Hrank Hfloat Hratio) as Hdom.
  fold reads begin end_ in Hdom.
  pose proof (ranking_index_inj n_chains chain_reads weights chain_weights chain_index
                Hlr Hrank) as Hinj.
  destruct (Hi begin) as (cb & Hcb & Hcbn); [lia|].
  destruct (lookup_lt_is_Some_2 chain_ranges (Z.to_nat cb)) as [b_span Hbs]; [lia|].
  change (load chain_ranges cb = Some b_span) in Hbs.
  destruct (filter_loop_later_read chain_index chain_ranges chain_weights mask_level
              chain_drop_ratio min_seed_len n_chains Hw Hi Hlg begin end_ Hub Hdom Hinj
              cb b_span (end_ - (begin + 1)) (begin + 1)%nat (<[Z.to_nat cb := 1]> flags))
    as (flags' & Hloop & Hlen' & Hframe & Hiff);
    [done..|lia|lia|rewrite length_insert; lia|].
  exists flags', cb, b_span. split_and!; [done|done| | |].
  - unfold chain_filter_kernel. fold read_id reads begin end_.
    rewrite (proj2 (Z.leb_gt _ _)) by done.
    rewrite Hcb. cbn [mbind option_bind]. unfold store. rewrite decide_True by lia.
    cbn [mbind option_bind]. rewrite Hloop. done.
  - rewrite Hframe; [apply list_lookup_insert_eq; lia|].
    intros (p & cp & Hp & Hcp & Heq).
    assert (begin = p) by (eapply (Hinj begin p); eauto; lia). lia.
  - intros p ci sp Hp Hci Hsp.
    rewrite (Hiff p ci sp) by (done || lia).
    rewrite list_lookup_insert_ne; [done|].
    intros Heq. assert (begin = p) by (eapply (Hinj begin p); eauto; lia). lia.
Qed.

Lemma two_reads_ranked :
  ranking (take 3 [0; 1; 1]) [10; 10; 20]
    (take 3 two_reads_weights) (take 3 two_reads_index).
Proof.
  unfold ranking, sorts_by_key. split_and!.
  - reflexivity.
  - repeat constructor; lia.
  - repeat constructor; lia.
  - repeat constructor; lia.
  - reflexivity.
  - reflexivity.
  - repeat constructor; vm_compute; discriminate.
Defined.

Lemma later_read_keeps_overlaps_of_first_witness :
  ∃ flags',
    chain_filter_kernel two_reads_index two_reads_ranges two_reads_weights one_half one_half 5
      (make_chunk 0 2 0 3) 3 [0; 1; 1] [0; 0; 0] 1 = Some flags'
    ∧ flags' !! 1%nat = Some 1 ∧ ¬ flags' !! 2%nat = Some 1.
Proof.
  destruct (later_read_keeps_overlaps_of_first two_reads_index two_reads_ranges
              two_reads_weights one_half one_half 5 (make_chunk 0 2 0 3) 3 [0; 1; 1]
              [10; 10; 20] [0; 0; 0] 1)
    as (flags' & cb & b_span & Hcb & Hsp & Hk & Hfirst & Hrest).
  - simpl. lia.
  - simpl. lia.
  - simpl. lia.
  - exact two_reads_ranked.
  - reflexivity.
  - reflexivity.
  - reflexivity.
  - vm_compute. apply list_elem_of_further, list_elem_of_here.
  - vm_compute. lia.
  - vm_compute in Hcb. injection Hcb as <-.
    vm_compute in Hsp. injection Hsp as <-.
    exists flags'. split_and!; [exact Hk|exact Hfirst|].
    intros H2.
    apply (Hrest 2%nat 2 (make_uint2 100 120)) in H2;
      [|vm_compute; lia|reflexivity|reflexivity].
    destruct H2 as [H2|H2]; vm_compute in H2; discriminate.
Defined.

(** ** The host function *)


Lemma length_copy_into {A} (src dst : list A) :
  length (copy_into src dst) = Nat.max (length src) (length dst).
Proof. unfold copy_into. rewrite length_app, length_drop. lia. Qed.

Lemma length_reserve reserved_space n v :
  length (reserve reserved_space n v)
  = if decide (reserved_space < n)%nat then n else length v.
Proof. unfold reserve. case_decide; [apply length_replicate|done]. Qed.

Lemma select_flagged_elem {A} (l : list A) : ∀ flags k a f,
  l !! k = Some a → flags !! k = Some f → f ≠ 0 → a ∈ select_flagged l flags.
Proof.
  induction l as [|b l IH]; intros [|g flags] k a f Hl Hf Hne; try done.
  rewrite select_flagged_cons. destruct k as [|k]; simplify_eq/=.
  - rewrite decide_True by done. left.
  - case_decide; [right|]; by eapply IH.
Qed.

(** the slices of consecutive runs follow one another *)
Lemma offsets_from_disjoint lengths : ∀ start,
  Forall (λ l, 0 < l) lengths →
  StronglySorted (λ a b : Z * Z, a.1 + a.2 <= b.1)
    (zip (offsets_from start lengths) lengths) ∧
  Forall (λ a : Z * Z, start <= a.1) (zip (offsets_from start lengths) lengths).
Proof.
  induction lengths as [|l lengths IH]; intros start Hl.
  - split; constructor.
  - apply Forall_cons in Hl as [Hl0 Hl]. cbn [offsets_from zip zip_with].
    destruct (IH (start + l) Hl) as [IH1 IH2]. split.
    + constructor; [done|]. eapply Forall_impl; [exact IH2|]. intros [o c] ?. simpl in *. lia.
    + constructor; [simpl; lia|]. eapply Forall_impl; [exact IH2|].
      intros [o c] ?. simpl in *. lia.
Qed.

(** the seeds of the slice of a run carry the identifier of the run *)
Lemma runs_slice runs : ∀ pre k id cnt o,
  Forall (λ r, 0 < r.2) runs →
  runs !! k = Some (id, cnt) →
  offsets_from (Z.of_nat (length pre)) runs.*2 !! k = Some o →
  0 <= o ∧ 0 < cnt ∧
  o + cnt <= Z.of_nat (length (pre ++ mjoin (expand_run <$> runs))) ∧
  ∀ j, (Z.to_nat o ≤ j < Z.to_nat (o + cnt))%nat →
       (pre ++ mjoin (expand_run <$> runs)) !! j = Some id.
Proof.
  induction runs as [|[id0 cnt0] runs IH]; intros pre k id cnt o Hc Hk Ho; [done|].
  apply Forall_cons in Hc as [Hc0 Hc]. cbn [snd] in Hc0.
  rewrite !fmap_cons, join_cons in *. cbn [snd offsets_from] in Ho.
  destruct k as [|k].
  - cbn [lookup list_lookup] in Hk, Ho. simplify_eq.
    rewrite !length_app. unfold expand_run at 1 2. cbn [fst snd].
    rewrite length_replicate. split_and!; try lia.
    intros j Hj. rewrite lookup_app_r by lia. rewrite lookup_app_l.
    2:{ unfold expand_run. cbn [fst snd]. rewrite length_replicate. lia. }
    unfold expand_run. cbn [fst snd]. apply lookup_replicate. split; [done|lia].
  - cbn [lookup list_lookup] in Hk, Ho. rewrite app_assoc.
    apply (IH (pre ++ expand_run (id0, cnt0)) k id cnt o); [done|done|].
    rewrite length_app. unfold expand_run. cbn [fst snd]. rewrite length_replicate.
    replace (Z.of_nat (length pre + Z.to_nat cnt0)) with (Z.of_nat (length pre) + cnt0)
      by lia.
    done.
Qed.

(** each chain of the grouped table is a run of seeds that carry one
    identifier, the read of the chain in its high bits, and the slices of the
    chains follow one another *)
Lemma group_chains_chains (n_mems n : nat) (m m' : mem_state) :
  group_chains n_mems m = Some (n, m') →
  let seeds := take n_mems (mems_chain m) in
  Sorted Z.le seeds →
  (n ≤ n_mems)%nat ∧
  StronglySorted (λ a b : Z * Z, a.1 + a.2 <= b.1)
    (zip (take n (chain_offsets m')) (take n (chain_lengths m'))) ∧
  ∀ c r o l,
    take n (chain_reads m') !! c = Some r → take n (chain_offsets m') !! c = Some o →
    take n (chain_lengths m') !! c = Some l →
    0 <= o ∧ 0 < l ∧ o + l <= Z.of_nat (length seeds) ∧
    ∃ id, hi_bits id = r ∧
          ∀ j, (Z.to_nat o ≤ j < Z.to_nat (o + l))%nat → seeds !! j = Some id.
Proof.
  intros Hg seeds Hs.
  destruct (group_chains_tables n_mems n m m' Hg) as (Hn & Hlengths & Hoffsets & Hreads).
  fold seeds in Hn, Hlengths, Hoffsets, Hreads. clear Hg.
  set (runs := runlength_encode seeds) in *.
  pose proof (runlength_encode_counts seeds) as Hc. fold runs in Hc.
  pose proof (runlength_encode_expand seeds) as He. fold runs in He.
  pose proof (runlength_encode_sorted seeds Hs) as Hss. fold runs in Hss.
  apply Sorted_StronglySorted in Hss; [|intros ???; lia].
  assert (Forall (λ l, 0 < l) runs.*2) as Hc' by by apply Forall_fmap.
  assert ((λ c, Z.of_nat (lower_bound c seeds)) <$> runs.*1 = offsets_from 0 runs.*2) as Hoff.
  { pose proof (lower_bound_runs runs [] Hss Hc) as H0. rewrite He in H0.
    apply H0. constructor. }
  rewrite Hlengths, Hoffsets, Hreads, Hoff. split_and!.
  - rewrite Hn. pose proof (expand_runs_length runs Hc) as Hsum. rewrite He in Hsum.
    assert (length seeds ≤ n_mems)%nat by (subst seeds; rewrite length_take; lia).
    assert (Z.of_nat (length runs) <= foldr Z.add 0 runs.*2); [|lia].
    clear -Hc. induction Hc as [|[k c] runs Hc0 _ IH]; [done|].
    rewrite fmap_cons. cbn [foldr length snd] in *. lia.
  - apply (offsets_from_disjoint runs.*2 0 Hc').
  - intros c r o l Hr Ho Hl.
    apply list_lookup_fmap_Some in Hr as (id & -> & Hid).
    apply list_lookup_fmap_Some in Hid as ([id' cnt] & ? & Hrun). simplify_eq/=.
    apply list_lookup_fmap_Some in Hl as ([id'' cnt'] & ? & Hrun'). simplify_eq/=.
    destruct (runs_slice runs [] c id' cnt o Hc Hrun Ho) as (? & ? & Hle & Hslice).
    cbn [app] in Hle, Hslice. rewrite He in Hle, Hslice.
    split_and!; [done..|]. exists id'. split; [done|]. exact Hslice.
Qed.

(** the tables after compaction: the same selection of each of the tables *)
Lemma compact_chains_tables (n : nat) (chain_flags chain_index : list Z)
    (p : pipeline_context) :
  let m := mem p in
  let p' := compact_chains n chain_flags chain_index p in
  let n' := length (filter (λ f, f ≠ 0) (take n chain_flags)) in
  (n ≤ length chain_flags)%nat → (n ≤ length (chain_reads m))%nat →
  (n ≤ length (chain_offsets m))%nat → (n ≤ length (chain_lengths m))%nat →
  n_chains (mem p') = Z.of_nat n' ∧
  take n' (chain_reads (mem p'))
    = select_flagged (take n (chain_reads m)) (take n chain_flags) ∧
  take n' (chain_offsets (mem p'))
    = select_flagged (take n (chain_offsets m)) (take n chain_flags) ∧
  take n' (chain_lengths (mem p'))
    = select_flagged (take n (chain_lengths m)) (take n chain_flags).
Proof.
  intros m p' n' Hf Hr Ho Hl. subst p' n'. unfold compact_chains, copy_flagged.
  fold m. cbn [mem n_chains chain_reads chain_offsets chain_lengths].
  assert (∀ l : list Z, (n ≤ length l)%nat →
    length (select_flagged (take n l) (take n chain_flags))
    = length (filter (λ f, f ≠ 0) (take n chain_flags))) as Hlen.
  { intros l Hll. apply select_flagged_length. rewrite !length_take. lia. }
  split_and!.
  - by rewrite Hlen.
  - apply take_copy_into_eq. by apply Hlen.
  - apply take_copy_into_eq. by apply Hlen.
  - apply take_copy_into_eq. by apply Hlen.
Qed.

Lemma runlength_encode_length keys : (length (runlength_encode keys) ≤ length keys)%nat.
Proof.
  induction keys as [|k keys IH]; [done|]. rewrite runlength_encode_cons.
  destruct (runlength_encode keys) as [|[k' c] runs]; [simpl; lia|].
  case_decide; simpl in *; lia.
Qed.

Lemma select_flagged_le {A} (l : list A) flags :
  (length (select_flagged l flags) ≤ length l)%nat.
Proof. apply sublist_length, select_flagged_sublist. Qed.

Lemma sort_by_key_length keys vals :
  length keys = length vals →
  length (sort_by_key keys vals).1 = length keys ∧
  length (sort_by_key keys vals).2 = length keys.
Proof.
  intros Hl. destruct (sort_by_key_sorts keys vals) as (Hl' & Hp & _).
  apply Permutation_length in Hp. rewrite !length_zip_with in Hp. lia.
Qed.

Lemma rank_chains_index_length n reserved_space keys :
  length keys = n → (n ≤ reserved_space)%nat →
  length (rank_chains n reserved_space keys).2 = reserved_space.
Proof.
  intros Hk Hn. unfold rank_chains.
  set (iota := Z.of_nat <$> seq 0 n).
  assert (length iota = n) as Hi by (subst iota; by rewrite length_fmap, length_seq).
  rewrite (take_copy_into_eq n iota) by done. rewrite (take_ge keys) by lia.
  pose proof (sort_by_key_length keys iota ltac:(lia)) as [_ Hl2].
  destruct (sort_by_key keys iota) as [keys' index']. cbn [fst snd] in *.
  rewrite !length_copy_into, length_replicate. lia.
Qed.

(** the stages end with the compaction of the grouped tables by flags of the
    number of the chains, through a scratch buffer of the reserved size *)
Lemma filter_stages_compaction opts n_reads n_mems p flags p' :
  filter_stages opts n_reads n_mems p = Some (flags, p') →
  ∃ n m chain_index,
    group_chains n_mems (mem p) = Some (n, m) ∧
    length flags = n ∧
    length chain_index = Nat.max (length (chain_lengths (mem p))) n ∧
    p' = compact_chains n flags chain_index
           (make_pipeline (chunk p) m (stats_n_chains p) (stats_chain_time p)).
Proof.
  intros Hst. unfold filter_stages in Hst.
  destruct (group_chains n_mems (mem p)) as [[n m]|]; [|done].
  cbn [mbind option_bind] in Hst.
  destruct (compute_coverage n m) as [[chain_ranges chain_weights0]|] eqn:Ec; [|done].
  cbn [mbind option_bind] in Hst.
  assert (length chain_weights0 = n) as Hlk.
  { unfold compute_coverage in Ec. apply launch_coverage_slots in Ec as [Hl _].
    cbn [snd] in Hl. by rewrite length_replicate in Hl. }
  pose proof (rank_chains_index_length n (length (chain_lengths (mem p)) `max` n)
                chain_weights0 Hlk ltac:(lia)) as Hli.
  destruct (rank_chains n _ chain_weights0) as [chain_weights chain_index].
  cbn [snd] in Hli.
  destruct (flag_chains _ _ _ _ _ _ _ _) as [flags0|] eqn:Ef; [|done].
  cbn [mbind option_bind] in Hst. simplify_eq.
  eexists _, _, chain_index. split_and!; [reflexivity| |done|done].
  unfold flag_chains in Ef. apply launch_filter_kept in Ef as [Hl _].
  by rewrite length_replicate in Hl.
Qed.

Lemma filter_chains_stages opts scoped_timer p p' :
  wrap32 (mem_end (chunk p) - mem_begin (chunk p)) ≠ 0 →
  filter_chains opts scoped_timer p = Some p' →
  ∃ flags p1,
    filter_stages opts
      (Z.to_nat (wrap32 (read_end (chunk p) - read_begin (chunk p))))
      (Z.to_nat (wrap32 (mem_end (chunk p) - mem_begin (chunk p)))) p
    = Some (flags, p1) ∧
    p' = stop_timer scoped_timer p1.
Proof.
  intros Hne Hf. unfold filter_chains in Hf. rewrite decide_False in Hf by done.
  destruct (filter_stages _ _ _ _) as [[flags p1]|]; [|done].
  simplify_eq/=. by exists flags, p1.
Qed.

Lemma group_chains_frame n_mems n m m' :
  group_chains n_mems m = Some (n, m') →
  mems m' = mems m ∧ mems_index m' = mems_index m ∧ mems_chain m' = mems_chain m ∧
  n = length (runlength_encode (take n_mems (mems_chain m))) ∧
  (n ≤ n_mems)%nat ∧ (n_mems ≤ length (mems_chain m))%nat ∧
  (n ≤ length (chain_lengths m'))%nat ∧ (n ≤ length (chain_offsets m'))%nat ∧
  (n ≤ length (chain_reads m'))%nat ∧
  ∀ L, length (chain_lengths m) = L → length (chain_offsets m) = L →
       length (chain_reads m) = L →
       let L' := Nat.max L n in
       length (chain_lengths m') = L' ∧ length (chain_offsets m') = L' ∧
       length (chain_reads m') = L'.
Proof.
  intros Hg. unfold group_chains in Hg.
  case_decide as Hn; [|done]. case_decide as Hcap; [|done]. simplify_eq.
  cbn [mems mems_index mems_chain chain_lengths chain_offsets chain_reads].
  rewrite !length_copy_into, !length_fmap.
  split_and!; try done; try lia.
  - pose proof (runlength_encode_length (take n_mems (mems_chain m))) as H.
    rewrite length_take in H. lia.
  - intros L H1 H2 H3. cbv zeta.
    rewrite !length_reserve, H1, H2, H3.
    case_decide; lia.
Qed.

(** X11. [filter_chains] leaves the chunk and the seed arrays as they are,
    never lowers the statistic of kept chains, and hands the time statistic
    to the timer once.  When the chunk has seeds, the chain count it stores
    is the number of chains it kept, which is at most the number of seeds,
    and the statistic grows by that number. *)
Theorem filter_chains_frame (opts : options) (scoped_timer : float → float)
    (p p' : pipeline_context) :
  filter_chains opts scoped_timer p = Some p' →
  let n_mems := wrap32 (mem_end (chunk p) - mem_begin (chunk p)) in
  chunk p' = chunk p ∧
  mems (mem p') = mems (mem p) ∧
  mems_index (mem p') = mems_index (mem p) ∧
  mems_chain (mem p') = mems_chain (mem p) ∧
  stats_n_chains p <= stats_n_chains p' ∧
  stats_chain_time p' = scoped_timer (stats_chain_time p) ∧
  (n_mems ≠ 0 →
   0 <= n_chains (mem p') <= n_mems ∧
   stats_n_chains p' = stats_n_chains p + n_chains (mem p')).
Proof.
  intros Hf n_mems.
  destruct (decide (n_mems = 0)) as [H0|Hne].
  { unfold filter_chains in Hf. fold n_mems in Hf. rewrite decide_True in Hf by done.
    simplify_eq. cbn. split_and!; done || lia. }
  destruct (filter_chains_stages opts scoped_timer p p' Hne Hf) as (flags & p1 & Hst & ->).
  fold n_mems in Hst.
  destruct (filter_stages_compaction _ _ _ _ _ _ Hst)
    as (n & m & chain_index & Hg & Hlf & _ & ->).
  destruct (group_chains_frame (Z.to_nat n_mems) n (mem p) m Hg)
    as (Hm1 & Hm2 & Hm3 & _ & Hn & _).
  unfold stop_timer, compact_chains, copy_flagged.
  cbn [chunk mem mems mems_index mems_chain n_chains stats_n_chains stats_chain_time].
  pose proof (select_flagged_le (take n (chain_reads m)) (take n flags)) as Hle.
  rewrite length_take in Hle.
  assert (0 <= n_mems) by (unfold n_mems, wrap32; apply Z.mod_pos_bound; lia).
  split_and!; try done; try lia.
Qed.

Lemma filter_chains_frame_witness :
  ∃ p', filter_chains example_options one_second two_reads_pipeline = Some p'
        ∧ mems_chain (mem p') = mems_chain (mem two_reads_pipeline)
        ∧ stats_n_chains p' = n_chains (mem p').
Proof.
  eexists. split; [reflexivity|].
  destruct (filter_chains_frame example_options one_second two_reads_pipeline _ eq_refl)
    as (_ & _ & _ & Hc & _ & _ & Hs).
  split; [exact Hc|]. destruct Hs as [_ Hs]; [vm_compute; discriminate|exact Hs].
Defined.

(** X12. [filter_chains] keeps the three chain tables at one common capacity
    and never shrinks it: tables of capacity [L] leave with capacity [L] when
    the chunk has no seed and otherwise with the larger of [L] and the
    number of chains of the chunk, which holds the kept chains. *)
Theorem filter_chains_capacity (opts : options) (scoped_timer : float → float)
    (p p' : pipeline_context) (L : nat) :
  length (chain_lengths (mem p)) = L →
  length (chain_offsets (mem p)) = L →
  length (chain_reads (mem p)) = L →
  filter_chains opts scoped_timer p = Some p' →
  let n_mems := wrap32 (mem_end (chunk p) - mem_begin (chunk p)) in
  let n := length (runlength_encode (take (Z.to_nat n_mems) (mems_chain (mem p)))) in
  let L' := if decide (n_mems = 0) then L else Nat.max L n in
  length (chain_lengths (mem p')) = L' ∧
  length (chain_offsets (mem p')) = L' ∧
  length (chain_reads (mem p')) = L' ∧
  (L ≤ L')%nat ∧
  (n_mems ≠ 0 → n_chains (mem p') <= Z.of_nat L').
Proof.
  intros H1 H2 H3 Hf n_mems n L'. subst L'.
  destruct (decide (n_mems = 0)) as [H0|Hne].
  { unfold filter_chains in Hf. fold n_mems in Hf. rewrite decide_True in Hf by done.
    simplify_eq. cbn. split_and!; done || lia. }
  destruct (filter_chains_stages opts scoped_timer p p' Hne Hf) as (flags & p1 & Hst & ->).
  fold n_mems in Hst.
  destruct (filter_stages_compaction _ _ _ _ _ _ Hst)
    as (n0 & m & chain_index & Hg & Hlf & Hli & Hp1).
  destruct (group_chains_frame (Z.to_nat n_mems) n0 (mem p) m Hg)
    as (_ & _ & _ & Hn0 & _ & _ & _ & _ & _ & Hcap).
  fold n in Hn0. rewrite Hn0 in Hli, Hcap, Hp1. rewrite Hp1. clear Hp1 Hf Hst Hg.
  destruct (Hcap L H1 H2 H3) as (Hc1 & Hc2 & Hc3).
  unfold stop_timer, compact_chains, copy_flagged.
  cbn [mem n_chains chain_reads chain_offsets chain_lengths].
  pose proof (select_flagged_le (take n (chain_reads m)) (take n flags)) as Hle1.
  pose proof (select_flagged_le (take n (chain_offsets m)) (take n flags)) as Hle2.
  pose proof (select_flagged_le (take n (chain_lengths m)) (take n flags)) as Hle3.
  rewrite length_take in Hle1, Hle2, Hle3.
  rewrite !length_copy_into, Hli, Hc2, Hc3, H1.
  split_and!; try lia.
Qed.

Lemma filter_chains_capacity_witness :
  ∃ p', filter_chains example_options one_second two_reads_pipeline = Some p'
        ∧ length (chain_reads (mem p')) = 3%nat
        ∧ length (chain_offsets (mem p')) = 3%nat.
Proof.
  eexists. split; [reflexivity|].
  destruct (filter_chains_capacity example_options one_second two_reads_pipeline _ 0
              eq_refl eq_refl eq_refl eq_refl) as (_ & Ho & Hr & _).
  split; [exact Hr|exact Ho].
Defined.

Lemma runlength_encode_elem keys id : id ∈ keys → id ∈ (runlength_encode keys).*1.
Proof.
  intros Hin. rewrite <- (runlength_encode_expand keys) in Hin.
  apply list_elem_of_join in Hin as (l & Hl & Hrun).
  apply list_elem_of_fmap in Hrun as ([k c] & -> & Hkc).
  unfold expand_run in Hl. cbn [fst snd] in Hl. apply elem_of_replicate_inv in Hl as ->.
  apply list_elem_of_fmap. by exists (k, c).
Qed.



(** X14. When [filter_chains] has run on a chunk whose seeds are sorted by
    chain identifier, every read of the chunk that has a seed has a chain in
    the chain table it leaves. *)
Theorem filter_chains_keeps_every_read (opts : options)
    (scoped_timer : float → float) (p p' : pipeline_context) (read : Z) :
  let n_mems := wrap32 (mem_end (chunk p) - mem_begin (chunk p)) in
  let seeds := take (Z.to_nat n_mems) (mems_chain (mem p)) in
  n_mems ≠ 0 →
  Sorted Z.le seeds →
  Forall (λ c, 0 <= c < 2 ^ 64) seeds →
  filter_chains opts scoped_timer p = Some p' →
  0 <= read_begin (chunk p) → read_begin (chunk p) <= read →
  read < read_end (chunk p) → read_end (chunk p) < 2 ^ 32 →
  (∃ id, id ∈ seeds ∧ hi_bits id = read) →
  read ∈ take (Z.to_nat (n_chains (mem p'))) (chain_reads (mem p')).
Proof.
  intros n_mems seeds Hne Hs Hr Hf Hb0 Hb He He32 (id & Hid & Hhi).
  destruct (filter_chains_stages opts scoped_timer p p' Hne Hf) as (flags & p1 & Hst & Hp').
  fold n_mems in Hst.
  destruct (filter_stages_compaction _ _ _ _ _ _ Hst)
    as (n & m & chain_index & Hg & Hlf & _ & Hp1).
  destruct (group_chains_frame (Z.to_nat n_mems) n (mem p) m Hg)
    as (_ & _ & _ & _ & _ & _ & Hl3 & Hl2 & Hl1 & _).
  destruct (group_chains_tables (Z.to_nat n_mems) n (mem p) m Hg) as (_ & _ & _ & Hreads).
  fold seeds in Hreads.
  assert (mem p' = mem p1) as -> by (by rewrite Hp').
  set (tid := Z.to_nat (read - read_begin (chunk p))).
  assert (wrap32 (Z.of_nat tid + read_begin (chunk p)) = read) as Hread.
  { subst tid. rewrite Z2Nat.id by lia.
    replace (read - read_begin (chunk p) + read_begin (chunk p)) with read by lia.
    apply wrap32_small. lia. }
  destruct (filter_stages_keeps_a_chain opts _ _ p flags p1 n m tid Hg Hs Hr Hst)
    as (c & Hc & Hfc).
  - assert (wrap32 (read_end (chunk p) - read_begin (chunk p))
            = read_end (chunk p) - read_begin (chunk p)) as -> by (apply wrap32_small; lia).
    subst tid. lia.
  - by rewrite Hread.
  - rewrite Hread, Hreads. apply list_elem_of_fmap. exists id. split; [done|].
    by apply runlength_encode_elem.
  - rewrite Hread in Hc. unfold load in Hc, Hfc.
    destruct (compact_chains_tables n flags chain_index
                (make_pipeline (chunk p) m (stats_n_chains p) (stats_chain_time p)))
      as (Hn' & Hreads' & _); [cbn [mem]; lia..|].
    rewrite <- Hp1 in Hn', Hreads'. cbn [mem] in Hreads'.
    rewrite (take_ge flags) in Hn', Hreads' by lia.
    rewrite Hn', Nat2Z.id, Hreads'.
    eapply (select_flagged_elem _ _ (Z.to_nat c) read 1); [exact Hc|exact Hfc|done].
Qed.

Lemma filter_chains_keeps_every_read_witness :
  ∃ p', filter_chains example_options one_second two_reads_pipeline = Some p'
        ∧ 1 ∈ take (Z.to_nat (n_chains (mem p'))) (chain_reads (mem p')).
Proof.
  eexists. split; [reflexivity|].
  apply (filter_chains_keeps_every_read example_options one_second two_reads_pipeline _ 1).
  - vm_compute. discriminate.
  - repeat constructor; vm_compute; discriminate.
  - repeat constructor; vm_compute; (discriminate || reflexivity).
  - reflexivity.
  - vm_compute. discriminate.
  - vm_compute. discriminate.
  - reflexivity.
  - reflexivity.
  - exists (chain_identifier 1 0). split; [|reflexivity].
    vm_compute. apply list_elem_of_further, list_elem_of_here.
Defined.

Lemma chain_spans_total mems mems_index begin len :
  (∀ i, (begin ≤ i < begin + len)%nat →
        ∃ k, mems_index !! i = Some k ∧ is_Some (load mems k)) →
  is_Some (chain_spans mems mems_index begin len).
Proof.
  intros Hok. unfold chain_spans. apply mapM_is_Some, Forall_forall.
  intros i Hi. apply elem_of_seq in Hi.
  destruct (Hok i Hi) as (k & Hk & seed & Hseed).
  cbn. rewrite Hk. cbn. rewrite Hseed. by eexists.
Qed.

Lemma lower_bound_reaches v l e :
  Sorted Z.le l → e ∈ l → v <= e → (lower_bound v l < length l)%nat.
Proof.
  intros Hs Hin Hle. apply Sorted_StronglySorted in Hs; [|intros ???; lia].
  apply list_elem_of_lookup in Hin as [q Hq].
  pose proof (lower_bound_lt v l q e Hs Hq) as Hlt.
  apply lookup_lt_Some in Hq. lia.
Qed.

(** the seeds of the chains of the chunk can all be read *)
Lemma group_chains_slices_ok (n_mems n : nat) (m m' : mem_state) :
  group_chains n_mems m = Some (n, m') →
  Sorted Z.le (take n_mems (mems_chain m)) →
  (Z.of_nat n_mems < 2 ^ 32) →
  (∀ i, (i < n_mems)%nat → ∃ k, mems_index m !! i = Some k ∧ is_Some (load (mems m) k)) →
  chain_slices_ok n (chain_reads m') (chain_offsets m') (chain_lengths m')
    (mems m') (mems_index m').
Proof.
  intros Hg Hs Hn32 Hok c Hc.
  destruct (group_chains_frame n_mems n m m' Hg)
    as (Hm1 & Hm2 & _ & _ & _ & _ & Hl3 & Hl2 & Hl1 & _).
  destruct (group_chains_chains n_mems n m m' Hg Hs) as (_ & _ & Hchains).
  destruct (lookup_lt_is_Some_2 (chain_reads m') c) as [r Hr]; [lia|].
  destruct (lookup_lt_is_Some_2 (chain_offsets m') c) as [o Ho]; [lia|].
  destruct (lookup_lt_is_Some_2 (chain_lengths m') c) as [l Hl]; [lia|].
  destruct (Hchains c r o l) as (Ho0 & Hl0 & Hend & _); [by rewrite lookup_take_lt..|].
  rewrite length_take in Hend.
  destruct (chain_spans_total (mems m') (mems_index m') (Z.to_nat o) (Z.to_nat l))
    as [spans Hsp].
  { intros i Hi. rewrite Hm1, Hm2. apply Hok. lia. }
  exists r, o, l, spans. split_and!; try done; lia.
Qed.

(** the tables the ranking stage leaves are a ranking of the chains *)
Lemma rank_chains_ranking n reserved_space (m : mem_state) chain_ranges chain_weights0 :
  compute_coverage n m = Some (chain_ranges, chain_weights0) →
  length (take n (chain_reads m)) = n → (n ≤ reserved_space)%nat →
  Sorted Z.le (take n (chain_reads m)) →
  Forall is_uint32 (take n (chain_reads m)) →
  ranking (take n (chain_reads m)) (weight_of_key <$> chain_weights0)
    (take n (rank_chains n reserved_space chain_weights0).1)
    (take n (rank_chains n reserved_space chain_weights0).2).
Proof.
  intros Ec Hlen Hres Hsorted Hur.
  apply compute_coverage_keys in Ec as (Hlk & Huw & Hkeys);
    [|rewrite length_take in Hlen; lia|done].
  unfold ranking. split_and!; try done.
  - by rewrite length_fmap, Hlen.
  - rewrite Hkeys, Hlen. by apply rank_chains_sorts.
Qed.

(** X15. [filter_chains] runs to its end without reading or writing outside
    a buffer or an array on every chunk whose seeds have their chain
    identifiers, sorted, whose three chain tables have one capacity, whose
    processing order names a seed at each of its positions, and in which
    some seed belongs to the last read of the chunk or to a later one. *)
Theorem filter_chains_returns (opts : options) (scoped_timer : float → float)
    (p : pipeline_context) :
  let n_mems := wrap32 (mem_end (chunk p) - mem_begin (chunk p)) in
  let seeds := take (Z.to_nat n_mems) (mems_chain (mem p)) in
  (Z.to_nat n_mems ≤ length (mems_chain (mem p)))%nat →
  length (chain_offsets (mem p)) = length (chain_lengths (mem p)) →
  length (chain_reads (mem p)) = length (chain_lengths (mem p)) →
  Sorted Z.le seeds →
  Forall (λ c, 0 <= c < 2 ^ 64) seeds →
  (∀ i, (i < Z.to_nat n_mems)%nat →
        ∃ k, mems_index (mem p) !! i = Some k ∧ is_Some (load (mems (mem p)) k)) →
  (n_mems ≠ 0 → ∃ id, id ∈ seeds ∧ read_end (chunk p) <= hi_bits id + 1) →
  is_Some (filter_chains opts scoped_timer p).
Proof.
  intros n_mems seeds Hlen Hco Hcr Hs Hr Hok Hlast. unfold filter_chains. fold n_mems.
  case_decide as Hne; [by eexists|].
  destruct (Hlast Hne) as (id & Hid & Hhi). clear Hlast.
  assert (Z.of_nat (Z.to_nat n_mems) < 2 ^ 32) as Hn32.
  { pose proof (wrap32_range (mem_end (chunk p) - mem_begin (chunk p))) as Hw.
    unfold is_uint32 in Hw. fold n_mems in Hw. lia. }
  destruct (group_chains_returns (Z.to_nat n_mems) (mem p) Hlen Hco Hcr) as [[n m] Hg].
  pose proof (group_chains_slices_ok (Z.to_nat n_mems) n (mem p) m Hg Hs Hn32 Hok)
    as Hslices.
  destruct (group_chains_frame (Z.to_nat n_mems) n (mem p) m Hg)
    as (_ & _ & _ & _ & _ & _ & Hl3 & Hl2 & Hl1 & _).
  destruct (group_chains_tables (Z.to_nat n_mems) n (mem p) m Hg) as (_ & _ & _ & Hreads).
  pose proof (group_chains_reads_sorted (Z.to_nat n_mems) n (mem p) m Hg Hs Hr) as Hsorted.
  fold seeds in Hreads.
  unfold filter_stages. rewrite Hg. cbn [mbind option_bind].
  assert (length (take n (chain_reads m)) = n) as Hlen' by (rewrite length_take; lia).
  assert (Forall is_uint32 (take n (chain_reads m))) as Hur.
  { rewrite Hreads. apply Forall_fmap, Forall_forall. intros k _. apply wrap32_range. }
  destruct (launch_coverage_result n (chain_reads m) (chain_offsets m) (chain_lengths m)
              (mems m) (mems_index m) (divide_ri n block_dim * block_dim)
              (replicate n (make_uint2 0 0), replicate n 0) Hslices)
    as ([chain_ranges chain_weights0] & Hcov & Hlr & _);
    [cbn [fst snd]; rewrite length_replicate; lia..|].
  cbn [fst snd] in Hlr. rewrite length_replicate in Hlr.
  fold (compute_coverage n m) in Hcov. rewrite Hcov. cbn [mbind option_bind].
  pose proof (rank_chains_ranking n (length (chain_lengths (mem p)) `max` n) m
                chain_ranges chain_weights0 Hcov Hlen' (Nat.le_max_r _ _) Hsorted Hur)
    as Hrank.
  destruct (rank_chains n _ chain_weights0) as [chain_weights chain_index].
  cbn [fst snd] in Hrank.
  destruct (ranking_tables n (chain_reads m) _ chain_weights chain_index Hl1 Hrank)
    as [Hw Hi].
  destruct (launch_filter_total chain_index chain_ranges chain_weights
              (mask_level opts) (chain_drop_ratio opts) (min_seed_len opts)
              n (chunk p) n (chain_reads m)
              (seq 0 (divide_ri (Z.to_nat (wrap32 (read_end (chunk p) - read_begin (chunk p))))
                        block_dim * block_dim))
              Hw Hi) with (flags := replicate n 0) as [flags Hflags].
  - lia.
  - intros v. pose proof (upper_bound_le_length v (take n (chain_reads m))). lia.
  - apply Forall_forall. intros tid _ Hlt.
    rewrite <- Hlen' at 2.
    apply (lower_bound_reaches _ _ (hi_bits id)); [done| |lia].
    rewrite Hreads. apply list_elem_of_fmap. exists id. split; [done|].
    by apply runlength_encode_elem.
  - by rewrite length_replicate.
  - unfold flag_chains. rewrite Hflags. by eexists.
Qed.

Lemma filter_chains_returns_witness :
  is_Some (filter_chains example_options one_second two_reads_pipeline).
Proof.
  apply filter_chains_returns.
  - vm_compute. lia.
  - reflexivity.
  - reflexivity.
  - repeat constructor; vm_compute; discriminate.
  - repeat constructor; vm_compute; (discriminate || reflexivity).
  - intros i Hi. change (i < 3)%nat in Hi.
    destruct i as [|[|[|i]]]; [eexists; split; [reflexivity|by eexists]..|lia].
  - intros _. exists (chain_identifier 1 0). split; [|vm_compute; discriminate].
    vm_compute. apply list_elem_of_further, list_elem_of_here.
Defined.
